(** * Segment matching and merging (deva/inference/segment_merging.py)

    A shallow embedding of [_get_iou], [merge_by_iou], [merge_by_engulf] and
    [match_and_merge], together with the properties of the matching and of the
    area-ordered rendering that the design document states about them.

    Conventions of the embedding.
    - A frame is a finite list of pixels; a tensor of that shape is a total
      function on pixels, read only at the pixels of the frame.  All tensors
      of one call share the frame, which is what the broadcasting rules of
      the tensor library demand of the source.
    - Pixel counts and labels are 64-bit integers in the source.  They are
      counts of pixels and object identities, far below 2^63, and are
      embedded as [Z] without wrap-around.
    - The quotients [intersection / union] and [intersection / new_sum] are
      floating-point numbers in the source.  They are embedded as exact
      rationals, with the values a division by zero produces written out.
      The comparison with 0.5 is exact for every frame of fewer than 2^24
      pixels.
    - Python dictionaries keep insertion order and the source depends on it;
      they are association lists with update in place.
    - A failed dictionary lookup raises; fallible code lives in [result]. *)

From Stdlib Require Import ZArith QArith List Bool String Ascii Lia Permutation.
Import ListNotations.
Local Open Scope Z_scope.

Set Implicit Arguments.

(** ** Exceptions *)

Inductive exn : Type :=
| KeyError
| IndexError.

Inductive result (A : Type) : Type :=
| Ok (a : A)
| Raise (e : exn).

Arguments Ok {A} a.
Arguments Raise {A} e.

Definition bind {A B : Type} (m : result A) (k : A -> result B) : result B :=
  match m with
  | Ok a => k a
  | Raise e => Raise e
  end.

Notation "x <- m ;; k" := (bind m (fun x => k))
  (at level 100, m at next level, right associativity).
Notation "' p <- m ;; k" := (bind m (fun x => match x with p => k end))
  (at level 100, p pattern, m at next level, right associativity).

(** A [for] loop whose body may raise: the state is threaded from left to
    right and the first exception ends the loop. *)
Fixpoint for_each {S X : Type} (body : S -> X -> result S) (xs : list X) (s : S)
  : result S :=
  match xs with
  | [] => Ok s
  | x :: rest => s' <- body s x ;; for_each body rest s'
  end.

(** ** Insertion-ordered dictionaries *)

Section Dict.
Variables K V : Type.
Variable eqb : K -> K -> bool.

Definition dict : Type := list (K * V).

Fixpoint dict_get (d : dict) (k : K) : option V :=
  match d with
  | [] => None
  | (k', v) :: rest => if eqb k' k then Some v else dict_get rest k
  end.

Definition dict_mem (d : dict) (k : K) : bool :=
  match dict_get d k with
  | Some _ => true
  | None => false
  end.

(** [d[k] = v]: an existing key keeps its position (and the key object first
    inserted); a new key goes to the end. *)
Fixpoint dict_set (d : dict) (k : K) (v : V) : dict :=
  match d with
  | [] => [(k, v)]
  | (k', v') :: rest =>
      if eqb k' k then (k', v) :: rest else (k', v') :: dict_set rest k v
  end.

(** [d[k]] as an expression. *)
Definition dict_lookup (d : dict) (k : K) : result V :=
  match dict_get d k with
  | Some v => Ok v
  | None => Raise KeyError
  end.

(** A dictionary comprehension over a list of key/value pairs. *)
Definition dict_of_list (kvs : list (K * V)) : dict :=
  fold_left (fun d kv => dict_set d (fst kv) (snd kv)) kvs [].

Definition dict_keys (d : dict) : list K := map fst d.

End Dict.

(** ** Floating-point quotients of integer tensors *)

Inductive tfloat : Type :=
| TNaN
| TPosInf
| TNegInf
| TFin (q : Q).

(** True division of two integer scalars. *)
Definition tdiv (a b : Z) : tfloat :=
  if b =? 0 then
    if 0 <? a then TPosInf else if a <? 0 then TNegInf else TNaN
  else TFin (inject_Z a / inject_Z b)%Q.

Definition Qltb (x y : Q) : bool := negb (Qle_bool y x).

(** [x > y]; every comparison with a NaN is false. *)
Definition tgt (x : tfloat) (y : Q) : bool :=
  match x with
  | TPosInf => true
  | TFin q => Qltb y q
  | TNegInf | TNaN => false
  end.

(** ** Object records

    Modelled from the spec: deva/inference/object_info.py is not under src/.
    An object record carries its identity, its category type ([None] is
    Unknown, [Some false] is Stuff, [Some true] is Thing), its confidence and
    its staleness counter.  Two records are the same dictionary key when they
    carry the same identity. *)

Record ObjectInfo : Type := mkObjectInfo {
  id : Z;
  isthing : option bool;
  score : Q;
  poke_count : Z
}.

Definition obj_eqb (a b : ObjectInfo) : bool := id a =? id b.

Definition isthing_eqb (a b : option bool) : bool :=
  match a, b with
  | None, None => true
  | Some x, Some y => Bool.eqb x y
  | _, _ => false
  end.

(** The key [(obj, is_new)] of [matched_area]. *)
Definition key_eqb (a b : ObjectInfo * bool) : bool :=
  obj_eqb (fst a) (fst b) && Bool.eqb (snd a) (snd b).

(** What identifies a key of [matched_area]. *)
Definition key_proj (a : ObjectInfo * bool) : Z * bool := (id (fst a), snd a).

(** Modelled from the spec: [ObjectInfo.poke] (not under src/) increments the
    staleness counter. *)
Definition poke (o : ObjectInfo) : ObjectInfo :=
  mkObjectInfo (id o) (isthing o) (score o) (poke_count o + 1).

(** Modelled from the spec: [ObjectInfo.unpoke] (not under src/) resets the
    staleness counter to zero. *)
Definition unpoke (o : ObjectInfo) : ObjectInfo :=
  mkObjectInfo (id o) (isthing o) (score o) 0.

(** ** The object registry

    Modelled from the spec: deva/inference/object_manager.py is not under
    src/.  The registry owns the insertion-ordered mapping from object
    records to temporary indices and the collection of all identities ever
    created. *)

Record ObjectManager : Type := mkObjectManager {
  obj_to_tmp_id : dict ObjectInfo Z;
  all_historical_object_ids : list Z
}.

(** Modelled from the spec: [find_object_by_id] (not under src/) looks an
    object up by its identity. *)
Fixpoint find_entry (d : dict ObjectInfo Z) (i : Z) : option ObjectInfo :=
  match d with
  | [] => None
  | (o, _) :: rest => if id o =? i then Some o else find_entry rest i
  end.

Definition find_object_by_id (om : ObjectManager) (i : Z) : result ObjectInfo :=
  match find_entry (obj_to_tmp_id om) i with
  | Some o => Ok o
  | None => Raise KeyError
  end.

(** The records are shared mutable objects in the source: a method call on
    the record found in the registry is an update of the registry entry. *)
Fixpoint update_entry (d : dict ObjectInfo Z) (i : Z) (f : ObjectInfo -> ObjectInfo)
  : dict ObjectInfo Z :=
  match d with
  | [] => []
  | (o, t) :: rest =>
      if id o =? i then (f o, t) :: rest else (o, t) :: update_entry rest i f
  end.

Definition update_object (om : ObjectManager) (i : Z) (f : ObjectInfo -> ObjectInfo)
  : ObjectManager :=
  mkObjectManager (update_entry (obj_to_tmp_id om) i f)
                  (all_historical_object_ids om).

(** The identities registered in a registry, in iteration order. *)
Definition registered_ids (d : dict ObjectInfo Z) : list Z :=
  map (fun e => id (fst e)) d.

(** Modelled from the spec: identities are assigned once and never reused; a
    fresh identity is one more than the largest identity ever created. *)
Definition fresh_id (hist : list Z) : Z :=
  1 + fold_right Z.max 0 hist.

(** Modelled from the spec: [add_new_objects] (not under src/) creates the
    record of a new object with a freshly allocated identity, the category
    type and confidence of the candidate and staleness zero, gives it the
    next temporary index and records the identity as created.  It returns
    the temporary indices and the identities of the objects it was given. *)
Definition add_new_objects (om : ObjectManager) (obj : ObjectInfo)
  : ObjectManager * (list Z * list Z) :=
  let new_id := fresh_id (all_historical_object_ids om) in
  let new_obj := mkObjectInfo new_id (isthing obj) (score obj) 0 in
  let new_tmp := Z.of_nat (List.length (obj_to_tmp_id om)) + 1 in
  (mkObjectManager (obj_to_tmp_id om ++ [(new_obj, new_tmp)])
                   (all_historical_object_ids om ++ [new_id]),
   ([new_tmp], [new_id])).

(** [xs[0]] *)
Definition index0 (xs : list Z) : result Z :=
  match xs with
  | x :: _ => Ok x
  | [] => Raise IndexError
  end.

(** ** Tensors over a frame, and the merging functions *)

Section Merging.

Variable pixel : Type.

(** The pixels of the frame, in scan order. *)
Variable frame : list pixel.

(** The spec leaves the confidence policy of a merge open (keep the maximum
    or keep the latest); the development is parametric in it. *)
Variable merge_score : Q -> Q -> Q.

Definition tensor (A : Type) : Type := pixel -> A.

(** [m.sum()] of a boolean tensor. *)
Definition tsum (m : tensor bool) : Z :=
  Z.of_nat (List.length (filter m frame)).

(** [m1 * m2] of two boolean tensors. *)
Definition tmul (m1 m2 : tensor bool) : tensor bool :=
  fun p => m1 p && m2 p.

(** [t == v] *)
Definition teq (t : tensor Z) (v : Z) : tensor bool :=
  fun p => t p =? v.

(** [t[m] = v], the masked assignment. *)
Definition tset (t : tensor Z) (m : tensor bool) (v : Z) : tensor Z :=
  fun p => if m p then v else t p.

Definition zeros_like (_ : tensor Z) : tensor Z := fun _ => 0.

(** Modelled from the spec: [ObjectInfo.merge] (not under src/) absorbs a
    matched candidate by updating the confidence. *)
Definition merge (o new_obj : ObjectInfo) : ObjectInfo :=
  mkObjectInfo (id o) (isthing o) (merge_score (score o) (score new_obj))
               (poke_count o).

(** *** [_get_iou] *)

(** The triple returned by [_get_iou]: [(0, None, None)] or
    [(intersection / union, intersection, union)]. *)
Inductive iou_result : Type :=
| NoOverlap
| Overlap (ratio : tfloat) (intersection union : Z).

Definition _get_iou (m1 m2 : tensor bool) (m1_sum m2_sum : Z) : iou_result :=
  let intersection := tsum (tmul m1 m2) in
  if Qltb (inject_Z intersection) (1 # 1000) then NoOverlap
  else
    let union := m1_sum + m2_sum - intersection in
    Overlap (tdiv intersection union) intersection union.

(** *** The state of one matching pass *)

Definition area_key : Type := (ObjectInfo * bool)%type.

Record matching : Type := mkMatching {
  our_to_new_matching : dict ObjectInfo ObjectInfo;
  matched_area : dict area_key Z;
  new_objects : list ObjectInfo
}.

Definition empty_matching : matching := mkMatching [] [] [].

Section Pass.

Variables our_masks new_masks : dict ObjectInfo (tensor bool).
Variables our_sums new_sums : dict ObjectInfo Z.
Variable isthing_status : option bool.

(** *** [merge_by_iou], lines 46-61: the matching loops *)

(** The inner [for our_obj in object_manager.obj_to_tmp_id] of one candidate:
    [Some (our_obj, union)] when the loop leaves through [break], [None] when
    it runs to its [else]. *)
Fixpoint iou_scan (m : dict ObjectInfo ObjectInfo) (new_obj : ObjectInfo)
  (ours : list ObjectInfo) : result (option (ObjectInfo * Z)) :=
  match ours with
  | [] => Ok None
  | our_obj :: rest =>
      if negb (isthing_eqb (isthing our_obj) isthing_status)
         || dict_mem obj_eqb m our_obj
      then iou_scan m new_obj rest
      else
        m1 <- dict_lookup obj_eqb new_masks new_obj ;;
        m2 <- dict_lookup obj_eqb our_masks our_obj ;;
        s1 <- dict_lookup obj_eqb new_sums new_obj ;;
        s2 <- dict_lookup obj_eqb our_sums our_obj ;;
        match _get_iou m1 m2 s1 s2 with
        | Overlap iou _ union =>
            if tgt iou (1 # 2) then Ok (Some (our_obj, union))
            else iou_scan m new_obj rest
        | NoOverlap => iou_scan m new_obj rest
        end
  end.

(** The body of [for new_obj in new_segments_info]. *)
Definition iou_match_step (ours : list ObjectInfo) (st : matching)
  (new_obj : ObjectInfo) : result matching :=
  if negb (isthing_eqb (isthing new_obj) isthing_status) then Ok st
  else
    r <- iou_scan (our_to_new_matching st) new_obj ours ;;
    match r with
    | Some (our_obj, union) =>
        Ok (mkMatching
              (dict_set obj_eqb (our_to_new_matching st) our_obj new_obj)
              (dict_set key_eqb (matched_area st) (our_obj, false) union)
              (new_objects st))
    | None =>
        s <- dict_lookup obj_eqb new_sums new_obj ;;
        Ok (mkMatching
              (our_to_new_matching st)
              (dict_set key_eqb (matched_area st) (new_obj, true) s)
              (new_objects st ++ [new_obj]))
    end.

(** *** [merge_by_engulf], lines 104-125: the matching loops *)

Variable engulf_threshold : Q.

(** How the inner loop of one candidate ends: a match by IoU, an engulfed
    candidate ([add_this_obj = False] without a match), or no hit. *)
Inductive engulf_outcome : Type :=
| EMatched (our_obj : ObjectInfo) (union : Z)
| EEngulfed
| ENoHit.

Fixpoint engulf_scan (new_obj : ObjectInfo) (ours : list ObjectInfo)
  : result engulf_outcome :=
  match ours with
  | [] => Ok ENoHit
  | our_obj :: rest =>
      if negb (isthing_eqb (isthing our_obj) isthing_status)
      then engulf_scan new_obj rest
      else
        m1 <- dict_lookup obj_eqb new_masks new_obj ;;
        m2 <- dict_lookup obj_eqb our_masks our_obj ;;
        s1 <- dict_lookup obj_eqb new_sums new_obj ;;
        s2 <- dict_lookup obj_eqb our_sums our_obj ;;
        match _get_iou m1 m2 s1 s2 with
        | Overlap iou intersection union =>
            if tgt iou (1 # 2) then Ok (EMatched our_obj union)
            else if tgt iou 0 then
              s <- dict_lookup obj_eqb new_sums new_obj ;;
              if tgt (tdiv intersection s) engulf_threshold then Ok EEngulfed
              else engulf_scan new_obj rest
            else engulf_scan new_obj rest
        | NoOverlap => engulf_scan new_obj rest
        end
  end.

Definition engulf_match_step (ours : list ObjectInfo) (st : matching)
  (new_obj : ObjectInfo) : result matching :=
  if negb (isthing_eqb (isthing new_obj) isthing_status) then Ok st
  else
    r <- engulf_scan new_obj ours ;;
    match r with
    | EMatched our_obj union =>
        Ok (mkMatching
              (dict_set obj_eqb (our_to_new_matching st) our_obj new_obj)
              (dict_set key_eqb (matched_area st) (our_obj, false) union)
              (new_objects st))
    | EEngulfed => Ok st
    | ENoHit =>
        s <- dict_lookup obj_eqb new_sums new_obj ;;
        Ok (mkMatching
              (our_to_new_matching st)
              (dict_set key_eqb (matched_area st) (new_obj, true) s)
              (new_objects st ++ [new_obj]))
    end.

(** *** Lines 63-67 and 127-131: the unmatched objects of the registry *)

Definition carry_step (st : matching) (our_obj : ObjectInfo) : result matching :=
  if negb (isthing_eqb (isthing our_obj) isthing_status)
     || dict_mem obj_eqb (our_to_new_matching st) our_obj
  then Ok st
  else
    s <- dict_lookup obj_eqb our_sums our_obj ;;
    Ok (mkMatching
          (our_to_new_matching st)
          (dict_set key_eqb (matched_area st) (our_obj, false) s)
          (new_objects st)).

(** *** Lines 69-88 and 133-152: rendering by reversed order of areas *)

(** [sorted(..., key=lambda x: x[1], reverse=True)] is a stable sort: entries
    of equal area keep the order of the dictionary. *)
Fixpoint insert_by_area (x : area_key * Z) (l : list (area_key * Z))
  : list (area_key * Z) :=
  match l with
  | [] => [x]
  | y :: rest =>
      if snd x <? snd y then y :: insert_by_area x rest else x :: y :: rest
  end.

Definition sorted_by_area (d : dict area_key Z) : list (area_key * Z) :=
  fold_right insert_by_area [] d.

(** A list of entries in descending order of area. *)
Inductive descending : list (area_key * Z) -> Prop :=
| descending_nil : descending []
| descending_cons x l :
    (forall y, In y l -> snd y <= snd x) -> descending l -> descending (x :: l).

Definition render_step (m : dict ObjectInfo ObjectInfo)
  (s : ObjectManager * tensor Z) (entry : area_key * Z)
  : result (ObjectManager * tensor Z) :=
  let '(object_manager, merged_mask) := s in
  let '((obj, is_new), _) := entry in
  if is_new then
    let '(object_manager, (_, corresponding_obj_ids)) :=
      add_new_objects object_manager obj in
    i <- index0 corresponding_obj_ids ;;
    mask <- dict_lookup obj_eqb new_masks obj ;;
    Ok (object_manager, tset merged_mask mask i)
  else
    match dict_get obj_eqb m obj with
    | Some new_obj =>
        our <- dict_lookup obj_eqb our_masks obj ;;
        new <- dict_lookup obj_eqb new_masks new_obj ;;
        let merged_mask := tset (tset merged_mask our (id obj)) new (id obj) in
        let object_manager :=
          update_object object_manager (id obj) (fun o => merge o new_obj) in
        _ <- find_object_by_id object_manager (id obj) ;;
        Ok (update_object object_manager (id obj) unpoke, merged_mask)
    | None =>
        our <- dict_lookup obj_eqb our_masks obj ;;
        _ <- find_object_by_id object_manager (id obj) ;;
        Ok (update_object object_manager (id obj) poke,
            tset merged_mask our (id obj))
    end.

Definition render (st : matching) (object_manager : ObjectManager)
  (merged_mask : tensor Z) : result (ObjectManager * tensor Z) :=
  for_each (render_step (our_to_new_matching st))
           (sorted_by_area (matched_area st))
           (object_manager, merged_mask).

(** *** What an entry of the render list writes *)

Definition mask_at (masks : dict ObjectInfo (tensor bool)) (obj : ObjectInfo)
  (p : pixel) : bool :=
  match dict_get obj_eqb masks obj with
  | Some mask => mask p
  | None => false
  end.

(** The entry writes pixel [p]: a new object writes the mask of its
    candidate, a matched object its own mask and the mask of its candidate,
    a carried-over object its own mask. *)
Definition claims (m : dict ObjectInfo ObjectInfo) (entry : area_key * Z)
  (p : pixel) : bool :=
  let '((obj, is_new), _) := entry in
  if is_new then mask_at new_masks obj p
  else
    match dict_get obj_eqb m obj with
    | Some new_obj => mask_at our_masks obj p || mask_at new_masks new_obj p
    | None => mask_at our_masks obj p
    end.

(** The label the entry writes when the registry is [om]: the identity
    allocated to a new object, the identity of an existing one. *)
Definition label_of (om : ObjectManager) (entry : area_key * Z) : Z :=
  let '((obj, is_new), _) := entry in
  if is_new then fresh_id (all_historical_object_ids om) else id obj.

(** *** [merge_by_iou] and [merge_by_engulf] *)

(** Lines 42-67: the matching of the IoU mode, with the carried-over
    objects. *)
Definition iou_matching (ours new_segments_info : list ObjectInfo)
  : result matching :=
  st <- for_each (iou_match_step ours) new_segments_info empty_matching ;;
  for_each carry_step ours st.

(** Lines 100-131: the matching of the engulf mode, with the carried-over
    objects. *)
Definition engulf_matching (ours new_segments_info : list ObjectInfo)
  : result matching :=
  st <- for_each (engulf_match_step ours) new_segments_info empty_matching ;;
  for_each carry_step ours st.

Definition merge_by_iou (merged_mask : tensor Z) (object_manager : ObjectManager)
  (new_segments_info : list ObjectInfo) : result (ObjectManager * tensor Z) :=
  st <- iou_matching (dict_keys (obj_to_tmp_id object_manager))
                     new_segments_info ;;
  render st object_manager merged_mask.

Definition merge_by_engulf (merged_mask : tensor Z)
  (object_manager : ObjectManager) (new_segments_info : list ObjectInfo)
  : result (ObjectManager * tensor Z) :=
  st <- engulf_matching (dict_keys (obj_to_tmp_id object_manager))
                        new_segments_info ;;
  render st object_manager merged_mask.

(** *** The matching rule of the IoU mode, in the words of the design *)

(** The IoU triple of a candidate and an object whose masks and pixel sums
    are all cached. *)
Definition pair_iou (new_obj our_obj : ObjectInfo) : option iou_result :=
  match dict_get obj_eqb new_masks new_obj, dict_get obj_eqb our_masks our_obj,
        dict_get obj_eqb new_sums new_obj, dict_get obj_eqb our_sums our_obj with
  | Some m1, Some m2, Some s1, Some s2 => Some (_get_iou m1 m2 s1 s2)
  | _, _, _, _ => None
  end.

(** The IoU of the candidate with the object exceeds 0.5. *)
Definition iou_exceeds_half (new_obj our_obj : ObjectInfo) : bool :=
  match pair_iou new_obj our_obj with
  | Some (Overlap iou _ _) => tgt iou (1 # 2)
  | _ => false
  end.

Definition union_area (new_obj our_obj : ObjectInfo) : Z :=
  match pair_iou new_obj our_obj with
  | Some (Overlap _ _ union) => union
  | _ => 0
  end.

(** An existing object qualifies for a candidate: same category type, not
    yet matched, IoU above 0.5. *)
Definition qualifies (m : dict ObjectInfo ObjectInfo)
  (new_obj our_obj : ObjectInfo) : bool :=
  isthing_eqb (isthing our_obj) isthing_status
  && negb (dict_mem obj_eqb m our_obj)
  && iou_exceeds_half new_obj our_obj.

(** The first qualifying object in registry iteration order. *)
Definition first_qualifying (m : dict ObjectInfo ObjectInfo)
  (new_obj : ObjectInfo) (ours : list ObjectInfo) : option ObjectInfo :=
  find (qualifies m new_obj) ours.

(** The masks and sums of a candidate, and of every object of a list, are
    cached. *)
Definition cached_new (new_obj : ObjectInfo) : Prop :=
  dict_mem obj_eqb new_masks new_obj = true
  /\ dict_mem obj_eqb new_sums new_obj = true.

Definition cached_ours (ours : list ObjectInfo) : Prop :=
  forall our_obj, In our_obj ours ->
    dict_mem obj_eqb our_masks our_obj = true
    /\ dict_mem obj_eqb our_sums our_obj = true.

(** *** The discard rule of the engulf mode, in the words of the design *)

(** The fraction of the candidate's own area that is covered by the
    intersection with the object exceeds the threshold. *)
Definition covered_above (new_obj our_obj : ObjectInfo) : bool :=
  match dict_get obj_eqb new_masks new_obj, dict_get obj_eqb our_masks our_obj,
        dict_get obj_eqb new_sums new_obj with
  | Some m1, Some m2, Some s1 =>
      tgt (tdiv (tsum (tmul m1 m2)) s1) engulf_threshold
  | _, _, _ => false
  end.

(** The cached sum of an object is the pixel count of its cached mask. *)
Definition sum_is_count (masks : dict ObjectInfo (tensor bool))
  (sums : dict ObjectInfo Z) (obj : ObjectInfo) : Prop :=
  forall m s, dict_get obj_eqb masks obj = Some m ->
              dict_get obj_eqb sums obj = Some s -> s = tsum m.

(** The scan of the candidate, in engulf mode, ends in a match with the
    object [our_obj]. *)
Definition engulf_matches (ours : list ObjectInfo)
  (new_obj our_obj : ObjectInfo) : bool :=
  isthing_eqb (isthing new_obj) isthing_status
  && match engulf_scan new_obj ours with
     | Ok (EMatched o _) => id o =? id our_obj
     | _ => false
     end.

(** Every new-object entry of a matching comes from a candidate whose scan
    found no hit. *)
Definition new_entries_unhit (ours cands : list ObjectInfo) (st : matching)
  : Prop :=
  (forall c area, In ((c, true), area) (matched_area st) ->
     In c cands /\ engulf_scan c ours = Ok ENoHit)
  /\ (forall c, In c (new_objects st) ->
        In c cands /\ engulf_scan c ours = Ok ENoHit).

(** The keys of [matched_area] are pairwise distinct and every matched
    object has an entry in it. *)
Definition well_keyed (st : matching) : Prop :=
  NoDup (map key_proj (dict_keys (matched_area st)))
  /\ forall o, dict_mem obj_eqb (our_to_new_matching st) o = true ->
               dict_mem key_eqb (matched_area st) (o, false) = true.

(** Everything a pass records belongs to the category type of the pass. *)
Definition in_category (ours cands : list ObjectInfo) (st : matching) : Prop :=
  (forall our_obj new_obj, In (our_obj, new_obj) (our_to_new_matching st) ->
     (In our_obj ours /\ isthing our_obj = isthing_status)
     /\ (In new_obj cands /\ isthing new_obj = isthing_status))
  /\ (forall obj is_new area, In ((obj, is_new), area) (matched_area st) ->
        isthing obj = isthing_status
        /\ if is_new : bool then In obj cands else In obj ours).

End Pass.

(** A state of the passes that only carries over the objects of [om0]: the
    identities registered, the temporary indices and the identities ever
    created are those of [om0], and every label of the mask is the
    background or a registered identity. *)
Definition carries (om0 : ObjectManager) (s : ObjectManager * tensor Z) : Prop :=
  registered_ids (obj_to_tmp_id (fst s)) = registered_ids (obj_to_tmp_id om0)
  /\ map snd (obj_to_tmp_id (fst s)) = map snd (obj_to_tmp_id om0)
  /\ all_historical_object_ids (fst s) = all_historical_object_ids om0
  /\ forall p, snd s p = 0 \/ In (snd s p) (registered_ids (obj_to_tmp_id om0)).

(** A state of the passes over any frame: the registered objects whose
    category type is still to be processed are objects of the registry
    [om0] of before the call, and every label of the mask is the background
    or a registered identity. *)
Definition passes_inv (om0 : ObjectManager) (remaining : list (option bool))
  (s : ObjectManager * tensor Z) : Prop :=
  (forall o, In o (dict_keys (obj_to_tmp_id (fst s))) ->
             In (isthing o) remaining ->
             In (id o) (registered_ids (obj_to_tmp_id om0)))
  /\ forall p, snd s p = 0
               \/ In (snd s p) (registered_ids (obj_to_tmp_id (fst s))).

(** The objects of the registry that the pass of a category type looks at
    are objects of the registry [om0] of before the call. *)
Definition pass_cached (om0 : ObjectManager) (status : option bool)
  (ours : list ObjectInfo) : Prop :=
  forall o, In o ours -> isthing o = status ->
    In (id o) (registered_ids (obj_to_tmp_id om0)).

(** The state of the rendering of a pass: the objects [ours] that were
    registered when the pass began still are, and the state is one of the
    passes that remain. *)
Definition render_inv (om0 : ObjectManager) (remaining : list (option bool))
  (ours : list ObjectInfo) (s : ObjectManager * tensor Z) : Prop :=
  (forall o, In o ours -> In (id o) (registered_ids (obj_to_tmp_id (fst s))))
  /\ passes_inv om0 remaining s.

(** *** Relabelling to temporary indices *)

(** The labels of [l] in the order of their first occurrence. *)
Fixpoint first_occurrences (seen l : list Z) : list Z :=
  match l with
  | [] => []
  | x :: rest =>
      if existsb (Z.eqb x) seen then first_occurrences seen rest
      else x :: first_occurrences (x :: seen) rest
  end.

(** The identities present in a mask, in encounter order; 0 is background. *)
Definition present_ids (mask : tensor Z) : list Z :=
  first_occurrences [0] (map mask frame).

(** The registry entries of the identities [ids], numbered from [k]. *)
Fixpoint rebuild (old : dict ObjectInfo Z) (ids : list Z) (k : Z)
  : result (dict ObjectInfo Z) :=
  match ids with
  | [] => Ok []
  | i :: rest =>
      match find_entry old i with
      | Some o => d <- rebuild old rest (k + 1) ;; Ok ((o, k) :: d)
      | None => Raise KeyError
      end
  end.

Fixpoint tmp_of_id (d : dict ObjectInfo Z) (i : Z) : Z :=
  match d with
  | [] => 0
  | (o, t) :: rest => if id o =? i then t else tmp_of_id rest i
  end.

(** The entries of a registry are numbered consecutively from [k]. *)
Fixpoint numbered_from (k : Z) (d : dict ObjectInfo Z) : Prop :=
  match d with
  | [] => True
  | (_, t) :: rest => t = k /\ numbered_from (k + 1) rest
  end.

(** The registry is the one a relabelling leaves for the mask: its
    temporary indices are, in registry order, the labels present in the
    mask in encounter order, and they are numbered from 1. *)
Definition relabelled (om : ObjectManager) (mask : tensor Z) : Prop :=
  map snd (obj_to_tmp_id om) = present_ids mask
  /\ numbered_from 1 (obj_to_tmp_id om).

(** The identity registered under a temporary index; 0 when there is
    none. *)
Fixpoint id_of_tmp (d : dict ObjectInfo Z) (t : Z) : Z :=
  match d with
  | [] => 0
  | (o, t') :: rest => if t' =? t then id o else id_of_tmp rest t
  end.

(** Modelled from the spec: [make_one_hot] (not under src/) relabels the
    accumulated identity-space mask into dense temporary-index space: the
    mapping from objects to temporary indices is rebuilt from the objects
    actually present in the mask, in encounter order, numbered from 1, and
    every pixel takes the temporary index of the identity it carries. *)
Definition make_one_hot (om : ObjectManager) (mask : tensor Z)
  : result (ObjectManager * tensor Z) :=
  d <- rebuild (obj_to_tmp_id om) (present_ids mask) 1 ;;
  Ok (mkObjectManager d (all_historical_object_ids om),
      fun p => tmp_of_id d (mask p)).

(** *** [match_and_merge] *)

(** [str.lower] on the letters of the ASCII alphabet. *)
Definition lower_ascii (c : ascii) : ascii :=
  let n := nat_of_ascii c in
  if (Nat.leb 65 n && Nat.leb n 90)%bool then ascii_of_nat (n + 32) else c.

Fixpoint lower (s : string) : string :=
  match s with
  | EmptyString => EmptyString
  | String c rest => String (lower_ascii c) (lower rest)
  end.

Definition cap_warning : string :=
  "Number of objects exceeded maximum (--max_num_objects); discarding new objects".

(** [match_isthing = [None, False, True]] *)
Definition match_isthing : list (option bool) := [None; Some false; Some true].

(** The body of [for isthing_status in match_isthing]. *)
Definition merge_pass (mode : string)
  (our_masks new_masks : dict ObjectInfo (tensor bool))
  (our_sums new_sums : dict ObjectInfo Z)
  (new_segments_info : list ObjectInfo) (engulf_threshold : Q)
  (s : ObjectManager * tensor Z) (isthing_status : option bool)
  : result (ObjectManager * tensor Z) :=
  let '(object_manager, merged_mask) := s in
  if String.eqb mode "iou" then
    merge_by_iou our_masks new_masks our_sums new_sums isthing_status
                 merged_mask object_manager new_segments_info
  else if String.eqb mode "engulf" then
    merge_by_engulf our_masks new_masks our_sums new_sums isthing_status
                    engulf_threshold merged_mask object_manager
                    new_segments_info
  else Ok (object_manager, merged_mask).

(** [{obj: m.sum() for m in masks for obj, m in masks.items()}] *)
Definition mask_sums (masks : dict ObjectInfo (tensor bool)) : dict ObjectInfo Z :=
  dict_of_list obj_eqb
    (flat_map (fun _ => map (fun kv => (fst kv, tsum (snd kv))) masks) masks).

(** Lines 194-205: the three passes over the shared output mask. *)
Definition merge_passes (mode : string)
  (our_masks new_masks : dict ObjectInfo (tensor bool))
  (new_segments_info : list ObjectInfo) (engulf_threshold : Q)
  (object_manager : ObjectManager) (merged_mask : tensor Z)
  : result (ObjectManager * tensor Z) :=
  let our_sums := mask_sums our_masks in
  let new_sums := mask_sums new_masks in
  for_each (merge_pass mode our_masks new_masks our_sums new_sums
                       new_segments_info engulf_threshold)
           match_isthing (object_manager, merged_mask).

(** What [match_and_merge] returns: the mutated registry, the output mask and
    the warnings it emitted. *)
Record outcome : Type := mkOutcome {
  out_manager : ObjectManager;
  out_mask : tensor Z;
  out_warnings : list string
}.

(** Lines 176-180: the masks in one-hot format,
    [{obj: (our_mask == tmp) for obj, tmp in obj_to_tmp_id.items()}] and
    [{obj: (new_mask == obj.id) for obj in new_segments_info}]. *)
Definition one_hot_ours (our_mask : tensor Z) (object_manager : ObjectManager)
  : dict ObjectInfo (tensor bool) :=
  dict_of_list obj_eqb
    (map (fun kv => (fst kv, teq our_mask (snd kv)))
         (obj_to_tmp_id object_manager)).

Definition one_hot_news (new_mask : tensor Z) (new_segments_info : list ObjectInfo)
  : dict ObjectInfo (tensor bool) :=
  dict_of_list obj_eqb
    (map (fun obj => (obj, teq new_mask (id obj))) new_segments_info).

(** The record of a carried-over object, poked, with its temporary index. *)
Definition poke_entry (e : ObjectInfo * Z) : ObjectInfo * Z :=
  (poke (fst e), snd e).

(** A pass pokes the unmatched objects of its category type. *)
Definition poke_if (status : option bool) (e : ObjectInfo * Z) : ObjectInfo * Z :=
  if isthing_eqb (isthing (fst e)) status then poke_entry e else e.

(** The passes run so far poke the objects of their category types. *)
Definition poke_among (done : list (option bool)) (e : ObjectInfo * Z)
  : ObjectInfo * Z :=
  if existsb (isthing_eqb (isthing (fst e))) done then poke_entry e else e.

Definition match_and_merge (our_mask new_mask : tensor Z)
  (object_manager : ObjectManager) (new_segments_info : list ObjectInfo)
  (mode : string) (max_num_objects : Z) (engulf_threshold : Q)
  : result outcome :=
  let mode := lower mode in
  let our_masks := one_hot_ours our_mask object_manager in
  let new_masks := one_hot_news new_mask new_segments_info in
  let too_many :=
    (0 <? max_num_objects)
    && (max_num_objects <?
        Z.of_nat (List.length (all_historical_object_ids object_manager))
        + Z.of_nat (List.length new_segments_info)) in
  let warnings := if too_many then [cap_warning] else [] in
  let new_masks := if too_many then [] else new_masks in
  let new_segments_info := if too_many then [] else new_segments_info in
  s <- merge_passes mode our_masks new_masks new_segments_info
                    engulf_threshold object_manager (zeros_like our_mask) ;;
  s <- make_one_hot (fst s) (snd s) ;;
  Ok (mkOutcome (fst s) (snd s) warnings).

(** *** Equal tensors, equal results

    A tensor is its values at the pixels of the frame. *)

Definition agree {A : Type} (a b : tensor A) : Prop :=
  forall p, In p frame -> a p = b p.

Definition masks_agree (d d' : dict ObjectInfo (tensor bool)) : Prop :=
  Forall2 (fun x y => fst x = fst y /\ agree (snd x) (snd y)) d d'.

Definition same_result {A : Type} (R : A -> A -> Prop) (r r' : result A) : Prop :=
  match r, r' with
  | Ok a, Ok a' => R a a'
  | Raise e, Raise e' => e = e'
  | _, _ => False
  end.

Definition same_state (s s' : ObjectManager * tensor Z) : Prop :=
  fst s = fst s' /\ agree (snd s) (snd s').

Definition same_outcome (o o' : outcome) : Prop :=
  out_manager o = out_manager o'
  /\ agree (out_mask o) (out_mask o')
  /\ out_warnings o = out_warnings o'.



(** *** Example frames

    Concrete registries, candidates and masks over frames whose pixels are
    numbered, on which the properties below are instantiated. *)

Definition keep_latest (_ s : Q) : Q := s.

Definition numbered_frame (n : nat) : list nat := seq 0 n.

(** Two candidates of areas 200 and 20 that share the ten pixels 190..199. *)
Definition cand_big : ObjectInfo := mkObjectInfo 7 None (9 # 10) 0.
Definition cand_small : ObjectInfo := mkObjectInfo 9 None (8 # 10) 0.
Definition mask_big : nat -> bool := fun p => Nat.ltb p 200.
Definition mask_small : nat -> bool := fun p => Nat.leb 190 p.
Definition overlap_masks : dict ObjectInfo (nat -> bool) :=
  [(cand_big, mask_big); (cand_small, mask_small)].
Definition overlap_sums : dict ObjectInfo Z := [(cand_big, 200); (cand_small, 20)].
Definition overlap_matching : matching :=
  mkMatching [] [((cand_big, true), 200); ((cand_small, true), 20)]
             [cand_big; cand_small].
Definition empty_manager : ObjectManager := mkObjectManager [] [].

(** A registry of two Thing objects with temporary indices 1 and 2, and a
    propagated mask of two pixels, both of the second object. *)
Definition thing_a : ObjectInfo := mkObjectInfo 10 (Some true) (9 # 10) 0.
Definition thing_b : ObjectInfo := mkObjectInfo 20 (Some true) (7 # 10) 3.
Definition two_things : ObjectManager :=
  mkObjectManager [(thing_a, 1); (thing_b, 2)] [10; 20].
Definition only_b : nat -> Z := fun _ => 2.
Definition background : nat -> Z := fun _ => 0.

(** The mask of two pixels that a relabelling leaves for this registry: the
    first pixel of the first object, the second of the second. *)
Definition one_each : nat -> Z := fun p => Z.of_nat p + 1.

(** A frame of ten pixels: an object that covers it, a candidate on the
    pixels 0..8, a candidate on the whole frame and a candidate on the pixels
    0..2. *)
Definition whole : ObjectInfo := mkObjectInfo 5 (Some true) (9 # 10) 2.
Definition whole_manager : ObjectManager := mkObjectManager [(whole, 1)] [5].
Definition cand_nine : ObjectInfo := mkObjectInfo 1 (Some true) (6 # 10) 0.
Definition cand_ten : ObjectInfo := mkObjectInfo 2 (Some true) (8 # 10) 0.
Definition cand_three : ObjectInfo := mkObjectInfo 3 (Some true) (5 # 10) 0.
Definition ten_our_masks : dict ObjectInfo (nat -> bool) := [(whole, fun _ => true)].
Definition ten_new_masks : dict ObjectInfo (nat -> bool) :=
  [(cand_nine, fun p => Nat.ltb p 9); (cand_ten, fun _ => true);
   (cand_three, fun p => Nat.ltb p 3)].
Definition ten_our_sums : dict ObjectInfo Z := [(whole, 10)].
Definition ten_new_sums : dict ObjectInfo Z :=
  [(cand_nine, 9); (cand_ten, 10); (cand_three, 3)].
Definition six : ObjectInfo := mkObjectInfo 6 (Some true) (9 # 10) 0.
Definition six_whole_masks : dict ObjectInfo (nat -> bool) :=
  [(six, fun p => Nat.ltb p 6); (whole, fun _ => true)].
Definition six_whole_sums : dict ObjectInfo Z := [(six, 6); (whole, 10)].

(** A mask that differs from [only_b] outside a frame of two pixels only. *)
Definition only_b_inside : nat -> Z := fun p => if Nat.ltb p 2 then 2 else 5.

(** *** Further notions used to state properties of the merging functions *)

(** The pixels of either mask. *)
Definition tor (m1 m2 : tensor bool) : tensor bool :=
  fun p => m1 p || m2 p.

(** The number of new-object entries of [matched_area]. *)
Definition count_new (d : dict area_key Z) : nat :=
  List.length (filter (fun e => snd (fst e)) d).

(** The number of candidates of a category type. *)
Definition count_category (status : option bool) (cands : list ObjectInfo) : nat :=
  List.length (filter (fun c => isthing_eqb (isthing c) status) cands).

(** A candidate that the IoU loop has handled: paired with an object, or a
    new-object entry. *)
Definition handled (c : ObjectInfo) (st : matching) : Prop :=
  (exists o, dict_get obj_eqb (our_to_new_matching st) o = Some c)
  \/ (In c (new_objects st)
      /\ dict_mem key_eqb (matched_area st) (c, true) = true).

(** *** Further example frames *)

(** A new mask whose first pixel carries the identity 7. *)
Definition first_is_seven : nat -> Z := fun p => if Nat.eqb p 0 then 7 else 0.

(** A candidate without pixels. *)
Definition cand_none : ObjectInfo := mkObjectInfo 4 (Some true) (5 # 10) 0.
Definition none_masks : dict ObjectInfo (nat -> bool) := [(cand_none, fun _ => false)].
Definition none_sums : dict ObjectInfo Z := [(cand_none, 0)].

(** The matching of the ten-pixel frame once the object that covers it is
    matched to the candidate on the whole frame. *)
Definition whole_matched : matching :=
  mkMatching [(whole, cand_ten)] [((whole, false), 10)] [].

(** ** Automatic segmentation (deva/ext/automatic_sam.py)

    [auto_segment] turns the masks of the automatic mask generator into an
    index mask and a list of segments.  The calls into the libraries
    ([auto_sam.generate], [F.interpolate]) are not part of the embedding,
    which starts from their results: the masks after the interpolation, one
    tensor of floating-point values per mask over the pixels of the resized
    frame, and the predicted IoUs.  Floating-point values are embedded as
    rationals and compared exactly; the floating-point operations that round
    are parameters. *)

Section AutoSegment.

(** [pred_masks.flatten(-2).sum(-1)] of one mask, the product of two floats,
    the true division of two integer scalars, the conversion of a Python
    float to the type of the tensor it is compared with, and the float
    nearest 0.1. *)
Variable fsum : tensor Q -> Q.
Variable fmul : Q -> Q -> Q.
Variable fdiv : Z -> Z -> Q.
Variable fround : Q -> Q.
Variable tenth : Q.

(** [torch.argmax] over a list of values: the index of the first maximal
    value. *)
Fixpoint argmax_from (best_i : Z) (best : Q) (i : Z) (vals : list Q) : Z :=
  match vals with
  | [] => best_i
  | v :: rest =>
      if Qltb best v then argmax_from i v (i + 1) rest
      else argmax_from best_i best (i + 1) rest
  end.

Definition argmax (vals : list Q) : Z :=
  match vals with
  | [] => 0
  | v :: rest => argmax_from 0 v 1 rest
  end.

(** [torch.argmax(torch.cat([background, channels], dim=0), dim=0)] *)
Definition hard_argmax (background : Q) (channels : list (tensor Q)) : tensor Z :=
  fun p => argmax (background :: map (fun m => m p) channels).

Fixpoint enumerate {A : Type} (k : nat) (xs : list A) : list (nat * A) :=
  match xs with
  | [] => []
  | x :: rest => (k, x) :: enumerate (S k) rest
  end.

(** [xs[k]] on a tensor of one dimension. *)
Definition index_at {A : Type} (xs : list A) (k : nat) : result A :=
  match nth_error xs k with
  | Some x => Ok x
  | None => Raise IndexError
  end.

(** [ObjectInfo(id=curr_id, score=...)].  Modelled from the spec: the
    constructor (not under src/) leaves the category type unknown and the
    staleness at zero. *)
Definition new_segment (curr_id : Z) (score : Q) : ObjectInfo :=
  mkObjectInfo curr_id None score 0.

(** Lines 86-96: the body of [for k in range(scores.shape[0])]; the state is
    [(output_mask, segments_info, curr_id)]. *)
Definition suppress_step (config : dict string Q) (hard_mask : tensor Z)
  (predicted_iou : list Q) (s : tensor Z * list ObjectInfo * Z)
  (km : nat * tensor Q) : result (tensor Z * list ObjectInfo * Z) :=
  let '(output_mask, segments_info, curr_id) := s in
  let '(k, pred) := km in
  let mask_area := tsum (teq hard_mask (Z.of_nat k + 1)) in
  let original_area := tsum (fun p => Qltb (1 # 2) (pred p)) in
  let mask : tensor bool :=
    fun p => teq hard_mask (Z.of_nat k + 1) p && Qle_bool (1 # 2) (pred p) in
  if (0 <? mask_area) && (0 <? original_area) && (0 <? tsum mask) then
    threshold <- dict_lookup String.eqb config "SAM_OVERLAP_THRESHOLD"%string ;;
    if Qltb (fdiv mask_area original_area) (fround threshold) then Ok s
    else
      iou <- index_at predicted_iou k ;;
      Ok (tset output_mask mask curr_id,
          segments_info ++ [new_segment curr_id iou], curr_id + 1)
  else Ok s.

(** Lines 102-106: the body of [for k in range(pred_masks.shape[0])]; the
    state is [(segments_info, curr_id)]. *)
Definition plain_step (output_mask : tensor Z) (predicted_iou : list Q)
  (s : list ObjectInfo * Z) (k : nat) : result (list ObjectInfo * Z) :=
  let '(segments_info, curr_id) := s in
  if 0 <? tsum (teq output_mask (Z.of_nat k + 1)) then
    iou <- index_at predicted_iou k ;;
    Ok (segments_info ++ [new_segment curr_id iou], curr_id + 1)
  else Ok s.

(** Lines 74-108 of [auto_segment]. *)
Definition auto_segment (config : dict string Q) (pred_masks : list (tensor Q))
  (predicted_iou : list Q) (suppress_small_mask : bool)
  : result (tensor Z * list ObjectInfo) :=
  if suppress_small_mask then
    let scored_masks :=
      map (fun m : tensor Q => fun p => fmul (m p) (fsum m)) pred_masks in
    let hard_mask := hard_argmax tenth scored_masks in
    s <- for_each (suppress_step config hard_mask predicted_iou)
                  (enumerate 0 pred_masks) (fun _ => 0, [], 1) ;;
    Ok (fst (fst s), snd (fst s))
  else
    let output_mask := hard_argmax (1 # 2) pred_masks in
    s <- for_each (plain_step output_mask predicted_iou)
                  (seq 0 (S (List.length pred_masks))) ([], 1) ;;
    Ok (output_mask, fst s).

End AutoSegment.

(** The identities 1, 2, ..., n. *)
Definition ids_from_one (n : nat) : list Z :=
  map (fun j => Z.of_nat j + 1) (seq 0 n).

(** The channels that own a pixel of an index mask, in increasing order. *)
Definition owning_channels (output_mask : tensor Z) (n : nat) : list nat :=
  filter (fun k => 0 <? tsum (teq output_mask (Z.of_nat k + 1))) (seq 0 n).

(** The segments of the channels [ks], numbered from [curr_id]. *)
Fixpoint number_segments (curr_id : Z) (ks : list nat) (predicted_iou : list Q)
  : list ObjectInfo :=
  match ks with
  | [] => []
  | k :: rest =>
      new_segment curr_id (nth k predicted_iou 0%Q)
      :: number_segments (curr_id + 1) rest predicted_iou
  end.

(** A state of the loop that suppresses small masks, before the mask of
    index [k]: the identities handed out are 1, 2, ..., every label of the
    output mask is one of them and lies on a pixel that a mask before [k]
    has won, and every segment owns a pixel. *)
Definition suppress_inv (hard_mask : tensor Z) (k : nat)
  (s : tensor Z * list ObjectInfo * Z) : Prop :=
  let '(output_mask, segments_info, curr_id) := s in
  curr_id = 1 + Z.of_nat (List.length segments_info)
  /\ map id segments_info = ids_from_one (List.length segments_info)
  /\ (forall p, output_mask p = 0
                \/ (1 <= output_mask p < curr_id
                    /\ 1 <= hard_mask p <= Z.of_nat k))
  /\ (forall seg, In seg segments_info ->
        exists p, In p frame /\ output_mask p = id seg).

(** *** Example masks of the mask generator

    Two pixels and two masks; floats are rationals and round nowhere. *)
Definition exact_fsum (m : nat -> Q) : Q := (m 0%nat + m 1%nat)%Q.
Definition exact_fdiv (a b : Z) : Q := (inject_Z a / inject_Z b)%Q.
Definition exact_fround (q : Q) : Q := q.
Definition sam_config : dict string Q := [("SAM_OVERLAP_THRESHOLD"%string, 1 # 2)].
Definition sam_ious : list Q := [8 # 10; 7 # 10].

(** One mask on each pixel. *)
Definition sam_masks : list (nat -> Q) :=
  [fun p => if Nat.eqb p 0 then 1 else 0;
   fun p => if Nat.eqb p 1 then 9 # 10 else 0]%Q.

(** The first mask is empty and the second one covers the frame. *)
Definition sam_masks_lost : list (nat -> Q) := [fun _ => 0; fun _ => 1]%Q.

(** * Properties *)

(** ** Loops and dictionaries *)

Lemma bind_ok_inv (A B : Type) (m : result A) (k : A -> result B) (b : B) :
  bind m k = Ok b -> exists a, m = Ok a /\ k a = Ok b.
Proof.
  destruct m as [a|e]; simpl; intro H.
  - exists a. split; [reflexivity | exact H].
  - discriminate H.
Qed.

Lemma for_each_app (S X : Type) (body : S -> X -> result S) (xs ys : list X) (s : S) :
  for_each body (xs ++ ys) s = (s' <- for_each body xs s ;; for_each body ys s').
Proof.
  revert s. induction xs as [|x xs IH]; intro s; simpl.
  - reflexivity.
  - destruct (body s x) as [s'|e]; simpl; [apply IH | reflexivity].
Qed.

(** An invariant of the loop body is an invariant of the loop. *)
Lemma for_each_invariant (S X : Type) (body : S -> X -> result S) (P : S -> Prop) :
  (forall s x s', P s -> body s x = Ok s' -> P s') ->
  forall xs s s', P s -> for_each body xs s = Ok s' -> P s'.
Proof.
  intros Hbody xs. induction xs as [|x xs IH]; intros s s' Hs H; simpl in H.
  - inversion H. subst. exact Hs.
  - apply bind_ok_inv in H. destruct H as [s1 [H1 H2]].
    eapply IH; [eapply Hbody; eassumption | exact H2].
Qed.

Lemma for_each_invariant_in (S X : Type) (body : S -> X -> result S) (P : S -> Prop)
  (xs : list X) :
  (forall s x s', In x xs -> P s -> body s x = Ok s' -> P s') ->
  forall s s', P s -> for_each body xs s = Ok s' -> P s'.
Proof.
  induction xs as [|x xs IH]; intros Hbody s s' Hs H; simpl in H.
  - inversion H. subst. exact Hs.
  - apply bind_ok_inv in H. destruct H as [s1 [H1 H2]].
    apply IH with (s := s1).
    + intros s0 y s0' Hy. apply Hbody. right. exact Hy.
    + eapply Hbody; [left; reflexivity | exact Hs | exact H1].
    + exact H2.
Qed.

Lemma for_each_ext_in (S X : Type) (body1 body2 : S -> X -> result S)
  (xs : list X) :
  (forall s x, In x xs -> body1 s x = body2 s x) ->
  forall s, for_each body1 xs s = for_each body2 xs s.
Proof.
  induction xs as [|x xs IH]; intros H s; simpl.
  - reflexivity.
  - rewrite (H s x (or_introl eq_refl)).
    destruct (body2 s x) as [s'|e]; simpl; [|reflexivity].
    apply IH. intros s0 y Hy. apply H. right. exact Hy.
Qed.

Lemma find_over_app (A : Type) (f : A -> bool) (l1 l2 : list A) :
  find f (l1 ++ l2)
  = match find f l1 with Some x => Some x | None => find f l2 end.
Proof.
  induction l1 as [|a l1 IH]; simpl.
  - reflexivity.
  - destruct (f a); [reflexivity | exact IH].
Qed.

Lemma find_exists (A : Type) (f : A -> bool) (l : list A) :
  (exists x, In x l /\ f x = true) -> exists y, find f l = Some y.
Proof.
  induction l as [|a l IH]; intros [x [Hin Hx]]; simpl.
  - contradiction.
  - destruct (f a) eqn:Ea.
    + exists a. reflexivity.
    + destruct Hin as [<-|Hin]; [congruence|].
      apply IH. exists x. auto.
Qed.

Lemma NoDup_map_eq (A B : Type) (f : A -> B) (l : list A) (x y : A) :
  NoDup (map f l) -> In x l -> In y l -> f x = f y -> x = y.
Proof.
  induction l as [|a l IH]; simpl; intros Hnd Hx Hy E.
  - contradiction.
  - inversion Hnd as [|b l' Hnotin Hnd']; subst.
    destruct Hx as [<-|Hx], Hy as [<-|Hy].
    + reflexivity.
    + exfalso. apply Hnotin. rewrite E. apply in_map. exact Hy.
    + exfalso. apply Hnotin. rewrite <- E. apply in_map. exact Hx.
    + apply IH; assumption.
Qed.

Lemma bind_ret (A : Type) (m : result A) : (a <- m ;; Ok a) = m.
Proof. destruct m; reflexivity. Qed.

Section DictFacts.

Variables K V P : Type.
Variable eqb : K -> K -> bool.
Variable proj : K -> P.
Hypothesis eqb_proj : forall a b, eqb a b = true <-> proj a = proj b.

Lemma eqb_refl_proj (a : K) : eqb a a = true.
Proof. apply eqb_proj. reflexivity. Qed.

Lemma eqb_congr_l (a b c : K) : eqb a b = true -> eqb a c = eqb b c.
Proof.
  intro Hab. apply eqb_proj in Hab.
  destruct (eqb b c) eqn:Hbc.
  - apply eqb_proj. apply eqb_proj in Hbc. congruence.
  - destruct (eqb a c) eqn:Hac; [|reflexivity].
    apply eqb_proj in Hac. rewrite <- Hbc. symmetry. apply eqb_proj. congruence.
Qed.

Lemma eqb_congr_r (a b c : K) : eqb a b = true -> eqb c a = eqb c b.
Proof.
  intro Hab. apply eqb_proj in Hab.
  destruct (eqb c b) eqn:Hcb.
  - apply eqb_proj. apply eqb_proj in Hcb. congruence.
  - destruct (eqb c a) eqn:Hca; [|reflexivity].
    apply eqb_proj in Hca. rewrite <- Hcb. symmetry. apply eqb_proj. congruence.
Qed.

Lemma dict_get_set_same (d : dict K V) (k k' : K) (v : V) :
  eqb k k' = true -> dict_get eqb (dict_set eqb d k v) k' = Some v.
Proof.
  intro Hk. induction d as [|[k0 v0] d IH]; simpl.
  - rewrite Hk. reflexivity.
  - destruct (eqb k0 k) eqn:H0; simpl.
    + rewrite (eqb_congr_r k0 Hk) in H0. rewrite H0. reflexivity.
    + rewrite (eqb_congr_r k0 Hk) in H0. rewrite H0. exact IH.
Qed.

Lemma dict_get_set_other (d : dict K V) (k k' : K) (v : V) :
  eqb k k' = false -> dict_get eqb (dict_set eqb d k v) k' = dict_get eqb d k'.
Proof.
  intro Hk. induction d as [|[k0 v0] d IH]; simpl.
  - rewrite Hk. reflexivity.
  - destruct (eqb k0 k) eqn:H0; simpl.
    + rewrite (eqb_congr_l k' H0), Hk. reflexivity.
    + destruct (eqb k0 k'); [reflexivity | exact IH].
Qed.

Lemma dict_get_congr (d : dict K V) (k k' : K) :
  eqb k k' = true -> dict_get eqb d k = dict_get eqb d k'.
Proof.
  intro Hk. induction d as [|[k0 v0] d IH]; simpl.
  - reflexivity.
  - rewrite (eqb_congr_r k0 Hk). destruct (eqb k0 k'); [reflexivity | exact IH].
Qed.

Lemma dict_mem_set (d : dict K V) (k k' : K) (v : V) :
  dict_mem eqb (dict_set eqb d k v) k' = eqb k k' || dict_mem eqb d k'.
Proof.
  unfold dict_mem. destruct (eqb k k') eqn:Hk.
  - rewrite dict_get_set_same by exact Hk. reflexivity.
  - rewrite dict_get_set_other by exact Hk. reflexivity.
Qed.

(** Every entry of [d[k] = v] is an entry of [d], or the one just set. *)
Lemma in_dict_set (d : dict K V) (k : K) (v : V) (k' : K) (v' : V) :
  In (k', v') (dict_set eqb d k v) ->
  In (k', v') d \/ (v' = v /\ (k' = k \/ In k' (dict_keys d))).
Proof.
  unfold dict_keys.
  induction d as [|[k0 v0] d IH]; simpl; intro H.
  - destruct H as [H|[]]. inversion H. subst. right. auto.
  - destruct (eqb k0 k) eqn:H0; simpl in H.
    + destruct H as [H|H].
      * inversion H. subst. right. auto.
      * left. right. exact H.
    + destruct H as [H|H].
      * left. left. exact H.
      * destruct (IH H) as [H1|[H1 [H2|H2]]]; auto.
Qed.

Lemma dict_keys_set (d : dict K V) (k : K) (v : V) :
  dict_keys (dict_set eqb d k v)
  = if dict_mem eqb d k then dict_keys d else dict_keys d ++ [k].
Proof.
  unfold dict_keys, dict_mem.
  induction d as [|[k0 v0] d IH]; simpl.
  - reflexivity.
  - destruct (eqb k0 k) eqn:H0; simpl.
    + reflexivity.
    + rewrite IH. destruct (dict_get eqb d k); reflexivity.
Qed.

Lemma dict_mem_in_keys (d : dict K V) (k : K) :
  dict_mem eqb d k = true <-> exists k', In k' (dict_keys d) /\ eqb k' k = true.
Proof.
  unfold dict_keys, dict_mem.
  induction d as [|[k0 v0] d IH]; simpl.
  - split; [discriminate | intros [k' [[] _]]].
  - destruct (eqb k0 k) eqn:H0.
    + split; [|reflexivity]. intros _. exists k0. auto.
    + rewrite IH. split.
      * intros [k' [Hin Hk]]. exists k'. auto.
      * intros [k' [[Heq|Hin] Hk]].
        -- subst. congruence.
        -- exists k'. auto.
Qed.

Lemma dict_get_in (d : dict K V) (k : K) (v : V) :
  dict_get eqb d k = Some v -> exists k', In (k', v) d /\ eqb k' k = true.
Proof.
  induction d as [|[k0 v0] d IH]; simpl; intro H.
  - discriminate H.
  - destruct (eqb k0 k) eqn:H0.
    + inversion H. subst. exists k0. auto.
    + destruct (IH H) as [k' [Hin Hk]]. exists k'. auto.
Qed.

Lemma in_dict_keys (d : dict K V) (k : K) :
  In k (dict_keys d) <-> exists v, In (k, v) d.
Proof.
  unfold dict_keys. rewrite in_map_iff. split.
  - intros [[k' v] [E H]]. simpl in E. subst. exists v. exact H.
  - intros [v H]. exists (k, v). auto.
Qed.

Lemma dict_set_nodup (d : dict K V) (k : K) (v : V) :
  NoDup (map proj (dict_keys d)) ->
  NoDup (map proj (dict_keys (dict_set eqb d k v))).
Proof.
  intro H. rewrite dict_keys_set.
  destruct (dict_mem eqb d k) eqn:Hmem; [exact H|].
  rewrite map_app. apply NoDup_app; [exact H | repeat constructor; intros [] |].
  intros a Ha [<-|[]]. apply in_map_iff in Ha. destruct Ha as [k' [E Hk']].
  assert (dict_mem eqb d k = true); [|congruence].
  apply dict_mem_in_keys. exists k'. split; [exact Hk'|].
  apply eqb_proj. exact E.
Qed.

End DictFacts.

Lemma obj_eqb_proj (a b : ObjectInfo) : obj_eqb a b = true <-> id a = id b.
Proof. unfold obj_eqb. apply Z.eqb_eq. Qed.

Lemma key_eqb_proj (a b : ObjectInfo * bool) :
  key_eqb a b = true <-> key_proj a = key_proj b.
Proof.
  unfold key_proj, key_eqb, obj_eqb. rewrite andb_true_iff, Z.eqb_eq, eqb_true_iff.
  split.
  - intros [H1 H2]. congruence.
  - intro H. inversion H. auto.
Qed.

Lemma isthing_eqb_eq (a b : option bool) : isthing_eqb a b = true <-> a = b.
Proof.
  destruct a as [[]|], b as [[]|]; simpl; split; intro H;
    try reflexivity; try discriminate H.
Qed.

(** The dictionaries of the source are keyed by object records, and by pairs
    of an object record and a flag. *)


Lemma obj_get_set_same (V : Type) (d : dict ObjectInfo V) (k k' : ObjectInfo) (v : V) :
  id k = id k' -> dict_get obj_eqb (dict_set obj_eqb d k v) k' = Some v.
Proof.
  intro H. apply (@dict_get_set_same _ _ _ obj_eqb id obj_eqb_proj).
  apply obj_eqb_proj. exact H.
Qed.

Lemma obj_get_set_other (V : Type) (d : dict ObjectInfo V) (k k' : ObjectInfo) (v : V) :
  id k <> id k' ->
  dict_get obj_eqb (dict_set obj_eqb d k v) k' = dict_get obj_eqb d k'.
Proof.
  intro H. apply (@dict_get_set_other _ _ _ obj_eqb id obj_eqb_proj).
  destruct (obj_eqb k k') eqn:E; [|reflexivity].
  apply obj_eqb_proj in E. contradiction.
Qed.

Lemma obj_get_congr (V : Type) (d : dict ObjectInfo V) (k k' : ObjectInfo) :
  id k = id k' -> dict_get obj_eqb d k = dict_get obj_eqb d k'.
Proof.
  intro H. apply (@dict_get_congr _ _ _ obj_eqb id obj_eqb_proj).
  apply obj_eqb_proj. exact H.
Qed.

Lemma key_get_set_same (d : dict (ObjectInfo * bool) Z) (k k' : ObjectInfo * bool) (v : Z) :
  key_proj k = key_proj k' -> dict_get key_eqb (dict_set key_eqb d k v) k' = Some v.
Proof.
  intro H. apply (@dict_get_set_same _ _ _ key_eqb key_proj key_eqb_proj).
  apply key_eqb_proj. exact H.
Qed.

Lemma key_get_set_other (d : dict (ObjectInfo * bool) Z) (k k' : ObjectInfo * bool) (v : Z) :
  key_proj k <> key_proj k' ->
  dict_get key_eqb (dict_set key_eqb d k v) k' = dict_get key_eqb d k'.
Proof.
  intro H. apply (@dict_get_set_other _ _ _ key_eqb key_proj key_eqb_proj).
  destruct (key_eqb k k') eqn:E; [|reflexivity].
  apply key_eqb_proj in E. contradiction.
Qed.

Lemma key_set_nodup (d : dict (ObjectInfo * bool) Z) (k : ObjectInfo * bool) (v : Z) :
  NoDup (map key_proj (dict_keys d)) ->
  NoDup (map key_proj (dict_keys (dict_set key_eqb d k v))).
Proof. apply (@dict_set_nodup _ _ _ key_eqb key_proj key_eqb_proj). Qed.

Lemma key_mem_set (d : dict (ObjectInfo * bool) Z) (k k' : ObjectInfo * bool) (v : Z) :
  dict_mem key_eqb (dict_set key_eqb d k v) k'
  = key_eqb k k' || dict_mem key_eqb d k'.
Proof. apply (@dict_mem_set _ _ _ key_eqb key_proj key_eqb_proj). Qed.

Lemma obj_mem_set (V : Type) (d : dict ObjectInfo V) (k k' : ObjectInfo) (v : V) :
  dict_mem obj_eqb (dict_set obj_eqb d k v) k'
  = obj_eqb k k' || dict_mem obj_eqb d k'.
Proof. apply (@dict_mem_set _ _ _ obj_eqb id obj_eqb_proj). Qed.

(** ** Mask algebra *)

Lemma tsum_ext (m1 m2 : tensor bool) :
  (forall p, In p frame -> m1 p = m2 p) -> tsum m1 = tsum m2.
Proof.
  unfold tsum. intro H. f_equal. f_equal.
  induction frame as [|p ps IH]; simpl.
  - reflexivity.
  - rewrite (H p) by (left; reflexivity).
    rewrite IH by (intros q Hq; apply H; right; exact Hq). reflexivity.
Qed.

Lemma tsum_nonneg (m : tensor bool) : 0 <= tsum m.
Proof. unfold tsum. lia. Qed.

Lemma tmul_comm (m1 m2 : tensor bool) : tsum (tmul m1 m2) = tsum (tmul m2 m1).
Proof. apply tsum_ext. intros p _. unfold tmul. apply andb_comm. Qed.

(** C8. The IoU computation is symmetric: swapping the two masks together
    with their pixel sums gives the same triple, ratio, intersection and
    union alike, and the same [(0, None, None)] when the masks do not
    overlap. *)
Theorem get_iou_symmetric (m1 m2 : tensor bool) (m1_sum m2_sum : Z) :
  _get_iou m1 m2 m1_sum m2_sum = _get_iou m2 m1 m2_sum m1_sum.
Proof.
  unfold _get_iou. rewrite (tmul_comm m2 m1).
  replace (m2_sum + m1_sum) with (m1_sum + m2_sum) by apply Z.add_comm.
  reflexivity.
Qed.

(** An integer count is below the threshold 1e-3 exactly when it is below 1. *)
Lemma below_epsilon (i : Z) : Qltb (inject_Z i) (1 # 1000) = (i <? 1).
Proof.
  unfold Qltb, Qle_bool. simpl.
  destruct (Z.ltb_spec i 1) as [H|H].
  - apply negb_true_iff. apply Z.leb_gt. lia.
  - apply negb_false_iff. apply Z.leb_le. lia.
Qed.

(** With a nonzero overlap the triple is the quotient of the intersection
    count by the union count. *)
Lemma get_iou_overlap (m1 m2 : tensor bool) (m1_sum m2_sum : Z) :
  0 < tsum (tmul m1 m2) ->
  _get_iou m1 m2 m1_sum m2_sum
  = Overlap (tdiv (tsum (tmul m1 m2)) (m1_sum + m2_sum - tsum (tmul m1 m2)))
            (tsum (tmul m1 m2)) (m1_sum + m2_sum - tsum (tmul m1 m2)).
Proof.
  intro H. unfold _get_iou. rewrite below_epsilon.
  destruct (Z.ltb_spec (tsum (tmul m1 m2)) 1) as [H1|H1]; [lia | reflexivity].
Qed.

Lemma get_iou_no_overlap (m1 m2 : tensor bool) (m1_sum m2_sum : Z) :
  tsum (tmul m1 m2) = 0 -> _get_iou m1 m2 m1_sum m2_sum = NoOverlap.
Proof. intro H. unfold _get_iou. rewrite below_epsilon, H. reflexivity. Qed.

(** ** The matching loops *)

Lemma find_first_split (A : Type) (f : A -> bool) (l : list A) (x : A) :
  find f l = Some x ->
  exists pre post, l = pre ++ x :: post /\ f x = true
                   /\ forall y, In y pre -> f y = false.
Proof.
  induction l as [|a l IH]; simpl; intro H.
  - discriminate H.
  - destruct (f a) eqn:Ha.
    + inversion H. subst. exists [], l. repeat split; auto.
      intros y [].
    + destruct (IH H) as [pre [post [E [Hx Hpre]]]].
      exists (a :: pre), post. repeat split; auto.
      * simpl. rewrite E. reflexivity.
      * intros y [Hy|Hy]; [subst; exact Ha | apply Hpre; exact Hy].
Qed.

Lemma dict_mem_lookup (K V : Type) (eqb : K -> K -> bool) (d : dict K V) (k : K) :
  dict_mem eqb d k = true -> exists v, dict_get eqb d k = Some v.
Proof.
  unfold dict_mem. destruct (dict_get eqb d k) as [v|]; intro H.
  - exists v. reflexivity.
  - discriminate H.
Qed.

Lemma dict_lookup_get (K V : Type) (eqb : K -> K -> bool) (d : dict K V) (k : K) (v : V) :
  dict_get eqb d k = Some v -> dict_lookup eqb d k = Ok v.
Proof. unfold dict_lookup. intros ->. reflexivity. Qed.

Lemma dict_lookup_ok (K V : Type) (eqb : K -> K -> bool) (d : dict K V) (k : K) (v : V) :
  dict_lookup eqb d k = Ok v -> dict_get eqb d k = Some v.
Proof.
  unfold dict_lookup. destruct (dict_get eqb d k); intro H; inversion H.
  reflexivity.
Qed.

(** A lookup that returned. *)
Ltac inv_lookup H :=
  match type of H with
  | bind (dict_lookup ?e ?d ?k) _ = Ok _ =>
      let v := fresh "v" in
      let E := fresh "E" in
      destruct (dict_lookup e d k) as [v|] eqn:E; simpl in H;
      [apply dict_lookup_ok in E | discriminate H]
  end.

Section PassFacts.

Variables our_masks new_masks : dict ObjectInfo (tensor bool).
Variables our_sums new_sums : dict ObjectInfo Z.
Variable isthing_status : option bool.
Variable engulf_threshold : Q.


(** The inner loop of the IoU mode is a search for the first qualifying
    object. *)
Lemma iou_scan_first_qualifying (m : dict ObjectInfo ObjectInfo)
  (new_obj : ObjectInfo) (ours : list ObjectInfo) :
  cached_new new_masks new_sums new_obj -> cached_ours our_masks our_sums ours ->
  iou_scan our_masks new_masks our_sums new_sums isthing_status m new_obj ours
  = Ok (option_map (fun our_obj => (our_obj, union_area our_masks new_masks our_sums new_sums new_obj our_obj))
                   (first_qualifying our_masks new_masks our_sums new_sums isthing_status m new_obj ours)).
Proof.
  intros [Hnm Hns] Hours.
  destruct (dict_mem_lookup _ _ _ Hnm) as [m1 Hm1].
  destruct (dict_mem_lookup _ _ _ Hns) as [s1 Hs1].
  induction ours as [|our_obj rest IH]; simpl.
  - reflexivity.
  - assert (Hrest : cached_ours our_masks our_sums rest)
      by (intros o Ho; apply Hours; right; exact Ho).
    destruct (Hours our_obj (or_introl eq_refl)) as [Hom Hos].
    destruct (dict_mem_lookup _ _ _ Hom) as [m2 Hm2].
    destruct (dict_mem_lookup _ _ _ Hos) as [s2 Hs2].
    specialize (IH Hrest).
    assert (Hq : qualifies our_masks new_masks our_sums new_sums isthing_status
                   m new_obj our_obj
                 = isthing_eqb (isthing our_obj) isthing_status
                   && negb (dict_mem obj_eqb m our_obj)
                   && match _get_iou m1 m2 s1 s2 with
                      | Overlap iou _ _ => tgt iou (1 # 2)
                      | NoOverlap => false
                      end).
    { unfold qualifies, iou_exceeds_half, pair_iou.
      rewrite Hm1, Hm2, Hs1, Hs2. reflexivity. }
    assert (Hu : union_area our_masks new_masks our_sums new_sums new_obj our_obj
                 = match _get_iou m1 m2 s1 s2 with
                   | Overlap _ _ union => union
                   | NoOverlap => 0
                   end).
    { unfold union_area, pair_iou. rewrite Hm1, Hm2, Hs1, Hs2. reflexivity. }
    unfold first_qualifying in *. simpl find. rewrite Hq, IH.
    rewrite (dict_lookup_get _ _ _ Hm1), (dict_lookup_get _ _ _ Hm2),
            (dict_lookup_get _ _ _ Hs1), (dict_lookup_get _ _ _ Hs2).
    simpl.
    destruct (isthing_eqb (isthing our_obj) isthing_status); simpl;
      [|reflexivity].
    destruct (dict_mem obj_eqb m our_obj); simpl; [reflexivity|].
    destruct (_get_iou m1 m2 s1 s2) as [|iou inter union] eqn:Hiou;
      [reflexivity|].
    destruct (tgt iou (1 # 2)); [|reflexivity].
    simpl. rewrite Hu. reflexivity.
Qed.



(** *** What the matching loops return *)

Lemma iou_scan_some (m : dict ObjectInfo ObjectInfo) (new_obj : ObjectInfo)
  (ours : list ObjectInfo) (our_obj : ObjectInfo) (union : Z) :
  iou_scan our_masks new_masks our_sums new_sums isthing_status m new_obj ours
  = Ok (Some (our_obj, union)) ->
  In our_obj ours /\ isthing our_obj = isthing_status
  /\ dict_mem obj_eqb m our_obj = false.
Proof.
  induction ours as [|o rest IH]; simpl; intro H.
  - discriminate H.
  - destruct (isthing_eqb (isthing o) isthing_status) eqn:Ht; simpl in H.
    2:{ destruct (IH H) as [H1 H2]. auto. }
    destruct (dict_mem obj_eqb m o) eqn:Hm; simpl in H.
    1:{ destruct (IH H) as [H1 H2]. auto. }
    do 4 inv_lookup H.
    destruct (_get_iou v v0 v1 v2) as [|iou inter u].
    1:{ destruct (IH H) as [H1 H2]. auto. }
    destruct (tgt iou (1 # 2)).
    + inversion H. subst. apply isthing_eqb_eq in Ht. auto.
    + destruct (IH H) as [H1 H2]. auto.
Qed.

Lemma engulf_scan_matched (new_obj : ObjectInfo) (ours : list ObjectInfo)
  (our_obj : ObjectInfo) (union : Z) :
  engulf_scan our_masks new_masks our_sums new_sums isthing_status
              engulf_threshold new_obj ours
  = Ok (EMatched our_obj union) ->
  In our_obj ours /\ isthing our_obj = isthing_status.
Proof.
  induction ours as [|o rest IH]; simpl; intro H.
  - discriminate H.
  - destruct (isthing_eqb (isthing o) isthing_status) eqn:Ht; simpl in H.
    2:{ destruct (IH H) as [H1 H2]. auto. }
    do 4 inv_lookup H.
    destruct (_get_iou v v0 v1 v2) as [|iou inter u].
    1:{ destruct (IH H) as [H1 H2]. auto. }
    destruct (tgt iou (1 # 2)).
    + inversion H. subst. apply isthing_eqb_eq in Ht. auto.
    + destruct (tgt iou 0).
      * simpl in H.
        destruct (tgt (tdiv inter v1) engulf_threshold); [discriminate H|].
        destruct (IH H) as [H1 H2]. auto.
      * destruct (IH H) as [H1 H2]. auto.
Qed.

(** The carried-over loop only adds areas. *)
Lemma carry_step_matching (st st' : matching) (our_obj : ObjectInfo) :
  carry_step our_sums isthing_status st our_obj = Ok st' ->
  our_to_new_matching st' = our_to_new_matching st
  /\ new_objects st' = new_objects st.
Proof.
  unfold carry_step.
  destruct (negb (isthing_eqb (isthing our_obj) isthing_status)
            || dict_mem obj_eqb (our_to_new_matching st) our_obj); intro H.
  - inversion H. auto.
  - inv_lookup H. inversion H. auto.
Qed.

Lemma carry_matching (ours : list ObjectInfo) (st st' : matching) :
  for_each (carry_step our_sums isthing_status) ours st = Ok st' ->
  our_to_new_matching st' = our_to_new_matching st
  /\ new_objects st' = new_objects st.
Proof.
  intro H.
  apply (for_each_invariant _
           (fun s => our_to_new_matching s = our_to_new_matching st
                     /\ new_objects s = new_objects st)) in H; auto.
  intros s x s' [H1 H2] Hs. apply carry_step_matching in Hs.
  destruct Hs as [H3 H4]. split; congruence.
Qed.

Lemma in_category_set_match (ours cands : list ObjectInfo) (st : matching)
  (our_obj new_obj : ObjectInfo) (union : Z) :
  in_category isthing_status ours cands st ->
  In our_obj ours -> isthing our_obj = isthing_status ->
  In new_obj cands -> isthing new_obj = isthing_status ->
  in_category isthing_status ours cands
    (mkMatching (dict_set obj_eqb (our_to_new_matching st) our_obj new_obj)
                (dict_set key_eqb (matched_area st) (our_obj, false) union)
                (new_objects st)).
Proof.
  intros [Hm Ha] Ho Hot Hc Hct. split; simpl.
  - intros o c Hin. apply in_dict_set in Hin.
    destruct Hin as [Hin|[-> [->|Hin]]].
    + exact (Hm _ _ Hin).
    + auto.
    + apply in_dict_keys in Hin. destruct Hin as [c' Hin].
      destruct (Hm _ _ Hin) as [H1 _]. auto.
  - intros obj is_new area Hin. apply in_dict_set in Hin.
    destruct Hin as [Hin|[_ [E|Hin]]].
    + exact (Ha _ _ _ Hin).
    + inversion E. subst. auto.
    + apply in_dict_keys in Hin. destruct Hin as [a' Hin].
      exact (Ha _ _ _ Hin).
Qed.

Lemma in_category_set_area (ours cands : list ObjectInfo) (st : matching)
  (obj : ObjectInfo) (is_new : bool) (area : Z) (news : list ObjectInfo) :
  in_category isthing_status ours cands st ->
  isthing obj = isthing_status ->
  (if is_new then In obj cands else In obj ours) ->
  in_category isthing_status ours cands
    (mkMatching (our_to_new_matching st)
                (dict_set key_eqb (matched_area st) (obj, is_new) area)
                news).
Proof.
  intros [Hm Ha] Ht Hin. split; simpl; [exact Hm|].
  intros obj' is_new' area' H. apply in_dict_set in H.
  destruct H as [H|[_ [E|H]]].
  - exact (Ha _ _ _ H).
  - inversion E. subst. auto.
  - apply in_dict_keys in H. destruct H as [a' H]. exact (Ha _ _ _ H).
Qed.

Lemma iou_match_step_category (ours cands : list ObjectInfo) (st st' : matching)
  (new_obj : ObjectInfo) :
  In new_obj cands -> in_category isthing_status ours cands st ->
  iou_match_step our_masks new_masks our_sums new_sums isthing_status
                 ours st new_obj = Ok st' ->
  in_category isthing_status ours cands st'.
Proof.
  intros Hc Hst. unfold iou_match_step.
  destruct (isthing_eqb (isthing new_obj) isthing_status) eqn:Ht; simpl; intro H.
  2:{ injection H as <-. exact Hst. }
  apply isthing_eqb_eq in Ht.
  apply bind_ok_inv in H. destruct H as [r [Hscan H]].
  destruct r as [[our_obj union]|].
  - apply iou_scan_some in Hscan. destruct Hscan as [Ho [Hot _]].
    injection H as <-. apply in_category_set_match; assumption.
  - inv_lookup H. injection H as <-.
    apply in_category_set_area with (is_new := true); assumption.
Qed.

Lemma engulf_match_step_category (ours cands : list ObjectInfo)
  (st st' : matching) (new_obj : ObjectInfo) :
  In new_obj cands -> in_category isthing_status ours cands st ->
  engulf_match_step our_masks new_masks our_sums new_sums isthing_status
                    engulf_threshold ours st new_obj = Ok st' ->
  in_category isthing_status ours cands st'.
Proof.
  intros Hc Hst. unfold engulf_match_step.
  destruct (isthing_eqb (isthing new_obj) isthing_status) eqn:Ht; simpl; intro H.
  2:{ injection H as <-. exact Hst. }
  apply isthing_eqb_eq in Ht.
  apply bind_ok_inv in H. destruct H as [r [Hscan H]].
  destruct r as [our_obj union| |].
  - apply engulf_scan_matched in Hscan. destruct Hscan as [Ho Hot].
    injection H as <-. apply in_category_set_match; assumption.
  - injection H as <-. exact Hst.
  - inv_lookup H. injection H as <-.
    apply in_category_set_area with (is_new := true); assumption.
Qed.

Lemma carry_step_category (ours cands : list ObjectInfo) (st st' : matching)
  (our_obj : ObjectInfo) :
  In our_obj ours -> in_category isthing_status ours cands st ->
  carry_step our_sums isthing_status st our_obj = Ok st' ->
  in_category isthing_status ours cands st'.
Proof.
  intros Ho Hst. unfold carry_step.
  destruct (isthing_eqb (isthing our_obj) isthing_status) eqn:Ht; simpl; intro H.
  2:{ injection H as <-. exact Hst. }
  apply isthing_eqb_eq in Ht.
  destruct (dict_mem obj_eqb (our_to_new_matching st) our_obj).
  - injection H as <-. exact Hst.
  - inv_lookup H. injection H as <-.
    apply in_category_set_area with (is_new := false); assumption.
Qed.

Lemma empty_in_category (ours cands : list ObjectInfo) :
  in_category isthing_status ours cands empty_matching.
Proof. split; simpl; intros; contradiction. Qed.

Lemma iou_matching_category (ours cands : list ObjectInfo) (st : matching) :
  iou_matching our_masks new_masks our_sums new_sums isthing_status ours cands
  = Ok st ->
  in_category isthing_status ours cands st.
Proof.
  unfold iou_matching. intro H.
  apply bind_ok_inv in H. destruct H as [st1 [H1 H2]].
  apply (for_each_invariant_in _ (in_category isthing_status ours cands)) in H1.
  - apply (for_each_invariant_in _ (in_category isthing_status ours cands)) in H2; auto.
    intros s x s' Hx Hs. apply carry_step_category; assumption.
  - intros s x s' Hx Hs. apply iou_match_step_category; assumption.
  - apply empty_in_category.
Qed.

Lemma engulf_matching_category (ours cands : list ObjectInfo) (st : matching) :
  engulf_matching our_masks new_masks our_sums new_sums isthing_status
                  engulf_threshold ours cands = Ok st ->
  in_category isthing_status ours cands st.
Proof.
  unfold engulf_matching. intro H.
  apply bind_ok_inv in H. destruct H as [st1 [H1 H2]].
  apply (for_each_invariant_in _ (in_category isthing_status ours cands)) in H1.
  - apply (for_each_invariant_in _ (in_category isthing_status ours cands)) in H2; auto.
    intros s x s' Hx Hs. apply carry_step_category; assumption.
  - intros s x s' Hx Hs. apply engulf_match_step_category; assumption.
  - apply empty_in_category.
Qed.


(** ** Rendering *)

Lemma in_insert_by_area (x y : area_key * Z) (l : list (area_key * Z)) :
  In y (insert_by_area x l) <-> y = x \/ In y l.
Proof.
  induction l as [|z l IH]; simpl.
  - split; [intros [H|[]]; left; symmetry; exact H
           | intros [H|[]]; left; symmetry; exact H].
  - destruct (snd x <? snd z); simpl.
    + rewrite IH. split.
      * intros [H|[H|H]]; [right; left; exact H | left; exact H
                           | right; right; exact H].
      * intros [H|[H|H]]; [right; left; exact H | left; exact H
                           | right; right; exact H].
    + split.
      * intros [H|H]; [left; symmetry; exact H | right; exact H].
      * intros [H|H]; [left; symmetry; exact H | right; exact H].
Qed.

Lemma in_sorted_by_area (d : dict area_key Z) (y : area_key * Z) :
  In y (sorted_by_area d) <-> In y d.
Proof.
  unfold sorted_by_area. induction d as [|x d IH]; simpl.
  - reflexivity.
  - rewrite in_insert_by_area, IH. split.
    + intros [H|H]; [left; symmetry; exact H | right; exact H].
    + intros [H|H]; [left; symmetry; exact H | right; exact H].
Qed.

Lemma insert_by_area_descending (x : area_key * Z) (l : list (area_key * Z)) :
  descending l -> descending (insert_by_area x l).
Proof.
  induction 1 as [|z l Hz Hl IH]; simpl.
  - constructor; [intros y []|constructor].
  - destruct (Z.ltb_spec (snd x) (snd z)) as [Hlt|Hge].
    + constructor; [|exact IH].
      intros y Hy. apply in_insert_by_area in Hy.
      destruct Hy as [->|Hy]; [lia | apply Hz; exact Hy].
    + constructor; [|constructor; assumption].
      intros y [<-|Hy]; [exact Hge|].
      specialize (Hz y Hy). lia.
Qed.

Lemma sorted_by_area_descending (d : dict area_key Z) :
  descending (sorted_by_area d).
Proof.
  unfold sorted_by_area. induction d as [|x d IH]; simpl.
  - constructor.
  - apply insert_by_area_descending. exact IH.
Qed.

Lemma descending_split (pre post : list (area_key * Z)) (e : area_key * Z) :
  descending (pre ++ e :: post) ->
  forall e', In e' pre -> snd e <= snd e'.
Proof.
  induction pre as [|x pre IH]; simpl; intros H e' Hin.
  - contradiction.
  - inversion H as [|x' l' Hx Hl]; subst.
    destruct Hin as [<-|Hin].
    + apply Hx. apply in_or_app. right. left. reflexivity.
    + apply IH; assumption.
Qed.

(** The last element of a list that satisfies a test. *)
Lemma last_split (A : Type) (f : A -> bool) (l : list A) :
  (exists x, In x l /\ f x = true) ->
  exists pre x post, l = pre ++ x :: post /\ f x = true
                     /\ forall y, In y post -> f y = false.
Proof.
  induction l as [|a l IH]; intros [x [Hin Hx]].
  - contradiction.
  - destruct (existsb f l) eqn:El.
    + apply existsb_exists in El. destruct (IH El) as [pre [y [post [E [Hy Hp]]]]].
      exists (a :: pre), y, post. rewrite E. auto.
    + assert (Hl : forall y, In y l -> f y = false).
      { intros y Hy. destruct (f y) eqn:Ey; [|reflexivity].
        assert (existsb f l = true) by (apply existsb_exists; eauto).
        congruence. }
      destruct Hin as [<-|Hin]; [|rewrite (Hl x Hin) in Hx; discriminate].
      exists [], a, l. auto.
Qed.

(** What one step of the rendering writes at a pixel. *)
Lemma render_step_pixel (m : dict ObjectInfo ObjectInfo) (om om' : ObjectManager)
  (mask mask' : tensor Z) (e : area_key * Z) (p : pixel) :
  render_step our_masks new_masks m (om, mask) e = Ok (om', mask') ->
  mask' p = if claims our_masks new_masks m e p then label_of om e else mask p.
Proof.
  destruct e as [[obj is_new] area]. unfold render_step, claims, label_of, mask_at.
  destruct is_new.
  - unfold add_new_objects. intro H. simpl in H. inv_lookup H. rewrite E.
    injection H as <- <-. reflexivity.
  - destruct (dict_get obj_eqb m obj) as [new_obj|]; intro H.
    + do 2 inv_lookup H. rewrite E, E0.
      apply bind_ok_inv in H. destruct H as [o [_ H]].
      injection H as <- <-. unfold tset.
      destruct (v0 p), (v p); reflexivity.
    + inv_lookup H. rewrite E.
      apply bind_ok_inv in H. destruct H as [o [_ H]].
      injection H as <- <-. reflexivity.
Qed.

Lemma render_unclaimed (m : dict ObjectInfo ObjectInfo) (p : pixel)
  (es : list (area_key * Z)) :
  (forall e, In e es -> claims our_masks new_masks m e p = false) ->
  forall s s',
    for_each (render_step our_masks new_masks m) es s = Ok s' ->
    snd s' p = snd s p.
Proof.
  induction es as [|e es IH]; intros Hes s s' H; simpl in H.
  - injection H as <-. reflexivity.
  - apply bind_ok_inv in H. destruct H as [s1 [H1 H2]].
    rewrite (IH (fun e' He' => Hes e' (or_intror He')) _ _ H2).
    destruct s as [om mask], s1 as [om1 mask1]. simpl.
    rewrite (render_step_pixel _ _ _ _ p H1), (Hes e (or_introl eq_refl)).
    reflexivity.
Qed.

(** The pixel belongs to the last entry of the render list that claims it. *)
Lemma render_last_claimant (m : dict ObjectInfo ObjectInfo) (p : pixel)
  (pre post : list (area_key * Z)) (e : area_key * Z)
  (om om' : ObjectManager) (mask mask' : tensor Z) :
  for_each (render_step our_masks new_masks m) (pre ++ e :: post)
           (om, mask) = Ok (om', mask') ->
  claims our_masks new_masks m e p = true ->
  (forall e', In e' post -> claims our_masks new_masks m e' p = false) ->
  exists om1 mask1,
    for_each (render_step our_masks new_masks m) pre (om, mask)
    = Ok (om1, mask1)
    /\ mask' p = label_of om1 e.
Proof.
  intros H He Hpost. rewrite for_each_app in H.
  apply bind_ok_inv in H. destruct H as [[om1 mask1] [H1 H2]].
  exists om1, mask1. split; [exact H1|].
  simpl in H2. apply bind_ok_inv in H2. destruct H2 as [[om2 mask2] [H2 H3]].
  apply (render_unclaimed _ _ _ Hpost) in H3. simpl in H3. rewrite H3.
  rewrite (render_step_pixel _ _ _ _ p H2), He. reflexivity.
Qed.


(** ** The engulf mode *)

Lemma filter_length_le (A : Type) (f g : A -> bool) (l : list A) :
  (forall x, f x = true -> g x = true) ->
  (List.length (filter f l) <= List.length (filter g l))%nat.
Proof.
  intro H. induction l as [|x l IH]; simpl.
  - lia.
  - destruct (f x) eqn:Ef.
    + rewrite (H x Ef). simpl. lia.
    + destruct (g x); simpl; lia.
Qed.

Lemma tsum_tmul_le_l (m1 m2 : tensor bool) : tsum (tmul m1 m2) <= tsum m1.
Proof.
  unfold tsum, tmul. apply inj_le. apply filter_length_le.
  intros p H. apply andb_true_iff in H. tauto.
Qed.

Lemma tsum_tmul_le_r (m1 m2 : tensor bool) : tsum (tmul m1 m2) <= tsum m2.
Proof. rewrite tmul_comm. apply tsum_tmul_le_l. Qed.

Lemma get_iou_overlap_inv (m1 m2 : tensor bool) (s1 s2 : Z) (iou : tfloat)
  (inter union : Z) :
  _get_iou m1 m2 s1 s2 = Overlap iou inter union ->
  inter = tsum (tmul m1 m2) /\ 1 <= inter
  /\ union = s1 + s2 - inter /\ iou = tdiv inter union.
Proof.
  unfold _get_iou. rewrite below_epsilon.
  destruct (Z.ltb_spec (tsum (tmul m1 m2)) 1) as [H|H]; intro E.
  - discriminate E.
  - injection E as <- <- <-. auto.
Qed.

Lemma get_iou_no_overlap_inv (m1 m2 : tensor bool) (s1 s2 : Z) :
  _get_iou m1 m2 s1 s2 = NoOverlap -> tsum (tmul m1 m2) = 0.
Proof.
  unfold _get_iou. rewrite below_epsilon.
  destruct (Z.ltb_spec (tsum (tmul m1 m2)) 1) as [H|H]; intro E.
  - pose proof (tsum_nonneg (tmul m1 m2)). lia.
  - discriminate E.
Qed.

Lemma tgt_tdiv_pos (a b : Z) : 0 < a -> 0 < b -> tgt (tdiv a b) 0 = true.
Proof.
  intros Ha Hb. unfold tdiv.
  destruct (Z.eqb_spec b 0) as [E|_]; [lia|].
  unfold tgt, Qltb. apply negb_true_iff.
  destruct (Qle_bool (inject_Z a / inject_Z b) 0) eqn:E; [|reflexivity].
  apply Qle_bool_iff in E. exfalso.
  apply (Qlt_not_le 0 (inject_Z a / inject_Z b)); [|exact E].
  apply Qlt_shift_div_l.
  - unfold Qlt. simpl. lia.
  - rewrite Qmult_0_l. unfold Qlt. simpl. lia.
Qed.

Lemma tgt_tdiv_zero (b : Z) (y : Q) : (0 <= y)%Q -> tgt (tdiv 0 b) y = false.
Proof.
  intro Hy. unfold tdiv.
  destruct (b =? 0); [reflexivity|].
  unfold tgt, Qltb. apply negb_false_iff. apply Qle_bool_iff.
  unfold Qdiv. rewrite Qmult_0_l. exact Hy.
Qed.

(** A candidate that no object of its category matches by IoU, and that
    some object of its category covers above the threshold, ends its scan
    engulfed. *)
Lemma engulf_scan_engulfed (new_obj : ObjectInfo) (ours : list ObjectInfo) :
  (0 <= engulf_threshold)%Q ->
  cached_new new_masks new_sums new_obj ->
  cached_ours our_masks our_sums ours ->
  sum_is_count new_masks new_sums new_obj ->
  (forall o, In o ours -> sum_is_count our_masks our_sums o) ->
  (forall o, In o ours -> isthing o = isthing_status ->
     iou_exceeds_half our_masks new_masks our_sums new_sums new_obj o = false) ->
  (exists o, In o ours /\ isthing o = isthing_status
             /\ covered_above our_masks new_masks new_sums engulf_threshold
                              new_obj o = true) ->
  engulf_scan our_masks new_masks our_sums new_sums isthing_status
              engulf_threshold new_obj ours = Ok EEngulfed.
Proof.
  intros Hthr [Hnm Hns] Hours Hnc Hoc Hiou Hcov.
  destruct (dict_mem_lookup _ _ _ Hnm) as [m1 Hm1].
  destruct (dict_mem_lookup _ _ _ Hns) as [s1 Hs1].
  pose proof (Hnc _ _ Hm1 Hs1) as Es1.
  induction ours as [|o rest IH]; simpl.
  - destruct Hcov as [o [[] _]].
  - assert (Hrest : engulf_scan our_masks new_masks our_sums new_sums
                      isthing_status engulf_threshold new_obj rest = Ok EEngulfed
                    \/ (isthing o = isthing_status
                        /\ covered_above our_masks new_masks new_sums
                             engulf_threshold new_obj o = true)).
    { destruct Hcov as [w [[<-|Hw] [Hwt Hwc]]].
      - right. auto.
      - left. apply IH.
        + intros x Hx. apply Hours. right. exact Hx.
        + intros x Hx. apply Hoc. right. exact Hx.
        + intros x Hx. apply Hiou. right. exact Hx.
        + exists w. auto. }
    clear IH Hcov.
    destruct (isthing_eqb (isthing o) isthing_status) eqn:Ht; simpl.
    + apply isthing_eqb_eq in Ht.
      destruct (Hours o (or_introl eq_refl)) as [Hom Hos].
      destruct (dict_mem_lookup _ _ _ Hom) as [m2 Hm2].
      destruct (dict_mem_lookup _ _ _ Hos) as [s2 Hs2].
      pose proof (Hoc o (or_introl eq_refl) _ _ Hm2 Hs2) as Es2.
      specialize (Hiou o (or_introl eq_refl) Ht).
      unfold iou_exceeds_half, pair_iou in Hiou.
      rewrite Hm1, Hm2, Hs1, Hs2 in Hiou.
      rewrite (dict_lookup_get _ _ _ Hm1), (dict_lookup_get _ _ _ Hm2),
              (dict_lookup_get _ _ _ Hs1), (dict_lookup_get _ _ _ Hs2).
      simpl.
      destruct (_get_iou m1 m2 s1 s2) as [|iou inter union] eqn:Eiou.
      * destruct Hrest as [Hrest|[_ Hc]]; [exact Hrest|].
        apply get_iou_no_overlap_inv in Eiou.
        unfold covered_above in Hc. rewrite Hm1, Hm2, Hs1, Eiou in Hc.
        rewrite (tgt_tdiv_zero _ Hthr) in Hc. discriminate Hc.
      * rewrite Hiou.
        apply get_iou_overlap_inv in Eiou.
        destruct Eiou as [Einter [Hinter [Eunion Eratio]]].
        assert (Hpos : tgt iou 0 = true).
        { rewrite Eratio. apply tgt_tdiv_pos; [lia|].
          pose proof (tsum_tmul_le_l m1 m2). pose proof (tsum_tmul_le_r m1 m2).
          lia. }
        rewrite Hpos. simpl.
        destruct (tgt (tdiv inter s1) engulf_threshold) eqn:Ec; [reflexivity|].
        destruct Hrest as [Hrest|[_ Hc]]; [exact Hrest|].
        unfold covered_above in Hc. rewrite Hm1, Hm2, Hs1, <- Einter in Hc.
        congruence.
    + destruct Hrest as [Hrest|[Hot _]]; [exact Hrest|].
      apply isthing_eqb_eq in Hot. congruence.
Qed.


(** *** Candidates displaced by a later match *)

(** One step of the engulf loop, seen through the lookups of the matching. *)
Lemma engulf_step_get (ours : list ObjectInfo) (st st' : matching)
  (c our_obj : ObjectInfo) :
  engulf_match_step our_masks new_masks our_sums new_sums isthing_status
                    engulf_threshold ours st c = Ok st' ->
  dict_get obj_eqb (our_to_new_matching st') our_obj
  = if engulf_matches our_masks new_masks our_sums new_sums isthing_status
                      engulf_threshold ours c our_obj
    then Some c
    else dict_get obj_eqb (our_to_new_matching st) our_obj.
Proof.
  unfold engulf_match_step, engulf_matches.
  destruct (isthing_eqb (isthing c) isthing_status); simpl; intro H.
  - destruct (engulf_scan our_masks new_masks our_sums new_sums isthing_status
                engulf_threshold c ours) as [[o u| |]|e]; simpl in H.
    + injection H as <-. simpl.
      destruct (Z.eqb_spec (id o) (id our_obj)) as [E|E].
      * apply obj_get_set_same. exact E.
      * apply obj_get_set_other. exact E.
    + injection H as <-. reflexivity.
    + inv_lookup H. injection H as <-. reflexivity.
    + discriminate H.
  - injection H as <-. reflexivity.
Qed.

(** After the engulf loop an object is matched to the last candidate whose
    scan ended at it. *)
Lemma engulf_loop_get (ours cands : list ObjectInfo) (our_obj : ObjectInfo) :
  forall st st',
  for_each (engulf_match_step our_masks new_masks our_sums new_sums
              isthing_status engulf_threshold ours) cands st = Ok st' ->
  dict_get obj_eqb (our_to_new_matching st') our_obj
  = match find (fun c => engulf_matches our_masks new_masks our_sums new_sums
                           isthing_status engulf_threshold ours c our_obj)
               (rev cands) with
    | Some c => Some c
    | None => dict_get obj_eqb (our_to_new_matching st) our_obj
    end.
Proof.
  induction cands as [|c cands IH]; intros st st' H; simpl in H.
  - injection H as <-. reflexivity.
  - apply bind_ok_inv in H. destruct H as [st1 [H1 H2]].
    rewrite (IH _ _ H2). simpl rev. rewrite find_over_app.
    destruct (find _ (rev cands)); [reflexivity|].
    simpl. rewrite (engulf_step_get _ _ _ our_obj H1).
    destruct (engulf_matches _ _ _ _ _ _ _ c our_obj); reflexivity.
Qed.

Lemma engulf_step_unhit (ours cands : list ObjectInfo) (st st' : matching)
  (c : ObjectInfo) :
  In c cands ->
  new_entries_unhit our_masks new_masks our_sums new_sums isthing_status
                    engulf_threshold ours cands st ->
  engulf_match_step our_masks new_masks our_sums new_sums isthing_status
                    engulf_threshold ours st c = Ok st' ->
  new_entries_unhit our_masks new_masks our_sums new_sums isthing_status
                    engulf_threshold ours cands st'.
Proof.
  intros Hc [Ha Hn]. unfold engulf_match_step.
  destruct (negb (isthing_eqb (isthing c) isthing_status)); intro H.
  - injection H as <-. split; assumption.
  - destruct (engulf_scan our_masks new_masks our_sums new_sums isthing_status
                engulf_threshold c ours) as [[o u| |]|e] eqn:Hscan; simpl in H.
    + injection H as <-. split; simpl; [|exact Hn].
      intros c' area Hin. apply in_dict_set in Hin.
      destruct Hin as [Hin|[_ [E|Hin]]].
      * exact (Ha _ _ Hin).
      * discriminate E.
      * apply in_dict_keys in Hin. destruct Hin as [a' Hin]. exact (Ha _ _ Hin).
    + injection H as <-. split; assumption.
    + inv_lookup H. injection H as <-. split; simpl.
      * intros c' area Hin. apply in_dict_set in Hin.
        destruct Hin as [Hin|[_ [Ek|Hin]]].
        -- exact (Ha _ _ Hin).
        -- injection Ek as ->. auto.
        -- apply in_dict_keys in Hin. destruct Hin as [a' Hin].
           exact (Ha _ _ Hin).
      * intros c' Hin. apply in_app_or in Hin.
        destruct Hin as [Hin|[<-|[]]]; auto.
    + discriminate H.
Qed.

Lemma carry_step_unhit (ours cands : list ObjectInfo) (st st' : matching)
  (o : ObjectInfo) :
  new_entries_unhit our_masks new_masks our_sums new_sums isthing_status
                    engulf_threshold ours cands st ->
  carry_step our_sums isthing_status st o = Ok st' ->
  new_entries_unhit our_masks new_masks our_sums new_sums isthing_status
                    engulf_threshold ours cands st'.
Proof.
  intros [Ha Hn]. unfold carry_step.
  destruct (negb (isthing_eqb (isthing o) isthing_status)
            || dict_mem obj_eqb (our_to_new_matching st) o); intro H.
  - injection H as <-. split; assumption.
  - inv_lookup H. injection H as <-. split; simpl; [|exact Hn].
    intros c' area Hin. apply in_dict_set in Hin.
    destruct Hin as [Hin|[_ [Ek|Hin]]].
    + exact (Ha _ _ Hin).
    + discriminate Ek.
    + apply in_dict_keys in Hin. destruct Hin as [a' Hin]. exact (Ha _ _ Hin).
Qed.

Lemma engulf_matching_unhit (ours cands : list ObjectInfo) (st : matching) :
  engulf_matching our_masks new_masks our_sums new_sums isthing_status
                  engulf_threshold ours cands = Ok st ->
  new_entries_unhit our_masks new_masks our_sums new_sums isthing_status
                    engulf_threshold ours cands st.
Proof.
  unfold engulf_matching. intro H.
  apply bind_ok_inv in H. destruct H as [st0 [H0 H1]].
  apply (for_each_invariant_in _
           (new_entries_unhit our_masks new_masks our_sums new_sums
              isthing_status engulf_threshold ours cands)) in H0.
  - apply (for_each_invariant _
             (new_entries_unhit our_masks new_masks our_sums new_sums
                isthing_status engulf_threshold ours cands)) in H1; auto.
    intros s x s' Hs. apply carry_step_unhit. exact Hs.
  - intros s x s' Hx Hs. apply engulf_step_unhit; assumption.
  - split; simpl; intros; contradiction.
Qed.

(** C10. In engulf mode an object that is already matched is still scanned:
    when two candidates [c1] and, later, [c2] both end their scan at the
    object [our_obj], the object is matched to [c1] once [c1] is processed,
    and the later match overwrites it.  At the end the object is matched to
    a candidate that comes at or after [c2], no object is matched to [c1],
    and [c1] is not a new object either: the rendering never reads the mask
    of [c1], so its pixels are never written on its behalf, and it creates
    no object record. *)
Theorem displaced_candidate_dropped (ours l1 l2 l3 : list ObjectInfo)
  (c1 c2 our_obj : ObjectInfo) (u1 u2 : Z) (st : matching) :
  NoDup (map id (l1 ++ c1 :: l2 ++ c2 :: l3)) ->
  isthing c1 = isthing_status -> isthing c2 = isthing_status ->
  engulf_scan our_masks new_masks our_sums new_sums isthing_status
              engulf_threshold c1 ours = Ok (EMatched our_obj u1) ->
  engulf_scan our_masks new_masks our_sums new_sums isthing_status
              engulf_threshold c2 ours = Ok (EMatched our_obj u2) ->
  engulf_matching our_masks new_masks our_sums new_sums isthing_status
                  engulf_threshold ours (l1 ++ c1 :: l2 ++ c2 :: l3) = Ok st ->
  (forall st1,
     for_each (engulf_match_step our_masks new_masks our_sums new_sums
                 isthing_status engulf_threshold ours) (l1 ++ [c1])
              empty_matching = Ok st1 ->
     dict_get obj_eqb (our_to_new_matching st1) our_obj = Some c1)
  /\ (exists c, dict_get obj_eqb (our_to_new_matching st) our_obj = Some c
                /\ In c (c2 :: l3))
  /\ (forall o c, dict_get obj_eqb (our_to_new_matching st) o = Some c ->
        id c <> id c1)
  /\ dict_mem key_eqb (matched_area st) (c1, true) = false
  /\ ~ In c1 (new_objects st)
  /\ (forall new_masks' om mask,
        (forall k, id k <> id c1 ->
           dict_get obj_eqb new_masks' k = dict_get obj_eqb new_masks k) ->
        render our_masks new_masks' st om mask
        = render our_masks new_masks st om mask).
Proof.
  intros Hnd Ht1 Ht2 Hs1 Hs2 H.
  set (cands := l1 ++ c1 :: l2 ++ c2 :: l3) in *.
  set (matches := engulf_matches our_masks new_masks our_sums new_sums
                    isthing_status engulf_threshold ours).
  assert (Hm1 : forall o, matches c1 o = (id our_obj =? id o)).
  { intro o. unfold matches, engulf_matches. rewrite Hs1, Ht1.
    replace (isthing_eqb isthing_status isthing_status) with true
      by (symmetry; apply isthing_eqb_eq; reflexivity).
    reflexivity. }
  assert (Hm2 : matches c2 our_obj = true).
  { unfold matches, engulf_matches. rewrite Hs2, Ht2.
    replace (isthing_eqb isthing_status isthing_status) with true
      by (symmetry; apply isthing_eqb_eq; reflexivity).
    apply Z.eqb_refl. }
  pose proof (engulf_matching_unhit _ _ H) as [Hua Hun].
  unfold engulf_matching in H.
  apply bind_ok_inv in H. destruct H as [st0 [H0 Hc]].
  apply carry_matching in Hc. destruct Hc as [Em En].
  assert (Hget : forall o,
            dict_get obj_eqb (our_to_new_matching st) o
            = find (fun c => matches c o) (rev cands)).
  { intro o. rewrite Em, (engulf_loop_get _ _ o _ H0). simpl.
    fold matches. destruct (find _ (rev cands)); reflexivity. }
  assert (Hin1 : In c1 cands)
    by (unfold cands; apply in_or_app; right; left; reflexivity).
  assert (Hlater : forall c, In c (l2 ++ c2 :: l3) -> id c <> id c1).
  { intros c Hc E. unfold cands in Hnd. rewrite map_app in Hnd. simpl in Hnd.
    apply NoDup_remove_2 in Hnd. apply Hnd. apply in_or_app. right.
    rewrite <- E. apply in_map. exact Hc. }
  assert (Hlast : exists c, dict_get obj_eqb (our_to_new_matching st) our_obj
                            = Some c /\ In c (c2 :: l3)).
  { rewrite Hget. unfold cands.
    replace (l1 ++ c1 :: l2 ++ c2 :: l3) with ((l1 ++ c1 :: l2) ++ c2 :: l3)
      by (rewrite <- app_assoc; reflexivity).
    rewrite rev_app_distr, find_over_app.
    destruct (find_exists (fun c => matches c our_obj) (rev (c2 :: l3)))
      as [y Hy].
    { exists c2. split; [|exact Hm2]. apply -> in_rev. left. reflexivity. }
    rewrite Hy. exists y. split; [reflexivity|].
    apply find_some in Hy. apply in_rev. exact (proj1 Hy). }
  assert (Hnot1 : forall o c,
            dict_get obj_eqb (our_to_new_matching st) o = Some c ->
            id c <> id c1).
  { intros o c Ho E. pose proof Ho as Ho'. rewrite Hget in Ho'.
    apply find_some in Ho'. destruct Ho' as [Hc Hmc].
    apply in_rev in Hc.
    assert (c = c1) by (apply (NoDup_map_eq id cands); assumption).
    subst c. rewrite Hm1 in Hmc. apply Z.eqb_eq in Hmc.
    rewrite <- (obj_get_congr _ our_obj o Hmc) in Ho.
    destruct Hlast as [c' [Hc' Hin']]. rewrite Hc' in Ho. injection Ho as ->.
    apply (Hlater c1); [|reflexivity].
    apply in_or_app. right. exact Hin'. }
  assert (Hkey : forall c area, In ((c, true), area) (matched_area st) ->
                                id c <> id c1).
  { intros c area Hin E. destruct (Hua _ _ Hin) as [Hc Hscan].
    assert (c = c1) by (apply (NoDup_map_eq id cands); assumption).
    subst c. congruence. }
  split; [|split; [exact Hlast|split; [exact Hnot1|split; [|split]]]].
  - intros st1 H1. rewrite (engulf_loop_get _ _ our_obj _ H1).
    rewrite rev_app_distr. simpl. fold matches. rewrite Hm1, Z.eqb_refl.
    reflexivity.
  - destruct (dict_mem key_eqb (matched_area st) (c1, true)) eqn:Hmem;
      [|reflexivity].
    apply dict_mem_in_keys in Hmem.
    destruct Hmem as [[c b] [Hin Hk]]. apply key_eqb_proj in Hk.
    unfold key_proj in Hk. simpl in Hk. injection Hk as Hid ->.
    apply in_dict_keys in Hin. destruct Hin as [area Hin].
    exfalso. exact (Hkey _ _ Hin Hid).
  - intro Hin. destruct (Hun _ Hin) as [_ Hscan]. congruence.
  - intros new_masks' om mask Hagree. unfold render. apply for_each_ext_in.
    intros [om0 mask0] [[obj is_new] area] Hin.
    apply -> in_sorted_by_area in Hin. unfold render_step.
    destruct is_new.
    + unfold dict_lookup. rewrite (Hagree obj (Hkey _ _ Hin)). reflexivity.
    + destruct (dict_get obj_eqb (our_to_new_matching st) obj) as [c|] eqn:Hc;
        [|reflexivity].
      unfold dict_lookup at 2 4. rewrite (Hagree c (Hnot1 _ _ Hc)). reflexivity.
Qed.

(** ** The registry during the rendering *)

Lemma find_entry_update (d : dict ObjectInfo Z) (i j : Z)
  (f : ObjectInfo -> ObjectInfo) :
  (forall o, id (f o) = id o) ->
  find_entry (update_entry d i f) j
  = if j =? i then option_map f (find_entry d i) else find_entry d j.
Proof.
  intro Hf. induction d as [|[o t] d IH]; simpl.
  - destruct (j =? i); reflexivity.
  - destruct (Z.eqb_spec (id o) i) as [Eo|No]; simpl.
    + rewrite Hf. destruct (Z.eqb_spec j i) as [Ej|Nj].
      * subst. rewrite Z.eqb_refl. reflexivity.
      * destruct (Z.eqb_spec (id o) j); [lia | reflexivity].
    + rewrite IH. destruct (Z.eqb_spec (id o) j) as [Ej|Nj].
      * destruct (Z.eqb_spec j i); [lia | reflexivity].
      * reflexivity.
Qed.

Lemma find_entry_app_some (d d' : dict ObjectInfo Z) (i : Z) (o : ObjectInfo) :
  find_entry d i = Some o -> find_entry (d ++ d') i = Some o.
Proof.
  induction d as [|[o0 t] d IH]; simpl; intro H.
  - discriminate H.
  - destruct (id o0 =? i); [exact H | apply IH; exact H].
Qed.

Lemma poke_id (o : ObjectInfo) : id (poke o) = id o.
Proof. reflexivity. Qed.

Lemma unpoke_id (o : ObjectInfo) : id (unpoke o) = id o.
Proof. reflexivity. Qed.

Lemma merge_id (o c : ObjectInfo) : id (merge o c) = id o.
Proof. reflexivity. Qed.

(** A step of the rendering leaves alone the records of the identities it
    is not about. *)
Lemma render_step_other (m : dict ObjectInfo ObjectInfo) (om om' : ObjectManager)
  (mask mask' : tensor Z) (e : area_key * Z) (i : Z) (r : ObjectInfo) :
  render_step our_masks new_masks m (om, mask) e = Ok (om', mask') ->
  key_proj (fst e) <> (i, false) ->
  find_entry (obj_to_tmp_id om) i = Some r ->
  find_entry (obj_to_tmp_id om') i = Some r.
Proof.
  destruct e as [[obj is_new] area]. unfold render_step, key_proj. simpl.
  intros H Hk Hr. destruct is_new.
  - unfold add_new_objects in H. simpl in H. inv_lookup H.
    injection H as <- _. simpl. apply find_entry_app_some. exact Hr.
  - assert (Hi : (i =? id obj) = false).
    { apply Z.eqb_neq. intro E. apply Hk. rewrite E. reflexivity. }
    destruct (dict_get obj_eqb m obj) as [new_obj|].
    + do 2 inv_lookup H. apply bind_ok_inv in H. destruct H as [o [_ H]].
      injection H as <- _. simpl.
      rewrite find_entry_update by apply unpoke_id. rewrite Hi.
      rewrite find_entry_update by (intro; apply merge_id). rewrite Hi.
      exact Hr.
    + inv_lookup H. apply bind_ok_inv in H. destruct H as [o [_ H]].
      injection H as <- _. simpl.
      rewrite find_entry_update by apply poke_id. rewrite Hi. exact Hr.
Qed.

Lemma render_others (m : dict ObjectInfo ObjectInfo) (i : Z) (r : ObjectInfo)
  (es : list (area_key * Z)) :
  (forall e, In e es -> key_proj (fst e) <> (i, false)) ->
  forall s s',
    for_each (render_step our_masks new_masks m) es s = Ok s' ->
    find_entry (obj_to_tmp_id (fst s)) i = Some r ->
    find_entry (obj_to_tmp_id (fst s')) i = Some r.
Proof.
  induction es as [|e es IH]; intros Hes s s' H Hr; simpl in H.
  - injection H as <-. exact Hr.
  - apply bind_ok_inv in H. destruct H as [s1 [H1 H2]].
    apply (IH (fun e' He' => Hes e' (or_intror He')) _ _ H2).
    destruct s as [om mask], s1 as [om1 mask1].
    eapply render_step_other;
      [exact H1 | exact (Hes e (or_introl eq_refl)) | exact Hr].
Qed.

(** The step of a matched object leaves its staleness at zero. *)
Lemma render_step_matched (m : dict ObjectInfo ObjectInfo) (om om' : ObjectManager)
  (mask mask' : tensor Z) (obj new_obj : ObjectInfo) (area : Z) :
  render_step our_masks new_masks m (om, mask) ((obj, false), area)
  = Ok (om', mask') ->
  dict_get obj_eqb m obj = Some new_obj ->
  exists r, find_entry (obj_to_tmp_id om') (id obj) = Some r /\ poke_count r = 0.
Proof.
  unfold render_step. intros H Hm. rewrite Hm in H.
  do 2 inv_lookup H. apply bind_ok_inv in H. destruct H as [o [Ho H]].
  injection H as <- _. simpl.
  rewrite find_entry_update by apply unpoke_id. rewrite Z.eqb_refl.
  unfold find_object_by_id in Ho. simpl in Ho.
  destruct (find_entry (update_entry (obj_to_tmp_id om) (id obj)
                          (fun o0 => merge o0 new_obj)) (id obj)) as [r|];
    [|discriminate Ho].
  exists (unpoke r). split; reflexivity.
Qed.

(** The step of a carried-over object increments its staleness. *)
Lemma render_step_carried (m : dict ObjectInfo ObjectInfo) (om om' : ObjectManager)
  (mask mask' : tensor Z) (obj : ObjectInfo) (area : Z) :
  render_step our_masks new_masks m (om, mask) ((obj, false), area)
  = Ok (om', mask') ->
  dict_get obj_eqb m obj = None ->
  exists r, find_entry (obj_to_tmp_id om) (id obj) = Some r
            /\ find_entry (obj_to_tmp_id om') (id obj) = Some (poke r).
Proof.
  unfold render_step. intros H Hm. rewrite Hm in H.
  inv_lookup H. apply bind_ok_inv in H. destruct H as [o [Ho H]].
  injection H as <- _. simpl.
  rewrite find_entry_update by apply poke_id. rewrite Z.eqb_refl.
  unfold find_object_by_id in Ho.
  destruct (find_entry (obj_to_tmp_id om) (id obj)) as [r|]; [|discriminate Ho].
  exists r. split; reflexivity.
Qed.

(** *** The keys of a matching *)

Lemma insert_by_area_perm (x : area_key * Z) (l : list (area_key * Z)) :
  Permutation (insert_by_area x l) (x :: l).
Proof.
  induction l as [|y l IH]; simpl.
  - apply Permutation_refl.
  - destruct (snd x <? snd y).
    + apply perm_trans with (y :: x :: l).
      * apply perm_skip. exact IH.
      * apply perm_swap.
    + apply Permutation_refl.
Qed.

Lemma sorted_by_area_perm (d : dict area_key Z) :
  Permutation (sorted_by_area d) d.
Proof.
  unfold sorted_by_area. induction d as [|x d IH]; simpl.
  - apply Permutation_refl.
  - apply perm_trans with (x :: fold_right insert_by_area [] d).
    + apply insert_by_area_perm.
    + apply perm_skip. exact IH.
Qed.

Lemma well_keyed_set_area (st : matching) (k : area_key) (a : Z)
  (news : list ObjectInfo) :
  well_keyed st ->
  well_keyed (mkMatching (our_to_new_matching st)
                         (dict_set key_eqb (matched_area st) k a) news).
Proof.
  intros [Hnd Hcov]. split; simpl.
  - apply key_set_nodup. exact Hnd.
  - intros o Ho. rewrite key_mem_set.
    rewrite (Hcov o Ho). apply orb_true_r.
Qed.

Lemma well_keyed_set_match (st : matching) (our_obj new_obj : ObjectInfo)
  (union : Z) :
  well_keyed st ->
  well_keyed (mkMatching
                (dict_set obj_eqb (our_to_new_matching st) our_obj new_obj)
                (dict_set key_eqb (matched_area st) (our_obj, false) union)
                (new_objects st)).
Proof.
  intros [Hnd Hcov]. split; simpl.
  - apply key_set_nodup. exact Hnd.
  - intros o Ho. rewrite obj_mem_set in Ho.
    rewrite key_mem_set.
    apply orb_true_iff in Ho. destruct Ho as [Ho|Ho].
    + apply orb_true_iff. left. apply key_eqb_proj. unfold key_proj. simpl.
      apply obj_eqb_proj in Ho. rewrite Ho. reflexivity.
    + rewrite (Hcov o Ho). apply orb_true_r.
Qed.

Lemma iou_match_step_keyed (ours : list ObjectInfo) (st st' : matching)
  (c : ObjectInfo) :
  well_keyed st ->
  iou_match_step our_masks new_masks our_sums new_sums isthing_status
                 ours st c = Ok st' ->
  well_keyed st'.
Proof.
  intro Hst. unfold iou_match_step.
  destruct (negb (isthing_eqb (isthing c) isthing_status)); intro H.
  - injection H as <-. exact Hst.
  - apply bind_ok_inv in H. destruct H as [[[o u]|] [_ H]].
    + injection H as <-. apply well_keyed_set_match. exact Hst.
    + inv_lookup H. injection H as <-. apply well_keyed_set_area. exact Hst.
Qed.

Lemma engulf_match_step_keyed (ours : list ObjectInfo) (st st' : matching)
  (c : ObjectInfo) :
  well_keyed st ->
  engulf_match_step our_masks new_masks our_sums new_sums isthing_status
                    engulf_threshold ours st c = Ok st' ->
  well_keyed st'.
Proof.
  intro Hst. unfold engulf_match_step.
  destruct (negb (isthing_eqb (isthing c) isthing_status)); intro H.
  - injection H as <-. exact Hst.
  - apply bind_ok_inv in H. destruct H as [[o u| |] [_ H]].
    + injection H as <-. apply well_keyed_set_match. exact Hst.
    + injection H as <-. exact Hst.
    + inv_lookup H. injection H as <-. apply well_keyed_set_area. exact Hst.
Qed.

Lemma carry_step_keyed (st st' : matching) (o : ObjectInfo) :
  well_keyed st ->
  carry_step our_sums isthing_status st o = Ok st' ->
  well_keyed st'.
Proof.
  intro Hst. unfold carry_step.
  destruct (negb (isthing_eqb (isthing o) isthing_status)
            || dict_mem obj_eqb (our_to_new_matching st) o); intro H.
  - injection H as <-. exact Hst.
  - inv_lookup H. injection H as <-. apply well_keyed_set_area. exact Hst.
Qed.

Lemma empty_well_keyed : well_keyed empty_matching.
Proof.
  split; simpl.
  - constructor.
  - intros o H. discriminate H.
Qed.

Lemma matching_well_keyed (ours cands : list ObjectInfo) (st : matching) :
  iou_matching our_masks new_masks our_sums new_sums isthing_status ours cands
  = Ok st
  \/ engulf_matching our_masks new_masks our_sums new_sums isthing_status
                     engulf_threshold ours cands = Ok st ->
  well_keyed st.
Proof.
  unfold iou_matching, engulf_matching. intros [H|H];
    apply bind_ok_inv in H; destruct H as [st0 [H0 H1]];
    apply (for_each_invariant _ well_keyed) in H0;
    try apply empty_well_keyed;
    try (apply (for_each_invariant _ well_keyed) in H1; [exact H1| |exact H0];
         intros s x s'; apply carry_step_keyed).
  - intros s x s'. apply iou_match_step_keyed.
  - intros s x s'. apply engulf_match_step_keyed.
Qed.

(** Every object matched to a candidate leaves the rendering with its
    staleness reset to zero. *)
Lemma matched_object_unpoked (st : matching) (om om' : ObjectManager)
  (mask mask' : tensor Z) (our_obj new_obj : ObjectInfo) :
  well_keyed st ->
  render our_masks new_masks st om mask = Ok (om', mask') ->
  dict_get obj_eqb (our_to_new_matching st) our_obj = Some new_obj ->
  exists r, find_object_by_id om' (id our_obj) = Ok r /\ poke_count r = 0.
Proof.
  intros [Hnd Hcov] H Hm.
  assert (Hmem : dict_mem key_eqb (matched_area st) (our_obj, false) = true).
  { apply Hcov. unfold dict_mem. rewrite Hm. reflexivity. }
  apply dict_mem_in_keys in Hmem. destruct Hmem as [[o b] [Hin Hk]].
  apply key_eqb_proj in Hk. unfold key_proj in Hk. simpl in Hk.
  injection Hk as Hid ->.
  apply in_dict_keys in Hin. destruct Hin as [area Hin].
  apply in_sorted_by_area in Hin.
  destruct (in_split _ _ Hin) as [pre [post E]].
  assert (Hpost : forall e, In e post -> key_proj (fst e) <> (id our_obj, false)).
  { intros e He Hke.
    assert (Hs : NoDup (map key_proj
                          (dict_keys (sorted_by_area (matched_area st))))).
    { unfold dict_keys.
      apply (Permutation_NoDup
               (l := map key_proj (map fst (matched_area st)))); [|exact Hnd].
      apply Permutation_map. apply Permutation_map. apply Permutation_sym.
      apply sorted_by_area_perm. }
    rewrite E in Hs. unfold dict_keys in Hs. rewrite !map_app in Hs.
    simpl in Hs. apply NoDup_remove_2 in Hs. apply Hs.
    apply in_or_app. right. unfold key_proj at 1. simpl. rewrite Hid, <- Hke.
    apply in_map. apply in_map. exact He. }
  unfold render in H. rewrite E, for_each_app in H.
  apply bind_ok_inv in H. destruct H as [[om1 mask1] [H1 H2]].
  cbn [for_each] in H2.
  apply bind_ok_inv in H2. destruct H2 as [[om2 mask2] [H2 H3]].
  assert (Hm' : dict_get obj_eqb (our_to_new_matching st) o = Some new_obj)
    by (rewrite (obj_get_congr _ o our_obj Hid); exact Hm).
  destruct (render_step_matched _ _ _ _ _ H2 Hm') as [r [Hr Hp]].
  exists r. split; [|exact Hp].
  unfold find_object_by_id. rewrite <- Hid.
  rewrite <- Hid in Hpost.
  assert (Hr' : find_entry (obj_to_tmp_id (fst (om', mask'))) (id o) = Some r).
  { eapply render_others; [exact Hpost | exact H3 | exact Hr]. }
  simpl in Hr'. rewrite Hr'. reflexivity.
Qed.

End PassFacts.

(** ** A frame without candidates *)

Lemma for_each_total (S X : Type) (body : S -> X -> result S) (Q : S -> Prop)
  (xs : list X) :
  (forall s x, In x xs -> Q s -> exists s', body s x = Ok s' /\ Q s') ->
  forall s, Q s -> exists s', for_each body xs s = Ok s' /\ Q s'.
Proof.
  induction xs as [|x xs IH]; intros Hbody s Hs; simpl.
  - exists s. auto.
  - destruct (Hbody s x (or_introl eq_refl) Hs) as [s1 [H1 Q1]].
    rewrite H1. simpl. apply IH; [|exact Q1].
    intros s0 y Hy. apply Hbody. right. exact Hy.
Qed.

Lemma registered_ids_update (d : dict ObjectInfo Z) (i : Z)
  (f : ObjectInfo -> ObjectInfo) :
  (forall o, id (f o) = id o) ->
  registered_ids (update_entry d i f) = registered_ids d.
Proof.
  intro Hf. unfold registered_ids. induction d as [|[o t] d IH]; simpl.
  - reflexivity.
  - destruct (id o =? i); simpl.
    + rewrite Hf. reflexivity.
    + rewrite IH. reflexivity.
Qed.

Lemma tmps_update (d : dict ObjectInfo Z) (i : Z) (f : ObjectInfo -> ObjectInfo) :
  map snd (update_entry d i f) = map snd d.
Proof.
  induction d as [|[o t] d IH]; simpl.
  - reflexivity.
  - destruct (id o =? i); simpl; [reflexivity | rewrite IH; reflexivity].
Qed.

Lemma find_entry_registered (d : dict ObjectInfo Z) (i : Z) :
  In i (registered_ids d) <-> exists o, find_entry d i = Some o.
Proof.
  unfold registered_ids. induction d as [|[o t] d IH]; simpl.
  - split; [intros [] | intros [o H]; discriminate H].
  - destruct (Z.eqb_spec (id o) i) as [E|N].
    + split; [intros _; exists o; reflexivity | intros _; left; exact E].
    + rewrite <- IH. split; [intros [H|H]; [contradiction | exact H] | auto].
Qed.

Lemma find_entry_id (d : dict ObjectInfo Z) (i : Z) (o : ObjectInfo) :
  find_entry d i = Some o -> id o = i /\ exists t, In (o, t) d.
Proof.
  induction d as [|[o0 t] d IH]; simpl; intro H.
  - discriminate H.
  - destruct (Z.eqb_spec (id o0) i) as [E|N].
    + injection H as <-. split; [exact E|]. exists t. left. reflexivity.
    + destruct (IH H) as [H1 [t' H2]]. split; [exact H1|].
      exists t'. right. exact H2.
Qed.

Lemma in_registered_ids (d : dict ObjectInfo Z) (o : ObjectInfo) :
  In o (dict_keys d) -> In (id o) (registered_ids d).
Proof.
  unfold dict_keys, registered_ids. intro H.
  apply in_map_iff in H. destruct H as [[o' t] [E H]]. simpl in E. subst o'.
  apply in_map_iff. exists (o, t). auto.
Qed.

(** Lookups in a dictionary built by a comprehension. *)
Lemma dict_mem_fold_set (K V : Type) (eqb : K -> K -> bool) (P : Type)
  (proj : K -> P) (kvs : list (K * V)) (d : dict K V) (k : K) :
  (forall a b, eqb a b = true <-> proj a = proj b) ->
  dict_mem eqb (fold_left (fun d kv => dict_set eqb d (fst kv) (snd kv)) kvs d) k
  = existsb (fun kv => eqb (fst kv) k) kvs || dict_mem eqb d k.
Proof.
  intro Hp. revert d. induction kvs as [|[k0 v0] kvs IH]; intro d; simpl.
  - reflexivity.
  - rewrite IH. rewrite (@dict_mem_set _ _ _ eqb proj Hp).
    destruct (eqb k0 k), (existsb (fun kv => eqb (fst kv) k) kvs); reflexivity.
Qed.

Lemma dict_mem_of_list (V : Type) (kvs : list (ObjectInfo * V)) (k : ObjectInfo) :
  dict_mem obj_eqb (dict_of_list obj_eqb kvs) k
  = existsb (fun kv => obj_eqb (fst kv) k) kvs.
Proof.
  unfold dict_of_list. rewrite (@dict_mem_fold_set _ _ obj_eqb _ id kvs [] k obj_eqb_proj).
  apply orb_false_r.
Qed.

Lemma dict_mem_exists (V : Type) (d : dict ObjectInfo V) (k : ObjectInfo) :
  dict_mem obj_eqb d k = existsb (fun kv => obj_eqb (fst kv) k) d.
Proof.
  unfold dict_mem. induction d as [|[k0 v0] d IH]; simpl.
  - reflexivity.
  - destruct (obj_eqb k0 k); [reflexivity | exact IH].
Qed.

Lemma existsb_flat_map_const (A B : Type) (f : B -> bool) (l : list A) (l' : list B) :
  l <> [] -> existsb f (flat_map (fun _ => l') l) = existsb f l'.
Proof.
  induction l as [|a l IH]; intro H.
  - contradiction.
  - simpl. rewrite existsb_app. destruct l as [|b l].
    + simpl. apply orb_false_r.
    + rewrite IH by discriminate. apply orb_diag.
Qed.

Lemma existsb_over_map (A B : Type) (f : B -> bool) (g : A -> B) (l : list A) :
  existsb f (map g l) = existsb (fun x => f (g x)) l.
Proof.
  induction l as [|a l IH]; simpl; [reflexivity | rewrite IH; reflexivity].
Qed.

(** The cached sums have the keys of the cached masks. *)
Lemma mask_sums_mem (masks : dict ObjectInfo (tensor bool)) (k : ObjectInfo) :
  dict_mem obj_eqb (mask_sums masks) k = dict_mem obj_eqb masks k.
Proof.
  unfold mask_sums. rewrite dict_mem_of_list, dict_mem_exists.
  destruct masks as [|kv masks]; [reflexivity|].
  rewrite existsb_flat_map_const by discriminate.
  rewrite existsb_over_map. reflexivity.
Qed.

(** The masks cached for the registry have a key for every registered
    identity. *)
Lemma our_masks_mem (our_mask : tensor Z) (om : ObjectManager) (k : ObjectInfo) :
  In (id k) (registered_ids (obj_to_tmp_id om)) ->
  dict_mem obj_eqb (one_hot_ours our_mask om) k = true.
Proof.
  intro H. unfold one_hot_ours.
  rewrite dict_mem_of_list, existsb_over_map. apply existsb_exists.
  unfold registered_ids in H. apply in_map_iff in H.
  destruct H as [e [E He]]. exists e. split; [exact He|].
  simpl. apply obj_eqb_proj. exact E.
Qed.

Section CarriedPass.

Variables our_masks new_masks : dict ObjectInfo (tensor bool).
Variables our_sums new_sums : dict ObjectInfo Z.
Variable engulf_threshold : Q.
Variable om0 : ObjectManager.

Hypothesis our_cached : forall k,
  In (id k) (registered_ids (obj_to_tmp_id om0)) ->
  dict_mem obj_eqb our_masks k = true /\ dict_mem obj_eqb our_sums k = true.

Lemma carry_total (status : option bool) (ours : list ObjectInfo) (st : matching) :
  (forall o, In o ours -> In (id o) (registered_ids (obj_to_tmp_id om0))) ->
  exists st', for_each (carry_step our_sums status) ours st = Ok st'.
Proof.
  intro Hours.
  destruct (for_each_total (carry_step our_sums status) (fun _ => True) ours)
    with (s := st) as [st' [H _]]; [|exact I|exists st'; exact H].
  intros s o Ho _. unfold carry_step.
  destruct (negb (isthing_eqb (isthing o) status)
            || dict_mem obj_eqb (our_to_new_matching s) o).
  - exists s. auto.
  - destruct (our_cached o (Hours o Ho)) as [_ Hs].
    destruct (dict_mem_lookup _ _ _ Hs) as [v Hv].
    rewrite (dict_lookup_get _ _ _ Hv). simpl. eexists. auto.
Qed.

(** The step of a carried-over object keeps the state a carrying one. *)
Lemma render_step_carries (s : ObjectManager * tensor Z) (obj : ObjectInfo)
  (area : Z) :
  In (id obj) (registered_ids (obj_to_tmp_id om0)) ->
  carries om0 s ->
  exists s', render_step our_masks new_masks [] s ((obj, false), area) = Ok s'
             /\ carries om0 s'.
Proof.
  intros Hobj [Hids [Htmps [Hhist Hlab]]]. destruct s as [om mask].
  simpl in Hids, Htmps, Hhist, Hlab. unfold render_step. simpl.
  destruct (our_cached obj Hobj) as [Hm _].
  destruct (dict_mem_lookup _ _ _ Hm) as [our Hour].
  rewrite (dict_lookup_get _ _ _ Hour). simpl.
  assert (Hfind : exists o, find_entry (obj_to_tmp_id om) (id obj) = Some o).
  { apply find_entry_registered. rewrite Hids. exact Hobj. }
  destruct Hfind as [o Ho]. unfold find_object_by_id. rewrite Ho. simpl.
  eexists. split; [reflexivity|].
  repeat split; simpl.
  - rewrite registered_ids_update by apply poke_id. exact Hids.
  - rewrite tmps_update. exact Htmps.
  - exact Hhist.
  - intro p. unfold tset. destruct (our p); [right; exact Hobj | apply Hlab].
Qed.

(** The matching of a pass without candidates: nothing is matched, and the
    entries are carried-over objects of the registry. *)
Lemma carry_only (status : option bool) (ours : list ObjectInfo) (st : matching) :
  for_each (carry_step our_sums status) ours empty_matching = Ok st ->
  our_to_new_matching st = []
  /\ well_keyed st
  /\ forall obj is_new area, In ((obj, is_new), area) (matched_area st) ->
       is_new = false /\ In obj ours /\ isthing obj = status.
Proof.
  intro Hst. split; [|split].
  - destruct (carry_matching _ _ _ _ Hst) as [Em _]. exact Em.
  - apply (for_each_invariant _ well_keyed) in Hst;
      [exact Hst | | apply empty_well_keyed].
    intros s x s'. apply carry_step_keyed.
  - apply (for_each_invariant_in _ (in_category status ours [])) in Hst.
    + destruct Hst as [_ Ha]. intros obj is_new area Hin.
      destruct (Ha _ _ _ Hin) as [Ht Hobj].
      destruct is_new; [contradiction|]. auto.
    + intros s x s' Hx Hs. apply carry_step_category; assumption.
    + apply empty_in_category.
Qed.

Lemma carry_render_total (status : option bool) (om : ObjectManager)
  (mask : tensor Z) (st : matching) :
  carries om0 (om, mask) ->
  for_each (carry_step our_sums status) (dict_keys (obj_to_tmp_id om))
           empty_matching = Ok st ->
  exists s', render our_masks new_masks st om mask = Ok s' /\ carries om0 s'.
Proof.
  intros Hs Hst. destruct (carry_only _ _ Hst) as [Em [_ Hkeys]].
  unfold render. rewrite Em. apply for_each_total; [|exact Hs].
  intros s0 [[obj is_new] area] Hin Hs0.
  apply -> in_sorted_by_area in Hin.
  destruct (Hkeys _ _ _ Hin) as [-> [Hobj _]].
  apply render_step_carries; [|exact Hs0].
  destruct Hs as [Hids _]. simpl in Hids. rewrite <- Hids.
  apply in_registered_ids. exact Hobj.
Qed.

(** With no candidate both modes run the same pass. *)
Lemma merge_pass_carried (mode : string) (om : ObjectManager) (mask : tensor Z)
  (status : option bool) :
  mode = "iou"%string \/ mode = "engulf"%string ->
  merge_pass mode our_masks new_masks our_sums new_sums [] engulf_threshold
             (om, mask) status
  = (st <- for_each (carry_step our_sums status)
             (dict_keys (obj_to_tmp_id om)) empty_matching ;;
     render our_masks new_masks st om mask).
Proof.
  unfold merge_pass. intros [->| ->]; reflexivity.
Qed.

(** A pass over a frame without candidates returns, whatever the mode, and
    only carries objects over. *)
Lemma carried_pass_total (mode : string) (s : ObjectManager * tensor Z)
  (status : option bool) :
  carries om0 s ->
  exists s', merge_pass mode our_masks new_masks our_sums new_sums []
                        engulf_threshold s status = Ok s'
             /\ carries om0 s'.
Proof.
  intro Hs. destruct s as [om mask]. unfold merge_pass.
  assert (Hpass : exists s',
            (st <- for_each (carry_step our_sums status)
                     (dict_keys (obj_to_tmp_id om)) empty_matching ;;
             render our_masks new_masks st om mask) = Ok s'
            /\ carries om0 s').
  { destruct (carry_total status (dict_keys (obj_to_tmp_id om)) empty_matching)
      as [st Hst].
    { intros o Ho. destruct Hs as [Hids _]. simpl in Hids. rewrite <- Hids.
      apply in_registered_ids. exact Ho. }
    rewrite Hst. simpl. apply carry_render_total with (status := status);
      assumption. }
  destruct (String.eqb mode "iou"); [exact Hpass|].
  destruct (String.eqb mode "engulf"); [exact Hpass|].
  exists (om, mask). auto.
Qed.

End CarriedPass.

Lemma carried_passes_total (mode : string)
  (our_masks new_masks : dict ObjectInfo (tensor bool)) (engulf_threshold : Q)
  (om0 : ObjectManager) (mask : tensor Z) :
  (forall k, In (id k) (registered_ids (obj_to_tmp_id om0)) ->
             dict_mem obj_eqb our_masks k = true) ->
  (forall p, mask p = 0 \/ In (mask p) (registered_ids (obj_to_tmp_id om0))) ->
  exists s', merge_passes mode our_masks new_masks [] engulf_threshold om0 mask
             = Ok s'
             /\ carries om0 s'.
Proof.
  intros Hmasks Hmask. unfold merge_passes.
  apply for_each_total.
  - intros s status _ Hs. apply carried_pass_total; [|exact Hs].
    intros k Hk. rewrite mask_sums_mem. split; apply Hmasks; exact Hk.
  - repeat split; try reflexivity. exact Hmask.
Qed.

(** *** Relabelling *)

Lemma first_occurrences_in (seen l : list Z) (x : Z) :
  In x (first_occurrences seen l) -> In x l /\ ~ In x seen.
Proof.
  revert seen. induction l as [|y l IH]; intros seen H; simpl in H.
  - contradiction.
  - destruct (existsb (Z.eqb y) seen) eqn:E.
    + destruct (IH _ H) as [H1 H2]. split; [right; exact H1 | exact H2].
    + destruct H as [<-|H].
      * split; [left; reflexivity|]. intro Hin.
        assert (existsb (Z.eqb y) seen = true); [|congruence].
        apply existsb_exists. exists y. split; [exact Hin | apply Z.eqb_refl].
      * destruct (IH _ H) as [H1 H2]. split; [right; exact H1|].
        intro Hin. apply H2. right. exact Hin.
Qed.

Lemma first_occurrences_complete (seen l : list Z) (x : Z) :
  In x l -> ~ In x seen -> In x (first_occurrences seen l).
Proof.
  revert seen. induction l as [|y l IH]; intros seen Hin Hseen; simpl.
  - contradiction.
  - destruct (existsb (Z.eqb y) seen) eqn:E.
    + destruct Hin as [<-|Hin].
      * apply existsb_exists in E. destruct E as [z [Hz Ez]].
        apply Z.eqb_eq in Ez. subst z. contradiction.
      * apply IH; assumption.
    + destruct (Z.eq_dec y x) as [->|N].
      * left. reflexivity.
      * right. destruct Hin as [E'|Hin]; [contradiction|].
        apply IH; [exact Hin|]. intros [E'|H]; [contradiction|].
        apply Hseen. exact H.
Qed.

Lemma first_occurrences_nodup (seen l : list Z) :
  NoDup (first_occurrences seen l).
Proof.
  revert seen. induction l as [|y l IH]; intro seen; simpl.
  - constructor.
  - destruct (existsb (Z.eqb y) seen); [apply IH|].
    constructor; [|apply IH].
    intro H. apply first_occurrences_in in H. destruct H as [_ H].
    apply H. left. reflexivity.
Qed.

Lemma rebuild_total (old : dict ObjectInfo Z) (ids : list Z) :
  (forall i, In i ids -> In i (registered_ids old)) ->
  forall k, exists d, rebuild old ids k = Ok d.
Proof.
  induction ids as [|i ids IH]; intros H k; simpl.
  - exists []. reflexivity.
  - destruct (proj1 (find_entry_registered old i) (H i (or_introl eq_refl)))
      as [o Ho].
    rewrite Ho.
    destruct (IH (fun j Hj => H j (or_intror Hj)) (k + 1)) as [d Hd].
    rewrite Hd. simpl. eexists. reflexivity.
Qed.

Lemma rebuild_in (old : dict ObjectInfo Z) (ids : list Z) :
  forall k d o k',
    rebuild old ids k = Ok d -> In (o, k') d ->
    exists i, In i ids /\ find_entry old i = Some o.
Proof.
  induction ids as [|i ids IH]; intros k d o k' H Hin; simpl in H.
  - injection H as <-. contradiction.
  - destruct (find_entry old i) as [oi|] eqn:Hi; [|discriminate H].
    apply bind_ok_inv in H. destruct H as [d' [Hd' H]].
    injection H as <-. destruct Hin as [E|Hin].
    + injection E as <- _. exists i. split; [left; reflexivity | exact Hi].
    + destruct (IH _ _ _ _ Hd' Hin) as [j [Hj Ho]]. exists j.
      split; [right; exact Hj | exact Ho].
Qed.

(** The relabelling of a carrying state returns; it creates no identity and
    registers only objects that were registered. *)
Lemma make_one_hot_carried (om0 om : ObjectManager) (mask : tensor Z) :
  carries om0 (om, mask) ->
  exists om' out,
    make_one_hot om mask = Ok (om', out)
    /\ all_historical_object_ids om' = all_historical_object_ids om0
    /\ forall o k, In (o, k) (obj_to_tmp_id om') ->
         exists t, In (o, t) (obj_to_tmp_id om).
Proof.
  intros [Hids [_ [Hhist Hlab]]]. simpl in Hids, Hhist, Hlab.
  unfold make_one_hot.
  destruct (rebuild_total (obj_to_tmp_id om) (present_ids mask)) with (k := 1)
    as [d Hd].
  { intros i Hi. unfold present_ids in Hi. apply first_occurrences_in in Hi.
    destruct Hi as [Hi Hz]. apply in_map_iff in Hi. destruct Hi as [p [E _]].
    rewrite Hids. destruct (Hlab p) as [H0|H]; [|rewrite <- E; exact H].
    exfalso. apply Hz. left. congruence. }
  rewrite Hd. simpl. eexists. eexists. split; [reflexivity|].
  split; [exact Hhist|]. simpl. intros o k Hin.
  destruct (@rebuild_in _ _ _ _ _ _ Hd Hin) as [i [_ Ho]].
  apply find_entry_id in Ho. exact (proj2 Ho).
Qed.

Lemma carried_ids (om0 : ObjectManager) (s : ObjectManager * tensor Z)
  (o : ObjectInfo) (t : Z) :
  carries om0 s -> In (o, t) (obj_to_tmp_id (fst s)) ->
  In (id o) (registered_ids (obj_to_tmp_id om0)).
Proof.
  intros [Hids _] Hin. rewrite <- Hids. unfold registered_ids.
  apply in_map_iff. exists (o, t). auto.
Qed.

(** ** The population cap *)

(** C2. When [max_num_objects] is positive and the identities ever created
    together with the candidates of the frame exceed it, the call returns
    with the warning, and returns exactly the registry and the output mask
    of the same call without any candidate, whatever the candidate mask: all
    the candidates are discarded.  No identity is created, so the historical
    identities are those of before the call, and every object registered
    after the call was registered before it. *)
Theorem cap_discards_all_candidates (our_mask new_mask : tensor Z)
  (om : ObjectManager) (cands : list ObjectInfo) (mode : string)
  (max_num_objects : Z) (engulf_threshold : Q) :
  0 < max_num_objects ->
  max_num_objects
  < Z.of_nat (List.length (all_historical_object_ids om))
    + Z.of_nat (List.length cands) ->
  exists out,
    match_and_merge our_mask new_mask om cands mode max_num_objects
                    engulf_threshold = Ok out
    /\ out_warnings out = [cap_warning]
    /\ all_historical_object_ids (out_manager out)
       = all_historical_object_ids om
    /\ (forall o k, In (o, k) (obj_to_tmp_id (out_manager out)) ->
          In (id o) (registered_ids (obj_to_tmp_id om)))
    /\ (forall new_mask',
          match_and_merge our_mask new_mask' om [] mode (-1) engulf_threshold
          = Ok (mkOutcome (out_manager out) (out_mask out) [])).
Proof.
  intros Hpos Hcap. unfold match_and_merge.
  replace (0 <? max_num_objects) with true by (symmetry; apply Z.ltb_lt; exact Hpos).
  replace (max_num_objects <?
           Z.of_nat (List.length (all_historical_object_ids om))
           + Z.of_nat (List.length cands)) with true
    by (symmetry; apply Z.ltb_lt; exact Hcap).
  simpl.
  destruct (carried_passes_total (lower mode)
              (one_hot_ours our_mask om)
              [] engulf_threshold om (zeros_like our_mask))
    as [[om1 mask1] [H1 Hc]].
  { intros k Hk. apply our_masks_mem. exact Hk. }
  { intro p. left. reflexivity. }
  rewrite H1. simpl.
  destruct (make_one_hot_carried Hc) as [om2 [out [H2 [Hhist Hobjs]]]].
  rewrite H2. simpl. eexists. split; [reflexivity|]. simpl.
  split; [reflexivity|]. split; [exact Hhist|]. split.
  - intros o k Hin. destruct (Hobjs o k Hin) as [t Ht].
    exact (carried_ids (s := (om1, mask1)) _ _ Hc Ht).
  - intro new_mask'. unfold one_hot_news, dict_of_list. simpl fold_left.
    rewrite H1. simpl. rewrite H2. reflexivity.
Qed.

(** ** An unknown mode *)

Lemma present_ids_zeros (our_mask : tensor Z) :
  present_ids (zeros_like our_mask) = [].
Proof.
  unfold present_ids, zeros_like.
  induction frame as [|p ps IH]; simpl; [reflexivity | exact IH].
Qed.

(** C3, as the code has it.  The mode is compared with ['iou'] and
    ['engulf'] inside the loop over the category types and there is no
    third branch: with any other mode string the call raises nothing.  No
    pass runs, so the registry handed to the relabelling is the registry of
    before the call (no identity created, no staleness or confidence
    changed), and the call returns a mask that is background everywhere. *)
Theorem unknown_mode_is_silent (our_mask new_mask : tensor Z)
  (om : ObjectManager) (cands : list ObjectInfo) (mode : string)
  (max_num_objects : Z) (engulf_threshold : Q) :
  lower mode <> "iou"%string -> lower mode <> "engulf"%string ->
  (forall our_masks new_masks cands' mask,
     merge_passes (lower mode) our_masks new_masks cands' engulf_threshold
                  om mask = Ok (om, mask))
  /\ exists out,
       match_and_merge our_mask new_mask om cands mode max_num_objects
                       engulf_threshold = Ok out
       /\ (forall p, out_mask out p = 0)
       /\ all_historical_object_ids (out_manager out)
          = all_historical_object_ids om
       /\ (forall o k, In (o, k) (obj_to_tmp_id (out_manager out)) ->
             In (o, k) (obj_to_tmp_id om)).
Proof.
  intros Hiou Hengulf.
  apply String.eqb_neq in Hiou. apply String.eqb_neq in Hengulf.
  assert (Hpasses : forall our_masks new_masks cands' mask,
            merge_passes (lower mode) our_masks new_masks cands'
                         engulf_threshold om mask = Ok (om, mask)).
  { intros our_masks new_masks cands' mask.
    unfold merge_passes, match_isthing, merge_pass. simpl.
    rewrite Hiou, Hengulf. reflexivity. }
  split; [exact Hpasses|].
  unfold match_and_merge. rewrite Hpasses. simpl.
  unfold make_one_hot. rewrite present_ids_zeros. simpl.
  eexists. split; [reflexivity|]. simpl.
  repeat split; try reflexivity. intros o k [].
Qed.

(** ** Carried-over objects, exactly *)

Lemma dict_set_fresh (V : Type) (d : dict ObjectInfo V) (k : ObjectInfo) (v : V) :
  ~ In (id k) (map id (dict_keys d)) -> dict_set obj_eqb d k v = d ++ [(k, v)].
Proof.
  unfold dict_keys. induction d as [|[k0 v0] d IH]; simpl; intro H.
  - reflexivity.
  - destruct (obj_eqb k0 k) eqn:E.
    + apply obj_eqb_proj in E. exfalso. apply H. left. exact E.
    + rewrite IH; [reflexivity|]. intro Hin. apply H. right. exact Hin.
Qed.

Lemma fold_set_nodup (V : Type) (l d : dict ObjectInfo V) :
  NoDup (map id (dict_keys (d ++ l))) ->
  fold_left (fun d kv => dict_set obj_eqb d (fst kv) (snd kv)) l d = d ++ l.
Proof.
  revert d. induction l as [|[k v] l IH]; intros d H; simpl.
  - rewrite app_nil_r. reflexivity.
  - assert (Hk : ~ In (id k) (map id (dict_keys d))).
    { unfold dict_keys in *. rewrite !map_app in H. simpl in H.
      apply NoDup_remove_2 in H. intro Hin. apply H.
      apply in_or_app. left. exact Hin. }
    rewrite (dict_set_fresh d k v Hk), IH.
    + rewrite <- app_assoc. reflexivity.
    + rewrite <- app_assoc. exact H.
Qed.

Lemma dict_get_nodup (V : Type) (d : dict ObjectInfo V) (k0 k : ObjectInfo) (v : V) :
  NoDup (map id (dict_keys d)) -> In (k0, v) d -> id k0 = id k ->
  dict_get obj_eqb d k = Some v.
Proof.
  unfold dict_keys. induction d as [|[k1 v1] d IH]; simpl; intros Hnd Hin E.
  - contradiction.
  - inversion Hnd as [|x l Hx Hnd']; subst.
    destruct Hin as [Hin|Hin].
    + injection Hin as -> ->. unfold obj_eqb. rewrite E, Z.eqb_refl. reflexivity.
    + destruct (obj_eqb k1 k) eqn:E1.
      * apply obj_eqb_proj in E1. exfalso. apply Hx. rewrite E1, <- E.
        apply in_map. apply (in_map fst) in Hin. exact Hin.
      * apply IH; assumption.
Qed.

Lemma registered_ids_keys (d : dict ObjectInfo Z) :
  registered_ids d = map id (dict_keys d).
Proof. unfold registered_ids, dict_keys. rewrite map_map. reflexivity. Qed.

(** The mask cached for a registered object is the set of pixels that
    carry its temporary index. *)
Lemma one_hot_ours_get (our_mask : tensor Z) (om : ObjectManager)
  (o k : ObjectInfo) (t : Z) :
  NoDup (registered_ids (obj_to_tmp_id om)) ->
  In (o, t) (obj_to_tmp_id om) -> id o = id k ->
  dict_get obj_eqb (one_hot_ours our_mask om) k = Some (teq our_mask t).
Proof.
  intros Hnd Hin E. unfold one_hot_ours, dict_of_list.
  assert (Hkeys : dict_keys (map (fun kv : ObjectInfo * Z =>
                                    (fst kv, teq our_mask (snd kv)))
                                 (obj_to_tmp_id om))
                  = dict_keys (obj_to_tmp_id om)).
  { unfold dict_keys. rewrite map_map. reflexivity. }
  rewrite fold_set_nodup.
  - simpl. apply dict_get_nodup with (k0 := o).
    + rewrite Hkeys, <- registered_ids_keys. exact Hnd.
    + apply in_map_iff. exists (o, t). auto.
    + exact E.
  - simpl. rewrite Hkeys, <- registered_ids_keys. exact Hnd.
Qed.

(** Two registries with the same identities and temporary indices,
    position by position. *)
Lemma entry_correspondence (d d0 : dict ObjectInfo Z) (o : ObjectInfo) (t : Z) :
  registered_ids d = registered_ids d0 -> map snd d = map snd d0 ->
  In (o, t) d -> exists o0, In (o0, t) d0 /\ id o0 = id o.
Proof.
  unfold registered_ids. revert d0.
  induction d as [|[o1 t1] d IH]; intros [|[o2 t2] d0] Hids Htmps Hin;
    simpl in *; try contradiction; try discriminate.
  injection Hids as Hid Hids. injection Htmps as Ht Htmps.
  destruct Hin as [Hin|Hin].
  - injection Hin as -> ->. exists o2. split; [left; congruence | congruence].
  - destruct (IH d0 Hids Htmps Hin) as [o0 [H0 E0]]. exists o0. auto.
Qed.

Lemma registry_ext (f : ObjectInfo -> ObjectInfo) (d d' : dict ObjectInfo Z) :
  NoDup (registered_ids d) ->
  registered_ids d' = registered_ids d -> map snd d' = map snd d ->
  (forall i o, find_entry d i = Some o -> find_entry d' i = Some (f o)) ->
  d' = map (fun e => (f (fst e), snd e)) d.
Proof.
  unfold registered_ids. revert d'.
  induction d as [|[o t] d IH]; intros [|[o' t'] d'] Hnd Hids Htmps Hfind;
    simpl in *; try discriminate; [reflexivity|].
  injection Hids as Hid Hids. injection Htmps as Ht Htmps.
  inversion Hnd as [|x l Hx Hnd']; subst.
  pose proof (Hfind (id o) o) as Ho. rewrite Z.eqb_refl, Hid, Z.eqb_refl in Ho.
  specialize (Ho eq_refl). injection Ho as ->.
  f_equal. apply IH; try assumption.
  intros i oi Hi.
  assert (Hne : id o <> i).
  { intro E. subst i. apply Hx. apply find_entry_id in Hi.
    destruct Hi as [E [ti Hin]]. rewrite <- E.
    apply in_map_iff. exists (oi, ti). auto. }
  specialize (Hfind i oi). rewrite Hid in Hfind.
  destruct (Z.eqb_spec (id o) i) as [E|_]; [contradiction|].
  apply Hfind. exact Hi.
Qed.

Lemma find_entry_nodup (d : dict ObjectInfo Z) (o : ObjectInfo) (t : Z) :
  NoDup (registered_ids d) -> In (o, t) d -> find_entry d (id o) = Some o.
Proof.
  unfold registered_ids. induction d as [|[o1 t1] d IH]; simpl; intros Hnd Hin.
  - contradiction.
  - inversion Hnd as [|x l Hx Hnd']; subst.
    destruct Hin as [Hin|Hin].
    + injection Hin as -> ->. rewrite Z.eqb_refl. reflexivity.
    + destruct (Z.eqb_spec (id o1) (id o)) as [E|_].
      * exfalso. apply Hx. rewrite E. apply in_map_iff. exists (o, t). auto.
      * apply IH; assumption.
Qed.

Lemma carry_mem_mono (our_sums : dict ObjectInfo Z) (status : option bool)
  (k : area_key) (ours : list ObjectInfo) (st st' : matching) :
  for_each (carry_step our_sums status) ours st = Ok st' ->
  dict_mem key_eqb (matched_area st) k = true ->
  dict_mem key_eqb (matched_area st') k = true.
Proof.
  intros H Hk.
  apply (for_each_invariant _
           (fun s => dict_mem key_eqb (matched_area s) k = true)) in H;
    [exact H | | exact Hk].
  intros s x s' Hs. unfold carry_step.
  destruct (negb (isthing_eqb (isthing x) status)
            || dict_mem obj_eqb (our_to_new_matching s) x); intro Hx.
  - injection Hx as <-. exact Hs.
  - inv_lookup Hx. injection Hx as <-. simpl.
    rewrite key_mem_set, Hs. apply orb_true_r.
Qed.

(** Every object of the category type of the pass gets an entry. *)
Lemma carry_covers (our_sums : dict ObjectInfo Z) (status : option bool)
  (ours : list ObjectInfo) :
  forall st st',
    for_each (carry_step our_sums status) ours st = Ok st' ->
    our_to_new_matching st = [] ->
    forall o, In o ours -> isthing o = status ->
      dict_mem key_eqb (matched_area st') (o, false) = true.
Proof.
  induction ours as [|o1 rest IH]; intros st st' H Hm o Hin Ht; simpl in H.
  - contradiction.
  - apply bind_ok_inv in H. destruct H as [st1 [H1 H2]].
    destruct Hin as [->|Hin].
    + eapply carry_mem_mono; [exact H2|].
      unfold carry_step in H1. rewrite Ht, Hm in H1.
      replace (isthing_eqb status status) with true in H1
        by (symmetry; apply isthing_eqb_eq; reflexivity).
      simpl in H1. inv_lookup H1. injection H1 as <-. simpl.
      rewrite key_mem_set.
      replace (key_eqb (o, false) (o, false)) with true
        by (symmetry; apply key_eqb_proj; reflexivity).
      reflexivity.
    + eapply IH; [exact H2 | | exact Hin | exact Ht].
      apply carry_step_matching in H1. destruct H1 as [E _]. congruence.
Qed.

Lemma sorted_keys_nodup (st : matching) :
  well_keyed st ->
  NoDup (map key_proj (dict_keys (sorted_by_area (matched_area st)))).
Proof.
  intros [Hnd _]. unfold dict_keys in *.
  apply (Permutation_NoDup (l := map key_proj (map fst (matched_area st))));
    [|exact Hnd].
  apply Permutation_map. apply Permutation_map. apply Permutation_sym.
  apply sorted_by_area_perm.
Qed.

Lemma nodup_split_keys (es pre post : list (area_key * Z)) (e : area_key * Z) :
  NoDup (map key_proj (dict_keys es)) -> es = pre ++ e :: post ->
  forall x, In x (pre ++ post) -> key_proj (fst x) <> key_proj (fst e).
Proof.
  intros Hnd E x Hx Hk. subst es. unfold dict_keys in Hnd.
  rewrite !map_app in Hnd. simpl in Hnd. apply NoDup_remove_2 in Hnd.
  apply Hnd. rewrite <- Hk, <- !map_app. apply in_map. apply in_map. exact Hx.
Qed.

Section CarriedExact.

Variable our_mask : tensor Z.
Variable om0 : ObjectManager.
Variable new_masks : dict ObjectInfo (tensor bool).
Variables our_sums new_sums : dict ObjectInfo Z.
Variable engulf_threshold : Q.

Hypothesis ids_distinct : NoDup (registered_ids (obj_to_tmp_id om0)).
Hypothesis tmps_distinct : NoDup (map snd (obj_to_tmp_id om0)).
Hypothesis sums_cached : forall k,
  In (id k) (registered_ids (obj_to_tmp_id om0)) ->
  dict_mem obj_eqb our_sums k = true.

Lemma ours_cached (k : ObjectInfo) :
  In (id k) (registered_ids (obj_to_tmp_id om0)) ->
  dict_mem obj_eqb (one_hot_ours our_mask om0) k = true
  /\ dict_mem obj_eqb our_sums k = true.
Proof.
  intro H. split; [apply our_masks_mem | apply sums_cached]; exact H.
Qed.

(** A carried-over entry claims the pixels that carry the temporary index
    of its object. *)
Lemma claims_carried (om : ObjectManager) (mask : tensor Z) (o : ObjectInfo)
  (t area : Z) (p : pixel) :
  carries om0 (om, mask) -> In (o, t) (obj_to_tmp_id om) ->
  claims (one_hot_ours our_mask om0) new_masks [] ((o, false), area) p
  = (our_mask p =? t).
Proof.
  intros [Hids [Htmps _]] Hin. simpl in Hids, Htmps.
  destruct (entry_correspondence _ _ _ _ Hids Htmps Hin) as [o0 [H0 E0]].
  unfold claims, mask_at. simpl.
  rewrite (one_hot_ours_get our_mask om0 o0 o t ids_distinct H0 E0).
  reflexivity.
Qed.

Lemma carried_pass_exact (mode : string) (status : option bool)
  (om : ObjectManager) (mask : tensor Z) :
  mode = "iou"%string \/ mode = "engulf"%string ->
  carries om0 (om, mask) ->
  exists mask',
    merge_pass mode (one_hot_ours our_mask om0) new_masks our_sums new_sums []
               engulf_threshold (om, mask) status
    = Ok (mkObjectManager (map (poke_if status) (obj_to_tmp_id om))
                          (all_historical_object_ids om), mask')
    /\ carries om0
         (mkObjectManager (map (poke_if status) (obj_to_tmp_id om))
                          (all_historical_object_ids om), mask')
    /\ (forall o t p, In (o, t) (obj_to_tmp_id om) -> isthing o = status ->
          our_mask p = t -> mask' p = id o)
    /\ (forall p,
          (forall o t, In (o, t) (obj_to_tmp_id om) -> isthing o = status ->
             our_mask p <> t) ->
          mask' p = mask p).
Proof.
  intros Hmode Hs. rewrite merge_pass_carried by exact Hmode.
  assert (Hours : forall o, In o (dict_keys (obj_to_tmp_id om)) ->
                            In (id o) (registered_ids (obj_to_tmp_id om0))).
  { intros o Ho. destruct Hs as [Hids _]. simpl in Hids. rewrite <- Hids.
    apply in_registered_ids. exact Ho. }
  destruct (carry_total (one_hot_ours our_mask om0) our_sums om0 ours_cached
              status (dict_keys (obj_to_tmp_id om)) empty_matching Hours)
    as [st Hst].
  rewrite Hst. cbn [bind].
  destruct (carry_render_total (one_hot_ours our_mask om0) new_masks our_sums
              ours_cached status Hs Hst) as [[om' mask'] [Hr Hc']].
  destruct (carry_only our_sums status _ Hst) as [Em [Hwk Hkeys]].
  pose proof (sorted_keys_nodup Hwk) as Hnd.
  pose proof (fun o Ho Ht => carry_covers our_sums _ _ Hst eq_refl o Ho Ht)
    as Hcov.
  pose proof Hs as [Hids [Htmps [Hhist _]]]. simpl in Hids, Htmps, Hhist.
  assert (Hnd_ids : NoDup (map id (dict_keys (obj_to_tmp_id om))))
    by (rewrite <- registered_ids_keys, Hids; exact ids_distinct).
  assert (Hnd_tmps : NoDup (map snd (obj_to_tmp_id om)))
    by (rewrite Htmps; exact tmps_distinct).
  assert (Hkey_in : forall o t, In (o, t) (obj_to_tmp_id om) ->
                                In o (dict_keys (obj_to_tmp_id om))).
  { intros o t Hin. unfold dict_keys. apply in_map_iff. exists (o, t). auto. }
  (* the entry of an object of the pass *)
  assert (Hentry : forall o, In o (dict_keys (obj_to_tmp_id om)) ->
            isthing o = status ->
            exists area pre post,
              sorted_by_area (matched_area st)
              = pre ++ ((o, false), area) :: post
              /\ forall x, In x (pre ++ post) ->
                   key_proj (fst x) <> (id o, false)).
  { intros o Ho Ht. specialize (Hcov o Ho Ht).
    apply dict_mem_in_keys in Hcov. destruct Hcov as [[o' b] [Hin Hk]].
    apply key_eqb_proj in Hk. unfold key_proj in Hk. simpl in Hk.
    injection Hk as Hid ->.
    apply in_dict_keys in Hin. destruct Hin as [area Hin].
    destruct (Hkeys _ _ _ Hin) as [_ [Ho' _]].
    assert (o' = o) by (apply (NoDup_map_eq id _ o' o Hnd_ids); assumption).
    subst o'. apply in_sorted_by_area in Hin.
    destruct (in_split _ _ Hin) as [pre [post E]].
    exists area, pre, post. split; [exact E|].
    intros x Hx. exact (@nodup_split_keys _ pre post _ Hnd E x Hx). }
  unfold render in Hr. rewrite Em in Hr.
  (* the registry *)
  assert (Hreg : obj_to_tmp_id om' = map (poke_if status) (obj_to_tmp_id om)).
  { destruct Hc' as [Hids' [Htmps' _]]. simpl in Hids', Htmps'.
    rewrite (registry_ext
               (fun o => if isthing_eqb (isthing o) status then poke o else o)
               (obj_to_tmp_id om) (obj_to_tmp_id om')).
    - apply map_ext. intros [o t]. unfold poke_if, poke_entry. simpl.
      destruct (isthing_eqb (isthing o) status); reflexivity.
    - rewrite Hids. exact ids_distinct.
    - congruence.
    - congruence.
    - intros i o Hi. destruct (find_entry_id _ _ Hi) as [Eid [t Hin]].
      destruct (isthing_eqb (isthing o) status) eqn:Ht.
      + apply isthing_eqb_eq in Ht.
        destruct (Hentry o (Hkey_in _ _ Hin) Ht) as [area [pre [post [E Hx]]]].
        rewrite Eid in Hx. rewrite E, for_each_app in Hr.
        apply bind_ok_inv in Hr. destruct Hr as [[om1 mask1] [H1 H2]].
        cbn [for_each] in H2. apply bind_ok_inv in H2.
        destruct H2 as [[om2 mask2] [H2 H3]].
        assert (Hi1 : find_entry (obj_to_tmp_id (fst (om1, mask1))) i = Some o).
        { eapply render_others; [|exact H1|exact Hi].
          intros e He. apply Hx. apply in_or_app. left. exact He. }
        simpl in Hi1.
        destruct (render_step_carried _ _ _ _ _ _ _ H2 eq_refl)
          as [r [Hr1 Hr2]].
        rewrite Eid, Hi1 in Hr1. injection Hr1 as <-. rewrite Eid in Hr2.
        change (find_entry (obj_to_tmp_id (fst (om', mask'))) i = Some (poke o)).
        eapply render_others; [|exact H3|exact Hr2].
        intros e He. apply Hx. apply in_or_app. right. exact He.
      + change (find_entry (obj_to_tmp_id (fst (om', mask'))) i = Some o).
        eapply render_others; [|exact Hr|exact Hi].
        intros [[o' b] area] He Hk. apply -> in_sorted_by_area in He.
        destruct (Hkeys _ _ _ He) as [_ [Ho' Ht']].
        unfold key_proj in Hk. simpl in Hk. injection Hk as Hid _.
        assert (o' = o).
        { apply (NoDup_map_eq id _ o' o Hnd_ids);
            [exact Ho' | exact (Hkey_in _ _ Hin) | congruence]. }
        subst o'. apply isthing_eqb_eq in Ht'. congruence. }
  assert (Eom : om' = mkObjectManager (map (poke_if status) (obj_to_tmp_id om))
                                      (all_historical_object_ids om)).
  { destruct Hc' as [_ [_ [Hhist' _]]]. destruct om' as [d' h'].
    simpl in *. congruence. }
  rewrite Eom in Hc'.
  exists mask'. split.
  { unfold render. rewrite Em, Hr, Eom. reflexivity. }
  split; [exact Hc'|]. split.
  - (* a pixel of an object of the pass *)
    intros o t p Hin Ht Hp.
    destruct (Hentry o (Hkey_in _ _ Hin) Ht) as [area [pre [post [E Hx]]]].
    rewrite E in Hr.
    assert (Hc1 : claims (one_hot_ours our_mask om0) new_masks []
                         ((o, false), area) p = true).
    { rewrite (@claims_carried om mask o t area p Hs Hin).
      apply Z.eqb_eq. exact Hp. }
    assert (Hc2 : forall e, In e post ->
                    claims (one_hot_ours our_mask om0) new_masks [] e p = false).
    { intros [[o' b] area'] He.
      assert (Hin' : In ((o', b), area') (matched_area st)).
      { apply in_sorted_by_area. rewrite E. apply in_or_app. right. right.
        exact He. }
      destruct (Hkeys _ _ _ Hin') as [-> [Ho' _]].
      unfold dict_keys in Ho'. apply in_map_iff in Ho'.
      destruct Ho' as [[o2 t2] [Eo Hin2]]. simpl in Eo. subst o2.
      etransitivity; [exact (@claims_carried om mask o' t2 area' p Hs Hin2)|].
      apply Z.eqb_neq. intro Et.
      assert (Heq : (o', t2) = (o, t)).
      { apply (NoDup_map_eq snd _ _ _ Hnd_tmps Hin2 Hin). simpl. congruence. }
      injection Heq as -> _.
      apply (Hx ((o, false), area')); [|reflexivity].
      apply in_or_app. right. exact He. }
    destruct (render_last_claimant _ _ _ p pre post _ _ _ Hr Hc1 Hc2)
      as [om1 [mask1 [_ Hlab]]].
    exact Hlab.
  - (* a pixel of no object of the pass *)
    intros p Hp.
    assert (Hc : forall e, In e (sorted_by_area (matched_area st)) ->
                   claims (one_hot_ours our_mask om0) new_masks [] e p = false).
    { intros [[o' b] area'] He. apply -> in_sorted_by_area in He.
      destruct (Hkeys _ _ _ He) as [-> [Ho' Ht']].
      unfold dict_keys in Ho'. apply in_map_iff in Ho'.
      destruct Ho' as [[o2 t2] [Eo Hin2]]. simpl in Eo. subst o2.
      etransitivity; [exact (@claims_carried om mask o' t2 area' p Hs Hin2)|].
      apply Z.eqb_neq. exact (Hp _ _ Hin2 Ht'). }
    exact (render_unclaimed _ _ _ _ _ Hc (om, mask) Hr).
Qed.

Lemma poke_among_fields (done : list (option bool)) (e : ObjectInfo * Z) :
  id (fst (poke_among done e)) = id (fst e)
  /\ isthing (fst (poke_among done e)) = isthing (fst e)
  /\ snd (poke_among done e) = snd e.
Proof.
  unfold poke_among, poke_entry.
  destruct (existsb (isthing_eqb (isthing (fst e))) done); auto.
Qed.

Lemma poke_if_among (s : option bool) (done : list (option bool))
  (e : ObjectInfo * Z) :
  ~ In s done ->
  poke_if s (poke_among done e) = poke_among (s :: done) e.
Proof.
  intro Hs. destruct (poke_among_fields done e) as [_ [Ht _]].
  unfold poke_if. rewrite Ht.
  change (poke_among (s :: done) e)
    with (if isthing_eqb (isthing (fst e)) s
             || existsb (isthing_eqb (isthing (fst e))) done
          then poke_entry e else e).
  destruct (isthing_eqb (isthing (fst e)) s) eqn:E; simpl.
  - apply isthing_eqb_eq in E.
    assert (Hd : existsb (isthing_eqb (isthing (fst e))) done = false).
    { destruct (existsb (isthing_eqb (isthing (fst e))) done) eqn:Ed;
        [|reflexivity].
      apply existsb_exists in Ed. destruct Ed as [s' [Hin Es']].
      apply isthing_eqb_eq in Es'. exfalso. apply Hs. congruence. }
    unfold poke_among. rewrite Hd. reflexivity.
  - reflexivity.
Qed.

(** The passes over a frame without candidates, one category type after the
    other: every object of a category type already processed is poked once
    and owns the pixels that carried its temporary index. *)
Lemma carried_passes_exact (mode : string) (mask0 : tensor Z)
  (statuses : list (option bool)) :
  mode = "iou"%string \/ mode = "engulf"%string ->
  NoDup statuses ->
  forall done om mask,
    (forall s, In s statuses -> ~ In s done) ->
    carries om0 (om, mask) ->
    obj_to_tmp_id om = map (poke_among done) (obj_to_tmp_id om0) ->
    (forall o t p, In (o, t) (obj_to_tmp_id om0) -> our_mask p = t ->
       mask p = if existsb (isthing_eqb (isthing o)) done then id o
                else mask0 p) ->
    (forall p, (forall o t, In (o, t) (obj_to_tmp_id om0) -> our_mask p <> t) ->
       mask p = mask0 p) ->
    exists mask',
      for_each (merge_pass mode (one_hot_ours our_mask om0) new_masks our_sums
                           new_sums [] engulf_threshold)
               statuses (om, mask)
      = Ok (mkObjectManager
              (map (poke_among (rev statuses ++ done)) (obj_to_tmp_id om0))
              (all_historical_object_ids om0), mask')
      /\ (forall o t p, In (o, t) (obj_to_tmp_id om0) -> our_mask p = t ->
            mask' p = if existsb (isthing_eqb (isthing o)) (rev statuses ++ done)
                      then id o else mask0 p)
      /\ (forall p,
            (forall o t, In (o, t) (obj_to_tmp_id om0) -> our_mask p <> t) ->
            mask' p = mask0 p).
Proof.
  intros Hmode Hnd. induction statuses as [|s rest IH];
    intros done om mask Hdone Hs Hreg Hown Hfree.
  - simpl. exists mask. split; [|split; assumption].
    destruct Hs as [_ [_ [Hhist _]]]. simpl in Hhist.
    destruct om as [d h]. simpl in *. congruence.
  - inversion Hnd as [|x l Hsrest Hnd']; subst.
    destruct (carried_pass_exact s Hmode Hs) as [mask1 [H1 [Hc1 [Hb1 Hb2]]]].
    cbn [for_each]. rewrite H1. cbn [bind].
    assert (Hsd : ~ In s done) by (apply Hdone; left; reflexivity).
    assert (Hreg1 : map (poke_if s) (obj_to_tmp_id om)
                    = map (poke_among (s :: done)) (obj_to_tmp_id om0)).
    { rewrite Hreg, map_map. apply map_ext. intro e.
      apply poke_if_among. exact Hsd. }
    assert (Hcur : forall o2 t2, In (o2, t2) (obj_to_tmp_id om) ->
              exists e0, In e0 (obj_to_tmp_id om0) /\ snd e0 = t2
                         /\ isthing (fst e0) = isthing o2).
    { intros o2 t2 Hin. rewrite Hreg in Hin. apply in_map_iff in Hin.
      destruct Hin as [e0 [E0 Hin0]]. exists e0.
      destruct (poke_among_fields done e0) as [_ [Ht Hsnd]].
      rewrite E0 in Ht, Hsnd. simpl in Ht, Hsnd. auto. }
    destruct (IH Hnd' (s :: done)
                 (mkObjectManager (map (poke_if s) (obj_to_tmp_id om))
                                  (all_historical_object_ids om)) mask1)
      as [mask' [H' [Hown' Hfree']]].
    + intros s' Hs' [E|Hin]; [subst; contradiction|].
      apply (Hdone s'); [right; exact Hs' | exact Hin].
    + exact Hc1.
    + exact Hreg1.
    + intros o t p Hin Hp. simpl.
      destruct (isthing_eqb (isthing o) s) eqn:Et; simpl.
      * apply isthing_eqb_eq in Et.
        destruct (poke_among_fields done (o, t)) as [Hid [Hth Htm]].
        simpl in Hid, Hth, Htm. rewrite <- Hid.
        apply (Hb1 _ (snd (poke_among done (o, t)))).
        -- rewrite Hreg. rewrite <- surjective_pairing.
           apply in_map. exact Hin.
        -- congruence.
        -- congruence.
      * rewrite <- (Hown o t p Hin Hp). apply Hb2.
        intros o2 t2 Hin2 Ht2 Hp2.
        destruct (Hcur _ _ Hin2) as [[o0 t0] [Hin0 [E0 Ht0]]].
        simpl in E0, Ht0.
        assert (Heq : (o0, t0) = (o, t)).
        { apply (NoDup_map_eq snd _ _ _ tmps_distinct Hin0 Hin).
          simpl. congruence. }
        injection Heq as -> _.
        assert (isthing_eqb (isthing o) s = true)
          by (apply isthing_eqb_eq; congruence).
        congruence.
    + intros p Hp. rewrite <- (Hfree p Hp). apply Hb2.
      intros o2 t2 Hin2 _ Hp2.
      destruct (Hcur _ _ Hin2) as [[o0 t0] [Hin0 [E0 _]]]. simpl in E0.
      apply (Hp o0 t0 Hin0). congruence.
    + exists mask'. simpl rev. rewrite <- app_assoc. simpl.
      split; [|split; assumption].
      rewrite H'. destruct Hs as [_ [_ [Hhist _]]]. reflexivity.
Qed.

End CarriedExact.

Lemma rebuild_find (old : dict ObjectInfo Z) (ids : list Z) (i : Z)
  (o : ObjectInfo) :
  forall k d,
    rebuild old ids k = Ok d -> In i ids -> find_entry old i = Some o ->
    exists k', In (o, k') d /\ tmp_of_id d i = k'.
Proof.
  induction ids as [|j ids IH]; intros k d H Hin Ho; simpl in H.
  - contradiction.
  - destruct (find_entry old j) as [oj|] eqn:Hj; [|discriminate H].
    apply bind_ok_inv in H. destruct H as [d' [Hd' H]]. injection H as <-.
    destruct (find_entry_id _ _ Hj) as [Ej _].
    destruct (Z.eq_dec j i) as [->|N].
    + exists k. rewrite Ho in Hj. injection Hj as <-.
      split; [left; reflexivity|]. simpl. rewrite Ej, Z.eqb_refl. reflexivity.
    + destruct Hin as [E|Hin]; [contradiction|].
      destruct (IH _ _ Hd' Hin Ho) as [k' [Hk' Ek']].
      exists k'. split; [right; exact Hk'|]. simpl.
      destruct (Z.eqb_spec (id oj) i) as [E|_]; [congruence | exact Ek'].
Qed.

(** After the relabelling a labelled pixel carries the temporary index of
    the record registered for its label. *)
Lemma make_one_hot_pixel (om om' : ObjectManager) (mask out : tensor Z)
  (p : pixel) (o : ObjectInfo) :
  make_one_hot om mask = Ok (om', out) ->
  In p frame -> mask p <> 0 ->
  find_entry (obj_to_tmp_id om) (mask p) = Some o ->
  exists k, In (o, k) (obj_to_tmp_id om') /\ out p = k.
Proof.
  unfold make_one_hot. intros H Hp Hz Ho.
  apply bind_ok_inv in H. destruct H as [d [Hd H]]. injection H as <- <-.
  simpl. eapply rebuild_find; [exact Hd | | exact Ho].
  unfold present_ids. apply first_occurrences_complete.
  - apply in_map. exact Hp.
  - intros [E|[]]. apply Hz. symmetry. exact E.
Qed.

(** *** A registry that a relabelling left for the mask *)

Lemma id_of_tmp_in (d : dict ObjectInfo Z) (o : ObjectInfo) (t : Z) :
  NoDup (map snd d) -> In (o, t) d -> id_of_tmp d t = id o.
Proof.
  induction d as [|[o1 t1] d IH]; simpl; intros Hnd Hin.
  - contradiction.
  - inversion Hnd as [|x l Hx Hnd']; subst.
    destruct Hin as [Hin|Hin].
    + injection Hin as -> ->. rewrite Z.eqb_refl. reflexivity.
    + destruct (Z.eqb_spec t1 t) as [E|_].
      * exfalso. apply Hx. rewrite E. apply in_map_iff. exists (o, t). auto.
      * apply IH; assumption.
Qed.

Lemma id_of_tmp_none (d : dict ObjectInfo Z) (t : Z) :
  ~ In t (map snd d) -> id_of_tmp d t = 0.
Proof.
  induction d as [|[o1 t1] d IH]; simpl; intro H.
  - reflexivity.
  - destruct (Z.eqb_spec t1 t) as [E|_]; [exfalso; apply H; left; exact E|].
    apply IH. intro Hin. apply H. right. exact Hin.
Qed.

Lemma tmp_of_id_in (d : dict ObjectInfo Z) (o : ObjectInfo) (t : Z) :
  NoDup (registered_ids d) -> In (o, t) d -> tmp_of_id d (id o) = t.
Proof.
  unfold registered_ids. induction d as [|[o1 t1] d IH]; simpl; intros Hnd Hin.
  - contradiction.
  - inversion Hnd as [|x l Hx Hnd']; subst.
    destruct Hin as [Hin|Hin].
    + injection Hin as -> ->. rewrite Z.eqb_refl. reflexivity.
    + destruct (Z.eqb_spec (id o1) (id o)) as [E|_].
      * exfalso. apply Hx. rewrite E. apply in_map_iff. exists (o, t). auto.
      * apply IH; assumption.
Qed.

Lemma tmp_of_id_none (d : dict ObjectInfo Z) (i : Z) :
  ~ In i (registered_ids d) -> tmp_of_id d i = 0.
Proof.
  unfold registered_ids. induction d as [|[o1 t1] d IH]; simpl; intro H.
  - reflexivity.
  - destruct (Z.eqb_spec (id o1) i) as [E|_]; [exfalso; apply H; left; exact E|].
    apply IH. intro Hin. apply H. right. exact Hin.
Qed.

(** Renaming the labels one to one renames their first occurrences. *)
Lemma first_occurrences_map (g : Z -> Z) (l : list Z) :
  forall seen,
    (forall x y, In x (seen ++ l) -> In y (seen ++ l) -> g x = g y -> x = y) ->
    first_occurrences (map g seen) (map g l) = map g (first_occurrences seen l).
Proof.
  induction l as [|x l IH]; intros seen Hinj; simpl.
  - reflexivity.
  - assert (Hseen : existsb (Z.eqb (g x)) (map g seen)
                    = existsb (Z.eqb x) seen).
    { rewrite existsb_over_map.
      destruct (existsb (Z.eqb x) seen) eqn:E.
      - apply existsb_exists in E. destruct E as [y [Hy Exy]].
        apply existsb_exists. exists y. split; [exact Hy|].
        apply Z.eqb_eq in Exy. subst y. apply Z.eqb_refl.
      - destruct (existsb (fun y => g x =? g y) seen) eqn:E'; [|reflexivity].
        apply existsb_exists in E'. destruct E' as [y [Hy Exy]].
        apply Z.eqb_eq in Exy.
        assert (x = y).
        { apply Hinj; [| |exact Exy].
          - apply in_or_app. right. left. reflexivity.
          - apply in_or_app. left. exact Hy. }
        subst y.
        assert (existsb (Z.eqb x) seen = true); [|congruence].
        apply existsb_exists. exists x. split; [exact Hy | apply Z.eqb_refl]. }
    rewrite Hseen. destruct (existsb (Z.eqb x) seen).
    + apply IH. intros a b Ha Hb. apply Hinj.
      * apply in_app_or in Ha. apply in_or_app.
        destruct Ha as [Ha|Ha]; [left; exact Ha | right; right; exact Ha].
      * apply in_app_or in Hb. apply in_or_app.
        destruct Hb as [Hb|Hb]; [left; exact Hb | right; right; exact Hb].
    + simpl. f_equal. apply (IH (x :: seen)). intros a b Ha Hb. apply Hinj.
      * apply in_or_app. destruct Ha as [<-|Ha]; [right; left; reflexivity|].
        apply in_app_or in Ha.
        destruct Ha as [Ha|Ha]; [left; exact Ha | right; right; exact Ha].
      * apply in_or_app. destruct Hb as [<-|Hb]; [right; left; reflexivity|].
        apply in_app_or in Hb.
        destruct Hb as [Hb|Hb]; [left; exact Hb | right; right; exact Hb].
Qed.

(** Rebuilding a registry from its own identities, numbered as it is,
    gives it back. *)
Lemma rebuild_self (old : dict ObjectInfo Z) :
  NoDup (registered_ids old) ->
  forall d k, incl d old -> numbered_from k d ->
    rebuild old (registered_ids d) k = Ok d.
Proof.
  intros Hnd d. induction d as [|[o t] d IH]; intros k Hincl Hnum; simpl.
  - reflexivity.
  - destruct Hnum as [-> Hnum].
    rewrite (find_entry_nodup old o k Hnd (Hincl _ (or_introl eq_refl))).
    rewrite (IH (k + 1)); [reflexivity | | exact Hnum].
    intros e He. apply Hincl. right. exact He.
Qed.

Lemma numbered_from_poked (d : dict ObjectInfo Z) :
  forall k, numbered_from k d -> numbered_from k (map poke_entry d).
Proof.
  induction d as [|[o t] d IH]; simpl; intros k H.
  - exact I.
  - destruct H as [-> H]. split; [reflexivity | apply IH; exact H].
Qed.

(** When the registry is the one a relabelling left for the mask, the
    relabelling of the carried-over objects registers the poked records
    under the indices they had and gives back the mask. *)
Lemma relabel_carried_same (our_mask merged : tensor Z) (om : ObjectManager) :
  NoDup (registered_ids (obj_to_tmp_id om)) ->
  (forall o t, In (o, t) (obj_to_tmp_id om) -> id o <> 0) ->
  relabelled om our_mask ->
  (forall o t p, In (o, t) (obj_to_tmp_id om) -> our_mask p = t ->
     merged p = id o) ->
  (forall p, (forall o t, In (o, t) (obj_to_tmp_id om) -> our_mask p <> t) ->
     merged p = 0) ->
  exists out,
    make_one_hot (mkObjectManager (map poke_entry (obj_to_tmp_id om))
                                  (all_historical_object_ids om)) merged
    = Ok (mkObjectManager (map poke_entry (obj_to_tmp_id om))
                          (all_historical_object_ids om), out)
    /\ agree out our_mask.
Proof.
  intros Hids Hnz [Htmps Hnum] Hown Hfree.
  set (d := obj_to_tmp_id om) in *.
  assert (Hnd : NoDup (map snd d)).
  { rewrite Htmps. apply first_occurrences_nodup. }
  assert (Hzero : ~ In 0 (map snd d)).
  { rewrite Htmps. intro H. apply first_occurrences_in in H.
    apply (proj2 H). left. reflexivity. }
  assert (Hlabel : forall p, In p frame ->
            our_mask p = 0 \/ exists o, In (o, our_mask p) d).
  { intros p Hp. destruct (Z.eq_dec (our_mask p) 0) as [E|N]; [left; exact E|].
    right.
    assert (Hin : In (our_mask p) (map snd d)).
    { rewrite Htmps. apply first_occurrences_complete.
      - apply in_map. exact Hp.
      - intros [E|[]]. apply N. symmetry. exact E. }
    apply in_map_iff in Hin. destruct Hin as [[o t] [E Hin]]. simpl in E.
    subst t. exists o. exact Hin. }
  assert (Hmerged : forall p, In p frame -> merged p = id_of_tmp d (our_mask p)).
  { intros p Hp. destruct (Hlabel p Hp) as [E|[o Ho]].
    - rewrite E, (id_of_tmp_none d 0 Hzero). apply Hfree.
      intros o t Hin Et. apply Hzero. apply in_map_iff. exists (o, t).
      split; [simpl; congruence | exact Hin].
    - rewrite (id_of_tmp_in d o (our_mask p) Hnd Ho).
      exact (Hown o (our_mask p) p Ho eq_refl). }
  assert (Hinj : forall x y, In x ([0] ++ map our_mask frame) ->
            In y ([0] ++ map our_mask frame) ->
            id_of_tmp d x = id_of_tmp d y -> x = y).
  { assert (Hcase : forall x, In x ([0] ++ map our_mask frame) ->
              x = 0 \/ exists o, In (o, x) d).
    { intros x [<-|Hx]; [left; reflexivity|].
      apply in_map_iff in Hx. destruct Hx as [p [<- Hp]]. apply Hlabel, Hp. }
    intros x y Hx Hy E.
    destruct (Hcase x Hx) as [->|[ox Hox]], (Hcase y Hy) as [->|[oy Hoy]].
    - reflexivity.
    - rewrite (id_of_tmp_none d 0 Hzero), (id_of_tmp_in d oy y Hnd Hoy) in E.
      exfalso. apply (Hnz oy y Hoy). symmetry. exact E.
    - rewrite (id_of_tmp_none d 0 Hzero), (id_of_tmp_in d ox x Hnd Hox) in E.
      exfalso. exact (Hnz ox x Hox E).
    - rewrite (id_of_tmp_in d ox x Hnd Hox), (id_of_tmp_in d oy y Hnd Hoy) in E.
      assert (Heq : (ox, x) = (oy, y)).
      { apply (NoDup_map_eq (fun e : ObjectInfo * Z => id (fst e)) _ _ _ Hids
                 Hox Hoy). exact E. }
      congruence. }
  assert (Hpresent : present_ids merged = registered_ids d).
  { unfold present_ids.
    rewrite (map_ext_in merged (fun p => id_of_tmp d (our_mask p)) frame Hmerged).
    rewrite <- (map_map our_mask (id_of_tmp d)).
    transitivity (first_occurrences (map (id_of_tmp d) [0])
                    (map (id_of_tmp d) (map our_mask frame))).
    { cbn [map]. rewrite (id_of_tmp_none d 0 Hzero). reflexivity. }
    rewrite (first_occurrences_map (id_of_tmp d) (map our_mask frame) [0] Hinj).
    fold (present_ids our_mask). rewrite <- Htmps, map_map.
    unfold registered_ids. apply map_ext_in. intros [o t] Hin. simpl.
    apply id_of_tmp_in; assumption. }
  assert (Hids' : NoDup (registered_ids (map poke_entry d))).
  { unfold registered_ids. rewrite map_map. exact Hids. }
  unfold make_one_hot. cbn [obj_to_tmp_id all_historical_object_ids].
  rewrite Hpresent.
  replace (registered_ids d) with (registered_ids (map poke_entry d))
    by (unfold registered_ids; rewrite map_map; reflexivity).
  rewrite (rebuild_self Hids' 1 (incl_refl _) (numbered_from_poked d 1 Hnum)).
  cbn [bind]. eexists. split; [reflexivity|].
  intros p Hp. simpl. rewrite (Hmerged p Hp).
  destruct (Hlabel p Hp) as [E|[o Ho]].
  - rewrite E, (id_of_tmp_none d 0 Hzero). apply tmp_of_id_none.
    unfold registered_ids. rewrite map_map. intro Hin.
    apply in_map_iff in Hin. destruct Hin as [[o t] [Eo Hin]]. simpl in Eo.
    exact (Hnz o t Hin Eo).
  - rewrite (id_of_tmp_in d o (our_mask p) Hnd Ho).
    change (id o) with (id (poke o)).
    apply tmp_of_id_in; [exact Hids'|].
    apply in_map_iff. exists (o, our_mask p). auto.
Qed.

(** ** Staleness *)

Lemma poke_among_all (e : ObjectInfo * Z) :
  poke_among (rev match_isthing ++ []) e = poke_entry e.
Proof.
  unfold poke_among. simpl.
  destruct (isthing (fst e)) as [[]|]; reflexivity.
Qed.

(** C6, as the code has it.  On a frame without candidates, in either
    mode, every object of the registry is carried over: the three passes
    increment its staleness by exactly one and change nothing else in the
    registry, and write its identity on the pixels that carried its
    temporary index; the relabelling then gives these pixels the temporary
    index under which the poked record is registered after the call.  The
    relabelling renumbers the objects present in the mask from 1: when the
    registry is the one a relabelling left for this very mask, every object
    stays registered under its index and the output mask is the input mask;
    otherwise the index is the one of the object, not necessarily the one it
    had before the call.  And every object that the matching of a merge call
    pairs with a candidate leaves the rendering with staleness zero. *)
Theorem carried_over_poked_matched_unpoked :
  (forall (our_mask new_mask : tensor Z) (om : ObjectManager) (mode : string)
          (max_num_objects : Z) (engulf_threshold : Q),
     NoDup (registered_ids (obj_to_tmp_id om)) ->
     NoDup (map snd (obj_to_tmp_id om)) ->
     (forall o t, In (o, t) (obj_to_tmp_id om) -> id o <> 0) ->
     lower mode = "iou"%string \/ lower mode = "engulf"%string ->
     exists merged out,
       merge_passes (lower mode) (one_hot_ours our_mask om) [] []
                    engulf_threshold om (zeros_like our_mask)
       = Ok (mkObjectManager (map poke_entry (obj_to_tmp_id om))
                             (all_historical_object_ids om), merged)
       /\ (forall o t p, In (o, t) (obj_to_tmp_id om) -> our_mask p = t ->
             merged p = id o)
       /\ match_and_merge our_mask new_mask om [] mode max_num_objects
                          engulf_threshold = Ok out
       /\ (forall o t p, In (o, t) (obj_to_tmp_id om) -> In p frame ->
             our_mask p = t ->
             exists k, In (poke o, k) (obj_to_tmp_id (out_manager out))
                       /\ out_mask out p = k)
       /\ (relabelled om our_mask ->
             obj_to_tmp_id (out_manager out)
             = map poke_entry (obj_to_tmp_id om)
             /\ agree (out_mask out) our_mask))
  /\ (forall (our_masks new_masks : dict ObjectInfo (tensor bool))
             (our_sums new_sums : dict ObjectInfo Z) (status : option bool)
             (engulf_threshold : Q) (ours cands : list ObjectInfo)
             (st : matching) (om om' : ObjectManager) (mask mask' : tensor Z)
             (our_obj new_obj : ObjectInfo),
        iou_matching our_masks new_masks our_sums new_sums status ours cands
        = Ok st
        \/ engulf_matching our_masks new_masks our_sums new_sums status
                           engulf_threshold ours cands = Ok st ->
        render our_masks new_masks st om mask = Ok (om', mask') ->
        dict_get obj_eqb (our_to_new_matching st) our_obj = Some new_obj ->
        exists r, find_object_by_id om' (id our_obj) = Ok r
                  /\ poke_count r = 0).
Proof.
  split.
  - intros our_mask new_mask om mode max_num_objects engulf_threshold
           Hids Htmps Hnz Hmode.
    destruct (@carried_passes_exact our_mask om [] 
                (mask_sums (one_hot_ours our_mask om)) (mask_sums [])
                engulf_threshold Hids Htmps) with
      (mode := lower mode) (mask0 := zeros_like our_mask)
      (statuses := match_isthing) (done := @nil (option bool))
      (om := om) (mask := zeros_like our_mask)
      as [merged [Hpasses [Hown Hfree]]].
    + intros k Hk. rewrite mask_sums_mem. apply our_masks_mem. exact Hk.
    + exact Hmode.
    + unfold match_isthing. repeat constructor; simpl; intuition discriminate.
    + intros s _ [].
    + repeat split; try reflexivity. intro p. left. reflexivity.
    + symmetry. rewrite <- (map_id (obj_to_tmp_id om)) at 2.
      apply map_ext. intros e. reflexivity.
    + intros o t p _ _. reflexivity.
    + intros p _. reflexivity.
    + assert (Hregs : map (poke_among (rev match_isthing ++ []))
                          (obj_to_tmp_id om)
                      = map poke_entry (obj_to_tmp_id om))
        by (apply map_ext; apply poke_among_all).
      rewrite Hregs in Hpasses.
      assert (Hmerged : forall o t p, In (o, t) (obj_to_tmp_id om) ->
                          our_mask p = t -> merged p = id o).
      { intros o t p Hin Hp. rewrite (Hown o t p Hin Hp). simpl.
        destruct (isthing o) as [[]|]; reflexivity. }
      assert (Hcar : carries om
                (mkObjectManager (map poke_entry (obj_to_tmp_id om))
                                 (all_historical_object_ids om), merged)).
      { repeat split; simpl.
        - unfold registered_ids. rewrite map_map. reflexivity.
        - rewrite map_map. reflexivity.
        - destruct (carried_passes_total (lower mode)
                      (one_hot_ours our_mask om) [] engulf_threshold om
                      (zeros_like our_mask)) as [s' [Hs' Hc']].
          + intros k Hk. apply our_masks_mem. exact Hk.
          + intro p. left. reflexivity.
          + unfold merge_passes in Hs'. rewrite Hpasses in Hs'.
            injection Hs' as <-. destruct Hc' as [_ [_ [_ Hlab]]]. exact Hlab. }
      destruct (make_one_hot_carried Hcar) as [om2 [out [H2 _]]].
      exists merged. eexists. split; [exact Hpasses|].
      split; [exact Hmerged|]. split; [|split].
      * unfold match_and_merge.
        replace (if (0 <? max_num_objects)
                    && (max_num_objects <?
                        Z.of_nat (List.length (all_historical_object_ids om))
                        + Z.of_nat (List.length (@nil ObjectInfo)))
                 then [] else one_hot_news new_mask [])
          with (@nil (ObjectInfo * tensor bool))
          by (destruct ((0 <? max_num_objects) && _); reflexivity).
        replace (if (0 <? max_num_objects)
                    && (max_num_objects <?
                        Z.of_nat (List.length (all_historical_object_ids om))
                        + Z.of_nat (List.length (@nil ObjectInfo)))
                 then [] else @nil ObjectInfo)
          with (@nil ObjectInfo)
          by (destruct ((0 <? max_num_objects) && _); reflexivity).
        unfold merge_passes in Hpasses |- *. rewrite Hpasses. cbn [bind fst snd].
        rewrite H2. cbn [bind fst snd]. reflexivity.
      * simpl. intros o t p Hin Hp Ht.
        apply (make_one_hot_pixel _ _ p H2 Hp).
        -- rewrite (Hmerged o t p Hin Ht). exact (Hnz o t Hin).
        -- rewrite (Hmerged o t p Hin Ht). simpl.
           change (id o) with (id (poke o)).
           apply find_entry_nodup with (t := t).
           ++ unfold registered_ids. rewrite map_map. exact Hids.
           ++ apply in_map_iff. exists (o, t). auto.
      * simpl. intro Hrel.
        destruct (@relabel_carried_same our_mask merged om Hids Hnz Hrel
                    Hmerged Hfree) as [out' [H2' Hout']].
        rewrite H2' in H2. injection H2 as <- <-.
        split; [reflexivity | exact Hout'].
  - intros our_masks new_masks our_sums new_sums status engulf_threshold
           ours cands st om om' mask mask' our_obj new_obj Hst Hr Hm.
    eapply matched_object_unpoked;
      [eapply matching_well_keyed; exact Hst | exact Hr | exact Hm].
Qed.

(** ** Determinism *)

Lemma agree_refl (A : Type) (a : tensor A) : agree a a.
Proof. intros p _. reflexivity. Qed.

Lemma get_iou_agree (m1 m1' m2 m2' : tensor bool) (s1 s2 : Z) :
  agree m1 m1' -> agree m2 m2' ->
  _get_iou m1 m2 s1 s2 = _get_iou m1' m2' s1 s2.
Proof.
  intros H1 H2. unfold _get_iou.
  rewrite (tsum_ext (tmul m1 m2) (tmul m1' m2')); [reflexivity|].
  intros p Hp. unfold tmul. rewrite (H1 p Hp), (H2 p Hp). reflexivity.
Qed.

Lemma tset_agree (t t' : tensor Z) (m m' : tensor bool) (v : Z) :
  agree t t' -> agree m m' -> agree (tset t m v) (tset t' m' v).
Proof.
  intros Ht Hm p Hp. unfold tset. rewrite (Ht p Hp), (Hm p Hp). reflexivity.
Qed.

Lemma teq_agree (t t' : tensor Z) (v : Z) :
  agree t t' -> agree (teq t v) (teq t' v).
Proof. intros Ht p Hp. unfold teq. rewrite (Ht p Hp). reflexivity. Qed.

Lemma masks_agree_set (d d' : dict ObjectInfo (tensor bool)) (k : ObjectInfo)
  (v v' : tensor bool) :
  masks_agree d d' -> agree v v' ->
  masks_agree (dict_set obj_eqb d k v) (dict_set obj_eqb d' k v').
Proof.
  intros Hd Hv. induction Hd as [|[k1 v1] [k2 v2] d d' [Hk Ha] Hd IH]; simpl.
  - constructor; [split; [reflexivity | exact Hv] | constructor].
  - simpl in Hk. subst k2. destruct (obj_eqb k1 k).
    + constructor; [split; [reflexivity | exact Hv] | exact Hd].
    + constructor; [split; [reflexivity | exact Ha] | exact IH].
Qed.

Lemma masks_agree_of_list (l l' d d' : dict ObjectInfo (tensor bool)) :
  masks_agree l l' -> masks_agree d d' ->
  masks_agree
    (fold_left (fun d kv => dict_set obj_eqb d (fst kv) (snd kv)) l d)
    (fold_left (fun d kv => dict_set obj_eqb d (fst kv) (snd kv)) l' d').
Proof.
  intro Hl. revert d d'.
  induction Hl as [|[k1 v1] [k2 v2] l l' [Hk Ha] Hl IH]; intros d d' Hd; simpl.
  - exact Hd.
  - simpl in Hk, Ha. subst k2. apply IH. apply masks_agree_set; assumption.
Qed.

Lemma one_hot_ours_agree (our_mask our_mask' : tensor Z) (om : ObjectManager) :
  agree our_mask our_mask' ->
  masks_agree (one_hot_ours our_mask om) (one_hot_ours our_mask' om).
Proof.
  intro H. unfold one_hot_ours, dict_of_list.
  apply masks_agree_of_list; [|constructor].
  induction (obj_to_tmp_id om) as [|[o t] d IH]; simpl; constructor.
  - split; [reflexivity|]. apply teq_agree. exact H.
  - exact IH.
Qed.

Lemma one_hot_news_agree (new_mask new_mask' : tensor Z) (cands : list ObjectInfo) :
  agree new_mask new_mask' ->
  masks_agree (one_hot_news new_mask cands) (one_hot_news new_mask' cands).
Proof.
  intro H. unfold one_hot_news, dict_of_list.
  apply masks_agree_of_list; [|constructor].
  induction cands as [|c cands IH]; simpl; constructor.
  - split; [reflexivity|]. apply teq_agree. exact H.
  - exact IH.
Qed.

Lemma flat_map_const_length (A B C : Type) (l : list A) (l' : list B) (L : list C) :
  List.length l = List.length l' ->
  flat_map (fun _ => L) l = flat_map (fun _ => L) l'.
Proof.
  revert l'. induction l as [|a l IH]; intros [|b l'] H; simpl in *;
    try discriminate; [reflexivity|].
  f_equal. apply IH. congruence.
Qed.

Lemma mask_sums_agree (d d' : dict ObjectInfo (tensor bool)) :
  masks_agree d d' -> mask_sums d = mask_sums d'.
Proof.
  intro H. unfold mask_sums.
  assert (Hmap : map (fun kv : ObjectInfo * tensor bool => (fst kv, tsum (snd kv))) d
                 = map (fun kv => (fst kv, tsum (snd kv))) d').
  { induction H as [|[k1 v1] [k2 v2] d d' [Hk Ha] Hd IH]; simpl.
    - reflexivity.
    - simpl in Hk, Ha. subst k2. rewrite IH, (tsum_ext v1 v2 Ha). reflexivity. }
  rewrite Hmap. f_equal. apply flat_map_const_length.
  apply (Forall2_length H).
Qed.

(** A lookup in two dictionaries of equal masks. *)
Lemma lookup_agree (d d' : dict ObjectInfo (tensor bool)) (k : ObjectInfo) :
  masks_agree d d' ->
  same_result agree (dict_lookup obj_eqb d k) (dict_lookup obj_eqb d' k).
Proof.
  intro H. unfold dict_lookup.
  induction H as [|[k1 v1] [k2 v2] d d' [Hk Ha] Hd IH]; simpl.
  - reflexivity.
  - simpl in Hk, Ha. subst k2. destruct (obj_eqb k1 k); [exact Ha | exact IH].
Qed.

Lemma bind_same (A B : Type) (RA : A -> A -> Prop) (RB : B -> B -> Prop)
  (m m' : result A) (k k' : A -> result B) :
  same_result RA m m' ->
  (forall a a', RA a a' -> same_result RB (k a) (k' a')) ->
  same_result RB (bind m k) (bind m' k').
Proof.
  intros Hm Hk. destruct m as [a|e], m' as [a'|e']; simpl in *;
    try contradiction; [apply Hk; exact Hm | exact Hm].
Qed.

Lemma same_result_eq (A : Type) (r r' : result A) :
  same_result eq r r' <-> r = r'.
Proof.
  destruct r as [a|e], r' as [a'|e']; simpl; split; intro H;
    try congruence; try contradiction; try discriminate.
Qed.

Lemma for_each_same (S X : Type) (R : S -> S -> Prop)
  (body body' : S -> X -> result S) (xs : list X) :
  (forall s s' x, R s s' -> same_result R (body s x) (body' s' x)) ->
  forall s s', R s s' ->
    same_result R (for_each body xs s) (for_each body' xs s').
Proof.
  intro Hbody. induction xs as [|x xs IH]; intros s s' Hs; simpl.
  - exact Hs.
  - apply bind_same with (RA := R); [apply Hbody; exact Hs | exact IH].
Qed.

Section SameMasks.

Variables our_masks our_masks' new_masks new_masks' : dict ObjectInfo (tensor bool).
Variables our_sums new_sums : dict ObjectInfo Z.
Variable isthing_status : option bool.
Variable engulf_threshold : Q.

Hypothesis ours_agree : masks_agree our_masks our_masks'.
Hypothesis news_agree : masks_agree new_masks new_masks'.

(** What both scans compute of a candidate and an object. *)
Lemma pair_lookup_same (B : Type) (new_obj our_obj : ObjectInfo)
  (k : iou_result -> Z -> result B) :
  (m1 <- dict_lookup obj_eqb new_masks new_obj ;;
   m2 <- dict_lookup obj_eqb our_masks our_obj ;;
   s1 <- dict_lookup obj_eqb new_sums new_obj ;;
   s2 <- dict_lookup obj_eqb our_sums our_obj ;;
   k (_get_iou m1 m2 s1 s2) s1)
  = (m1 <- dict_lookup obj_eqb new_masks' new_obj ;;
     m2 <- dict_lookup obj_eqb our_masks' our_obj ;;
     s1 <- dict_lookup obj_eqb new_sums new_obj ;;
     s2 <- dict_lookup obj_eqb our_sums our_obj ;;
     k (_get_iou m1 m2 s1 s2) s1).
Proof.
  pose proof (lookup_agree new_obj news_agree) as Hn.
  pose proof (lookup_agree our_obj ours_agree) as Ho.
  destruct (dict_lookup obj_eqb new_masks new_obj) as [m1|e1],
           (dict_lookup obj_eqb new_masks' new_obj) as [m1'|e1'];
    simpl in Hn; try contradiction; [|simpl; congruence].
  simpl.
  destruct (dict_lookup obj_eqb our_masks our_obj) as [m2|e2],
           (dict_lookup obj_eqb our_masks' our_obj) as [m2'|e2'];
    simpl in Ho; try contradiction; [|simpl; congruence].
  simpl.
  destruct (dict_lookup obj_eqb new_sums new_obj) as [s1|]; [|reflexivity].
  simpl.
  destruct (dict_lookup obj_eqb our_sums our_obj) as [s2|]; [|reflexivity].
  simpl. rewrite (get_iou_agree s1 s2 Hn Ho). reflexivity.
Qed.

Lemma iou_scan_same (m : dict ObjectInfo ObjectInfo) (new_obj : ObjectInfo)
  (ours : list ObjectInfo) :
  iou_scan our_masks new_masks our_sums new_sums isthing_status m new_obj ours
  = iou_scan our_masks' new_masks' our_sums new_sums isthing_status m new_obj
             ours.
Proof.
  induction ours as [|o rest IH]; simpl.
  - reflexivity.
  - destruct (negb (isthing_eqb (isthing o) isthing_status)
              || dict_mem obj_eqb m o); [exact IH|].
    rewrite <- IH.
    exact (pair_lookup_same new_obj o
             (fun r _ =>
                match r with
                | Overlap iou _ union =>
                    if tgt iou (1 # 2) then Ok (Some (o, union))
                    else iou_scan our_masks new_masks our_sums new_sums
                                  isthing_status m new_obj rest
                | NoOverlap =>
                    iou_scan our_masks new_masks our_sums new_sums
                             isthing_status m new_obj rest
                end)).
Qed.

Lemma engulf_scan_same (new_obj : ObjectInfo) (ours : list ObjectInfo) :
  engulf_scan our_masks new_masks our_sums new_sums isthing_status
              engulf_threshold new_obj ours
  = engulf_scan our_masks' new_masks' our_sums new_sums isthing_status
                engulf_threshold new_obj ours.
Proof.
  induction ours as [|o rest IH]; simpl.
  - reflexivity.
  - destruct (negb (isthing_eqb (isthing o) isthing_status)); [exact IH|].
    rewrite <- IH.
    exact (pair_lookup_same new_obj o
             (fun r _ =>
                match r with
                | Overlap iou intersection union =>
                    if tgt iou (1 # 2) then Ok (EMatched o union)
                    else if tgt iou 0 then
                      s <- dict_lookup obj_eqb new_sums new_obj ;;
                      if tgt (tdiv intersection s) engulf_threshold
                      then Ok EEngulfed
                      else engulf_scan our_masks new_masks our_sums new_sums
                             isthing_status engulf_threshold new_obj rest
                    else engulf_scan our_masks new_masks our_sums new_sums
                           isthing_status engulf_threshold new_obj rest
                | NoOverlap =>
                    engulf_scan our_masks new_masks our_sums new_sums
                                isthing_status engulf_threshold new_obj rest
                end)).
Qed.

Lemma iou_matching_same (ours cands : list ObjectInfo) :
  iou_matching our_masks new_masks our_sums new_sums isthing_status ours cands
  = iou_matching our_masks' new_masks' our_sums new_sums isthing_status ours
                 cands.
Proof.
  unfold iou_matching. f_equal. apply for_each_ext_in.
  intros s x _. unfold iou_match_step. rewrite iou_scan_same. reflexivity.
Qed.

Lemma engulf_matching_same (ours cands : list ObjectInfo) :
  engulf_matching our_masks new_masks our_sums new_sums isthing_status
                  engulf_threshold ours cands
  = engulf_matching our_masks' new_masks' our_sums new_sums isthing_status
                    engulf_threshold ours cands.
Proof.
  unfold engulf_matching. f_equal. apply for_each_ext_in.
  intros s x _. unfold engulf_match_step. rewrite engulf_scan_same. reflexivity.
Qed.

Lemma render_step_same (m : dict ObjectInfo ObjectInfo)
  (s s' : ObjectManager * tensor Z) (e : area_key * Z) :
  same_state s s' ->
  same_result same_state (render_step our_masks new_masks m s e)
                         (render_step our_masks' new_masks' m s' e).
Proof.
  destruct s as [om mask], s' as [om' mask'], e as [[obj is_new] area].
  intros [Eom Hmask]. simpl in Eom, Hmask. subst om'.
  unfold render_step. destruct is_new.
  - destruct (add_new_objects om obj) as [om1 [tmps ids]].
    destruct (index0 ids) as [i|err]; simpl; [|reflexivity].
    apply bind_same with (RA := agree); [apply lookup_agree; exact news_agree|].
    intros a a' Ha. split; [reflexivity|]. simpl. apply tset_agree; assumption.
  - destruct (dict_get obj_eqb m obj) as [new_obj|].
    + apply bind_same with (RA := agree); [apply lookup_agree; exact ours_agree|].
      intros a a' Ha.
      apply bind_same with (RA := agree); [apply lookup_agree; exact news_agree|].
      intros b b' Hb.
      destruct (find_object_by_id
                  (update_object om (id obj) (fun o => merge o new_obj))
                  (id obj)) as [o|err]; simpl; [|reflexivity].
      split; [reflexivity|]. simpl.
      apply tset_agree; [apply tset_agree|]; assumption.
    + apply bind_same with (RA := agree); [apply lookup_agree; exact ours_agree|].
      intros a a' Ha.
      destruct (find_object_by_id om (id obj)) as [o|err]; simpl; [|reflexivity].
      split; [reflexivity|]. simpl. apply tset_agree; assumption.
Qed.

Lemma render_same (st : matching) (om : ObjectManager) (mask mask' : tensor Z) :
  agree mask mask' ->
  same_result same_state (render our_masks new_masks st om mask)
                         (render our_masks' new_masks' st om mask').
Proof.
  intro H. unfold render. apply for_each_same.
  - intros s s' x Hs. apply render_step_same. exact Hs.
  - split; [reflexivity | exact H].
Qed.

Lemma merge_pass_same (mode : string) (cands : list ObjectInfo)
  (s s' : ObjectManager * tensor Z) :
  same_state s s' ->
  same_result same_state
    (merge_pass mode our_masks new_masks our_sums new_sums cands
                engulf_threshold s isthing_status)
    (merge_pass mode our_masks' new_masks' our_sums new_sums cands
                engulf_threshold s' isthing_status).
Proof.
  destruct s as [om mask], s' as [om' mask']. intros [Eom Hmask].
  simpl in Eom, Hmask. subst om'. unfold merge_pass.
  destruct (String.eqb mode "iou").
  - unfold merge_by_iou. rewrite iou_matching_same.
    destruct (iou_matching our_masks' new_masks' our_sums new_sums
                isthing_status (dict_keys (obj_to_tmp_id om)) cands)
      as [st|e]; simpl; [|reflexivity].
    apply render_same. exact Hmask.
  - destruct (String.eqb mode "engulf").
    + unfold merge_by_engulf. rewrite engulf_matching_same.
      destruct (engulf_matching our_masks' new_masks' our_sums new_sums
                  isthing_status engulf_threshold
                  (dict_keys (obj_to_tmp_id om)) cands)
        as [st|e]; simpl; [|reflexivity].
      apply render_same. exact Hmask.
    + split; [reflexivity | exact Hmask].
Qed.

End SameMasks.

Lemma make_one_hot_same (om : ObjectManager) (mask mask' : tensor Z) :
  agree mask mask' ->
  same_result same_state (make_one_hot om mask) (make_one_hot om mask').
Proof.
  intro H. unfold make_one_hot.
  assert (Hp : present_ids mask = present_ids mask').
  { unfold present_ids. f_equal. apply map_ext_in. exact H. }
  rewrite Hp.
  destruct (rebuild (obj_to_tmp_id om) (present_ids mask') 1) as [d|e]; simpl;
    [|reflexivity].
  split; [reflexivity|]. simpl. intros p Hin. rewrite (H p Hin). reflexivity.
Qed.

(** Two calls on equal inputs end alike: with the same exception or with
    equal outcomes. *)
Lemma match_and_merge_same (our_mask our_mask' new_mask new_mask' : tensor Z)
  (om : ObjectManager) (cands : list ObjectInfo) (mode : string)
  (max_num_objects : Z) (engulf_threshold : Q) :
  agree our_mask our_mask' -> agree new_mask new_mask' ->
  same_result same_outcome
    (match_and_merge our_mask new_mask om cands mode max_num_objects
                     engulf_threshold)
    (match_and_merge our_mask' new_mask' om cands mode max_num_objects
                     engulf_threshold).
Proof.
  intros Hour Hnew. unfold match_and_merge.
  pose proof (one_hot_ours_agree om Hour) as Ho.
  assert (Hpasses : forall (news news' : dict ObjectInfo (tensor bool)) cs,
            masks_agree news news' ->
            same_result same_state
              (merge_passes (lower mode) (one_hot_ours our_mask om) news cs
                            engulf_threshold om (zeros_like our_mask))
              (merge_passes (lower mode) (one_hot_ours our_mask' om) news' cs
                            engulf_threshold om (zeros_like our_mask'))).
  { intros news news' cs Hn. unfold merge_passes.
    rewrite (mask_sums_agree Ho), (mask_sums_agree Hn).
    apply for_each_same.
    - intros s s' status Hs. apply merge_pass_same; assumption.
    - split; [reflexivity|]. intros p _. reflexivity. }
  assert (Hrest : forall (ws : list string) s s',
            same_state s s' ->
            same_result same_outcome
              (r <- make_one_hot (fst s) (snd s) ;;
               Ok (mkOutcome (fst r) (snd r) ws))
              (r <- make_one_hot (fst s') (snd s') ;;
               Ok (mkOutcome (fst r) (snd r) ws))).
  { intros ws [om1 mask1] [om1' mask1'] [Eom Hmask]. simpl in Eom, Hmask.
    subst om1'. simpl.
    apply bind_same with (RA := same_state).
    - apply make_one_hot_same. exact Hmask.
    - intros [om2 out] [om2' out'] [Eom2 Hout]. simpl in Eom2, Hout.
      subst om2'. simpl. repeat split. exact Hout. }
  destruct ((0 <? max_num_objects)
            && (max_num_objects <?
                Z.of_nat (List.length (all_historical_object_ids om))
                + Z.of_nat (List.length cands))).
  - apply bind_same with (RA := same_state).
    + apply Hpasses. constructor.
    + intros s s' Hs. apply Hrest. exact Hs.
  - apply bind_same with (RA := same_state).
    + apply Hpasses. apply one_hot_news_agree. exact Hnew.
    + intros s s' Hs. apply Hrest. exact Hs.
Qed.

(** ** [match_and_merge] always returns *)

Lemma keys_update_entry (d : dict ObjectInfo Z) (i : Z)
  (f : ObjectInfo -> ObjectInfo) (o' : ObjectInfo) :
  In o' (dict_keys (update_entry d i f)) ->
  In o' (dict_keys d) \/ exists o, In o (dict_keys d) /\ o' = f o.
Proof.
  unfold dict_keys. induction d as [|[o t] d IH]; simpl; intro H.
  - contradiction.
  - destruct (id o =? i); simpl in H.
    + destruct H as [<-|H]; [right; exists o; auto | left; right; exact H].
    + destruct H as [<-|H]; [left; left; reflexivity|].
      destruct (IH H) as [H1|[o1 [H1 H2]]]; [left; right; exact H1|].
      right. exists o1. auto.
Qed.

Section Totality.

Variables our_masks new_masks : dict ObjectInfo (tensor bool).
Variables our_sums new_sums : dict ObjectInfo Z.
Variable engulf_threshold : Q.
Variable om0 : ObjectManager.
Variable cands : list ObjectInfo.
Variable status : option bool.
Variable rest : list (option bool).

Hypothesis our_cached : forall k,
  In (id k) (registered_ids (obj_to_tmp_id om0)) ->
  dict_mem obj_eqb our_masks k = true /\ dict_mem obj_eqb our_sums k = true.
Hypothesis new_cached : forall c, In c cands ->
  dict_mem obj_eqb new_masks c = true /\ dict_mem obj_eqb new_sums c = true.
Hypothesis status_fresh : ~ In status rest.

Lemma lookup_total (V : Type) (d : dict ObjectInfo V) (k : ObjectInfo) :
  dict_mem obj_eqb d k = true -> exists v, dict_lookup obj_eqb d k = Ok v.
Proof.
  intro H. destruct (dict_mem_lookup _ _ _ H) as [v Hv].
  exists v. apply dict_lookup_get. exact Hv.
Qed.

Lemma iou_scan_total (m : dict ObjectInfo ObjectInfo) (c : ObjectInfo)
  (ours : list ObjectInfo) :
  In c cands -> pass_cached om0 status ours ->
  exists r, iou_scan our_masks new_masks our_sums new_sums status m c ours
            = Ok r.
Proof.
  intros Hc Hours. destruct (new_cached c Hc) as [Hnm Hns].
  destruct (lookup_total _ _ Hnm) as [m1 Hm1].
  destruct (lookup_total _ _ Hns) as [s1 Hs1].
  induction ours as [|o ours IH]; simpl.
  - eexists. reflexivity.
  - assert (IH' := IH (fun x Hx => Hours x (or_intror Hx))).
    destruct (isthing_eqb (isthing o) status) eqn:Ht; simpl; [|exact IH'].
    destruct (dict_mem obj_eqb m o); simpl; [exact IH'|].
    apply isthing_eqb_eq in Ht.
    destruct (our_cached o (Hours o (or_introl eq_refl) Ht)) as [Hom Hos].
    destruct (lookup_total _ _ Hom) as [m2 Hm2].
    destruct (lookup_total _ _ Hos) as [s2 Hs2].
    rewrite Hm1, Hm2, Hs1, Hs2. simpl.
    destruct (_get_iou m1 m2 s1 s2) as [|iou inter union]; [exact IH'|].
    destruct (tgt iou (1 # 2)); [eexists; reflexivity | exact IH'].
Qed.

Lemma engulf_scan_total (c : ObjectInfo) (ours : list ObjectInfo) :
  In c cands -> pass_cached om0 status ours ->
  exists r, engulf_scan our_masks new_masks our_sums new_sums status
                        engulf_threshold c ours = Ok r.
Proof.
  intros Hc Hours. destruct (new_cached c Hc) as [Hnm Hns].
  destruct (lookup_total _ _ Hnm) as [m1 Hm1].
  destruct (lookup_total _ _ Hns) as [s1 Hs1].
  induction ours as [|o ours IH]; simpl.
  - eexists. reflexivity.
  - assert (IH' := IH (fun x Hx => Hours x (or_intror Hx))).
    destruct (isthing_eqb (isthing o) status) eqn:Ht; simpl; [|exact IH'].
    apply isthing_eqb_eq in Ht.
    destruct (our_cached o (Hours o (or_introl eq_refl) Ht)) as [Hom Hos].
    destruct (lookup_total _ _ Hom) as [m2 Hm2].
    destruct (lookup_total _ _ Hos) as [s2 Hs2].
    rewrite Hm1, Hm2, Hs1, Hs2. simpl.
    destruct (_get_iou m1 m2 s1 s2) as [|iou inter union]; [exact IH'|].
    destruct (tgt iou (1 # 2)); [eexists; reflexivity|].
    destruct (tgt iou 0); [|exact IH'].
    simpl. destruct (tgt (tdiv inter s1) engulf_threshold);
      [eexists; reflexivity | exact IH'].
Qed.

(** The matching of a pass returns, in either mode. *)
Lemma matching_total (ours : list ObjectInfo) :
  pass_cached om0 status ours ->
  (exists st, iou_matching our_masks new_masks our_sums new_sums status ours
                           cands = Ok st)
  /\ (exists st, engulf_matching our_masks new_masks our_sums new_sums status
                                 engulf_threshold ours cands = Ok st).
Proof.
  intro Hours.
  assert (Hcarry : forall st, exists st',
            for_each (carry_step our_sums status) ours st = Ok st').
  { intro st.
    destruct (for_each_total (carry_step our_sums status) (fun _ => True) ours)
      with (s := st) as [st' [H _]]; [|exact I|exists st'; exact H].
    intros s o Ho _. unfold carry_step.
    destruct (isthing_eqb (isthing o) status) eqn:Ht; simpl;
      [|exists s; auto].
    destruct (dict_mem obj_eqb (our_to_new_matching s) o); [exists s; auto|].
    apply isthing_eqb_eq in Ht.
    destruct (our_cached o (Hours o Ho Ht)) as [_ Hos].
    destruct (lookup_total _ _ Hos) as [v Hv]. rewrite Hv. simpl.
    eexists. auto. }
  split.
  - unfold iou_matching.
    destruct (for_each_total
                (iou_match_step our_masks new_masks our_sums new_sums status
                                ours) (fun _ => True) cands)
      with (s := empty_matching) as [st [H _]]; [|exact I|].
    + intros s c Hc _. unfold iou_match_step.
      destruct (negb (isthing_eqb (isthing c) status)); [exists s; auto|].
      destruct (@iou_scan_total (our_to_new_matching s) c ours Hc Hours) as [r Hr].
      rewrite Hr. simpl. destruct r as [[o u]|]; [eexists; auto|].
      destruct (new_cached c Hc) as [_ Hns].
      destruct (lookup_total _ _ Hns) as [v Hv]. rewrite Hv. simpl.
      eexists. auto.
    + rewrite H. simpl. apply Hcarry.
  - unfold engulf_matching.
    destruct (for_each_total
                (engulf_match_step our_masks new_masks our_sums new_sums
                                   status engulf_threshold ours)
                (fun _ => True) cands)
      with (s := empty_matching) as [st [H _]]; [|exact I|].
    + intros s c Hc _. unfold engulf_match_step.
      destruct (negb (isthing_eqb (isthing c) status)); [exists s; auto|].
      destruct (@engulf_scan_total c ours Hc Hours) as [r Hr].
      rewrite Hr. simpl. destruct r as [o u| |]; try (eexists; split; auto; fail).
      destruct (new_cached c Hc) as [_ Hns].
      destruct (lookup_total _ _ Hns) as [v Hv]. rewrite Hv. simpl.
      eexists. auto.
    + rewrite H. simpl. apply Hcarry.
Qed.

Lemma render_inv_update (ours : list ObjectInfo) (om : ObjectManager)
  (mask mask' : tensor Z) (i : Z) (f : ObjectInfo -> ObjectInfo) :
  (forall o, id (f o) = id o) -> (forall o, isthing (f o) = isthing o) ->
  (forall p, mask' p = mask p \/ mask' p = i) ->
  In i (registered_ids (obj_to_tmp_id om)) ->
  render_inv om0 rest ours (om, mask) ->
  render_inv om0 rest ours (update_object om i f, mask').
Proof.
  intros Hid Hth Hmask Hi [Hreg [Hold Hlab]]. simpl in Hreg, Hold, Hlab.
  split; [|split]; simpl.
  - intros o Ho. rewrite registered_ids_update by exact Hid. apply Hreg, Ho.
  - intros o Ho Hr. apply keys_update_entry in Ho.
    destruct Ho as [Ho|[o1 [Ho ->]]]; [exact (Hold o Ho Hr)|].
    rewrite Hid. apply (Hold o1 Ho). rewrite <- Hth. exact Hr.
  - intro p. rewrite registered_ids_update by exact Hid.
    destruct (Hmask p) as [-> | ->]; [apply Hlab | right; exact Hi].
Qed.

Lemma find_registered (om : ObjectManager) (i : Z) :
  In i (registered_ids (obj_to_tmp_id om)) ->
  exists o, find_object_by_id om i = Ok o.
Proof.
  intro Hi. apply find_entry_registered in Hi. destruct Hi as [o Ho].
  unfold find_object_by_id. rewrite Ho. exists o. reflexivity.
Qed.

(** One step of the rendering returns and keeps the state. *)
Lemma render_step_total (m : dict ObjectInfo ObjectInfo)
  (ours : list ObjectInfo) (s : ObjectManager * tensor Z)
  (obj : ObjectInfo) (is_new : bool) (area : Z) :
  pass_cached om0 status ours ->
  isthing obj = status ->
  (if is_new then In obj cands else In obj ours) ->
  (forall c, dict_get obj_eqb m obj = Some c -> In c cands) ->
  render_inv om0 rest ours s ->
  exists s', render_step our_masks new_masks m s ((obj, is_new), area) = Ok s'
             /\ render_inv om0 rest ours s'.
Proof.
  intros Hours Ht Hobj Hm Hs. destruct s as [om mask]. unfold render_step.
  destruct is_new.
  - unfold add_new_objects. cbn [index0 bind].
    destruct (new_cached obj Hobj) as [Hnm _].
    destruct (lookup_total _ _ Hnm) as [m1 Hm1]. rewrite Hm1. cbn [bind].
    eexists. split; [reflexivity|].
    destruct Hs as [Hreg [Hold Hlab]]. simpl in Hreg, Hold, Hlab.
    split; [|split]; simpl.
    + intros o Ho. unfold registered_ids. rewrite map_app. apply in_or_app.
      left. apply Hreg, Ho.
    + intros o Ho Hr. unfold dict_keys in Ho. rewrite map_app in Ho.
      apply in_app_or in Ho. destruct Ho as [Ho|[<-|[]]].
      * exact (Hold o Ho Hr).
      * simpl in Hr. rewrite Ht in Hr. contradiction.
    + intro p. unfold tset, registered_ids. rewrite map_app.
      destruct (m1 p).
      * right. apply in_or_app. right. left. reflexivity.
      * destruct (Hlab p) as [H0|H]; [left; exact H0|].
        right. apply in_or_app. left. exact H.
  - destruct (our_cached obj (Hours obj Hobj Ht)) as [Hom _].
    destruct (lookup_total _ _ Hom) as [m2 Hm2].
    assert (Hi : In (id obj) (registered_ids (obj_to_tmp_id om))).
    { exact (proj1 Hs obj Hobj). }
    destruct (dict_get obj_eqb m obj) as [c|] eqn:Hc.
    + destruct (new_cached c (Hm c eq_refl)) as [Hnm _].
      destruct (lookup_total _ _ Hnm) as [m1 Hm1].
      rewrite Hm2, Hm1. cbn [bind].
      destruct (@find_registered
                  (update_object om (id obj) (fun o => merge o c)) (id obj))
        as [o Ho].
      { simpl. rewrite registered_ids_update by (intro; apply merge_id).
        exact Hi. }
      rewrite Ho. cbn [bind]. eexists. split; [reflexivity|].
      apply render_inv_update with (mask := mask); auto.
      * intro p. unfold tset. destruct (m1 p); [right; reflexivity|].
        destruct (m2 p); [right; reflexivity | left; reflexivity].
      * simpl. rewrite registered_ids_update by (intro; apply merge_id).
        exact Hi.
      * apply render_inv_update with (mask := mask); auto.
    + rewrite Hm2. cbn [bind].
      destruct (@find_registered om (id obj) Hi) as [o Ho]. rewrite Ho. cbn [bind].
      eexists. split; [reflexivity|].
      apply render_inv_update with (mask := mask); auto.
      intro p. unfold tset. destruct (m2 p); [right; reflexivity | left; reflexivity].
Qed.

(** The rendering of the matching of a pass returns. *)
Lemma render_total (ours : list ObjectInfo) (st : matching)
  (s : ObjectManager * tensor Z) :
  pass_cached om0 status ours ->
  in_category status ours cands st ->
  render_inv om0 rest ours s ->
  exists s', render our_masks new_masks st (fst s) (snd s) = Ok s'
             /\ render_inv om0 rest ours s'.
Proof.
  intros Hours [Hpairs Hkeys] Hs. unfold render. destruct s as [om mask].
  apply for_each_total; [|exact Hs].
  intros s0 [[obj is_new] area] Hin Hs0.
  apply -> in_sorted_by_area in Hin.
  destruct (Hkeys _ _ _ Hin) as [Ht Hobj].
  apply render_step_total; auto.
  intros c Hc. apply dict_get_in in Hc. destruct Hc as [k [Hk _]].
  exact (proj1 (proj2 (Hpairs _ _ Hk))).
Qed.

(** A pass returns, in any mode: it leaves a state of the passes that
    remain. *)
Lemma merge_pass_total (mode : string) (s : ObjectManager * tensor Z) :
  passes_inv om0 (status :: rest) s ->
  exists s', merge_pass mode our_masks new_masks our_sums new_sums cands
                        engulf_threshold s status = Ok s'
             /\ passes_inv om0 rest s'.
Proof.
  intros [Hold Hlab]. destruct s as [om mask]. simpl in Hold, Hlab.
  set (ours := dict_keys (obj_to_tmp_id om)).
  assert (Hours : pass_cached om0 status ours).
  { intros o Ho Ht. apply (Hold o Ho). left. symmetry. exact Ht. }
  assert (Hs : render_inv om0 rest ours (om, mask)).
  { split; [|split]; simpl.
    - intros o Ho. apply in_registered_ids. exact Ho.
    - intros o Ho Hr. apply (Hold o Ho). right. exact Hr.
    - exact Hlab. }
  destruct (@matching_total ours Hours) as [[st1 H1] [st2 H2]].
  unfold merge_pass.
  destruct (String.eqb mode "iou").
  - unfold merge_by_iou. fold ours. rewrite H1. cbn [bind].
    destruct (@render_total ours st1 (om, mask) Hours) as [s' [Hr Hs']]; auto.
    { eapply iou_matching_category. exact H1. }
    exists s'. split; [exact Hr | exact (proj2 Hs')].
  - destruct (String.eqb mode "engulf").
    + unfold merge_by_engulf. fold ours. rewrite H2. cbn [bind].
      destruct (@render_total ours st2 (om, mask) Hours) as [s' [Hr Hs']]; auto.
      { eapply engulf_matching_category. exact H2. }
      exists s'. split; [exact Hr | exact (proj2 Hs')].
    + exists (om, mask). split; [reflexivity | exact (proj2 Hs)].
Qed.

End Totality.

(** The passes over distinct category types return. *)
Lemma passes_total (mode : string)
  (our_masks new_masks : dict ObjectInfo (tensor bool))
  (our_sums new_sums : dict ObjectInfo Z) (engulf_threshold : Q)
  (om0 : ObjectManager) (cands : list ObjectInfo) :
  (forall k, In (id k) (registered_ids (obj_to_tmp_id om0)) ->
     dict_mem obj_eqb our_masks k = true /\ dict_mem obj_eqb our_sums k = true) ->
  (forall c, In c cands ->
     dict_mem obj_eqb new_masks c = true /\ dict_mem obj_eqb new_sums c = true) ->
  forall statuses, NoDup statuses ->
  forall s, passes_inv om0 statuses s ->
  exists s', for_each (merge_pass mode our_masks new_masks our_sums new_sums
                                  cands engulf_threshold) statuses s = Ok s'
             /\ passes_inv om0 [] s'.
Proof.
  intros Hours Hnews statuses. induction statuses as [|status rest IH];
    intros Hnd s Hs; simpl.
  - exists s. auto.
  - inversion Hnd as [|x l Hfresh Hnd' E]. subst x l.
    destruct (@merge_pass_total our_masks new_masks our_sums new_sums
                engulf_threshold om0 cands status rest Hours Hnews Hfresh
                mode s Hs) as [s1 [H1 Hs1]].
    rewrite H1. cbn [bind]. apply IH; assumption.
Qed.

(** The masks cached for the candidates have a key for every candidate. *)
Lemma new_masks_mem (new_mask : tensor Z) (cands : list ObjectInfo)
  (c : ObjectInfo) :
  In c cands -> dict_mem obj_eqb (one_hot_news new_mask cands) c = true.
Proof.
  intro H. unfold one_hot_news.
  rewrite dict_mem_of_list, existsb_over_map. apply existsb_exists.
  exists c. split; [exact H|]. simpl. apply obj_eqb_proj. reflexivity.
Qed.

(** The relabelling of a state of the passes returns. *)
Lemma make_one_hot_total (om0 : ObjectManager) (s : ObjectManager * tensor Z) :
  passes_inv om0 [] s -> exists s', make_one_hot (fst s) (snd s) = Ok s'.
Proof.
  intros [_ Hlab]. unfold make_one_hot.
  destruct (rebuild_total (obj_to_tmp_id (fst s)) (present_ids (snd s)))
    with (k := 1) as [d Hd].
  { intros i Hi. unfold present_ids in Hi. apply first_occurrences_in in Hi.
    destruct Hi as [Hi Hz]. apply in_map_iff in Hi. destruct Hi as [p [E _]].
    destruct (Hlab p) as [H0|H]; [|rewrite <- E; exact H].
    exfalso. apply Hz. left. congruence. }
  rewrite Hd. cbn [bind]. eexists. reflexivity.
Qed.

(** [match_and_merge] returns on every input: no lookup of a cached mask or
    sum and no lookup of a registered object fails. *)
Lemma match_and_merge_total (our_mask new_mask : tensor Z)
  (object_manager : ObjectManager) (new_segments_info : list ObjectInfo)
  (mode : string) (max_num_objects : Z) (engulf_threshold : Q) :
  exists out,
    match_and_merge our_mask new_mask object_manager new_segments_info mode
                    max_num_objects engulf_threshold = Ok out.
Proof.
  unfold match_and_merge, merge_passes.
  set (too_many := (0 <? max_num_objects)
                   && (max_num_objects <?
                       Z.of_nat (List.length
                                   (all_historical_object_ids object_manager))
                       + Z.of_nat (List.length new_segments_info))).
  set (new_masks := if too_many then []
                    else one_hot_news new_mask new_segments_info).
  set (cands := if too_many then [] else new_segments_info).
  destruct (@passes_total (lower mode) (one_hot_ours our_mask object_manager)
              new_masks (mask_sums (one_hot_ours our_mask object_manager))
              (mask_sums new_masks) engulf_threshold object_manager cands)
    with (statuses := match_isthing)
         (s := (object_manager, zeros_like our_mask)) as [s1 [H1 Hs1]].
  - intros k Hk. rewrite mask_sums_mem. split; apply our_masks_mem; exact Hk.
  - intros c Hc. rewrite mask_sums_mem. unfold new_masks, cands in *.
    destruct too_many; [contradiction|].
    split; apply new_masks_mem; exact Hc.
  - unfold match_isthing. repeat constructor; simpl; intuition discriminate.
  - split; simpl.
    + intros o Ho _. apply in_registered_ids. exact Ho.
    + intro p. left. reflexivity.
  - rewrite H1. cbn [bind].
    destruct (make_one_hot_total Hs1) as [s2 H2]. rewrite H2. cbn [bind].
    eexists. reflexivity.
Qed.


(** * Further properties of the merging functions *)

(** ** [_get_iou] on pixel counts *)

Lemma filter_none_iff (A : Type) (f : A -> bool) (l : list A) :
  List.length (filter f l) = 0%nat <-> forall x, In x l -> f x = false.
Proof.
  induction l as [|x l IH]; simpl.
  - split; [intros _ y [] | reflexivity].
  - destruct (f x) eqn:E; simpl.
    + split; [discriminate|]. intro H.
      rewrite (H x (or_introl eq_refl)) in E. discriminate E.
    + rewrite IH. split.
      * intros H y [<-|Hy]; [exact E | apply H; exact Hy].
      * intros H y Hy. apply H. right. exact Hy.
Qed.

Lemma tsum_zero_iff (m : tensor bool) :
  tsum m = 0 <-> forall p, In p frame -> m p = false.
Proof.
  unfold tsum. rewrite <- filter_none_iff. lia.
Qed.

(** The two pixel counts add up to the count of the shared pixels plus the
    count of the pixels of either mask. *)
Lemma filter_incl_excl (A : Type) (f g : A -> bool) (l : list A) :
  (List.length (filter f l) + List.length (filter g l)
   = List.length (filter (fun x => f x && g x) l)
     + List.length (filter (fun x => f x || g x) l))%nat.
Proof.
  induction l as [|x l IH]; simpl.
  - reflexivity.
  - destruct (f x), (g x); simpl; lia.
Qed.

Lemma tsum_incl_excl (m1 m2 : tensor bool) :
  tsum m1 + tsum m2 = tsum (tmul m1 m2) + tsum (tor m1 m2).
Proof.
  unfold tsum, tmul, tor. pose proof (filter_incl_excl m1 m2 frame). lia.
Qed.

Lemma shared_le_first (m1 m2 : tensor bool) : tsum (tmul m1 m2) <= tsum m1.
Proof.
  unfold tsum, tmul. apply inj_le. apply filter_length_le.
  intros p H. apply andb_true_iff in H. exact (proj1 H).
Qed.

Lemma shared_le_second (m1 m2 : tensor bool) : tsum (tmul m1 m2) <= tsum m2.
Proof.
  unfold tsum, tmul. apply inj_le. apply filter_length_le.
  intros p H. apply andb_true_iff in H. exact (proj2 H).
Qed.

Lemma tsum_tmul_le_tor (m1 m2 : tensor bool) :
  tsum (tmul m1 m2) <= tsum (tor m1 m2).
Proof.
  unfold tsum, tmul, tor. apply inj_le. apply filter_length_le.
  intros p H. apply andb_true_iff in H. destruct H as [H _]. rewrite H.
  reflexivity.
Qed.

(** X1. [_get_iou] returns [(0, None, None)] exactly when the two masks share
    no pixel of the frame, whatever sums are passed: the threshold 1e-3 on
    an integer count is a test for zero. *)
Theorem get_iou_none_iff_disjoint (m1 m2 : tensor bool) (m1_sum m2_sum : Z) :
  _get_iou m1 m2 m1_sum m2_sum = NoOverlap
  <-> forall p, In p frame -> m1 p && m2 p = false.
Proof.
  rewrite <- (tsum_zero_iff (tmul m1 m2)). split.
  - apply get_iou_no_overlap_inv.
  - apply get_iou_no_overlap.
Qed.

(** X2. When the sums passed are the pixel counts of the masks and the masks
    overlap, [_get_iou] divides by a positive number: the union is the count
    of the pixels of either mask, the intersection is at least 1 and at most
    the union, and the ratio is a finite number in (0, 1]. *)
Theorem get_iou_of_counts (m1 m2 : tensor bool) :
  match _get_iou m1 m2 (tsum m1) (tsum m2) with
  | NoOverlap => True
  | Overlap iou intersection union =>
      intersection = tsum (tmul m1 m2)
      /\ union = tsum (tor m1 m2)
      /\ 1 <= intersection <= union
      /\ exists q, iou = TFin q
                   /\ (q == inject_Z intersection / inject_Z union)%Q
                   /\ (0 < q)%Q /\ (q <= 1)%Q
  end.
Proof.
  destruct (_get_iou m1 m2 (tsum m1) (tsum m2)) as [|iou inter union] eqn:E;
    [exact I|].
  apply get_iou_overlap_inv in E. destruct E as [Ei [Hi [Eu Eiou]]].
  pose proof (tsum_incl_excl m1 m2) as Hie.
  pose proof (tsum_tmul_le_tor m1 m2) as Hle.
  assert (Hu : union = tsum (tor m1 m2)) by lia.
  split; [exact Ei|]. split; [exact Hu|]. split; [lia|].
  exists (inject_Z inter / inject_Z union)%Q.
  assert (Hpos : (0 < inject_Z union)%Q).
  { unfold Qlt. simpl. lia. }
  split; [|split; [reflexivity|split]].
  - rewrite Eiou. unfold tdiv.
    destruct (Z.eqb_spec union 0) as [E0|_]; [lia | reflexivity].
  - apply Qlt_shift_div_l; [exact Hpos|]. rewrite Qmult_0_l.
    unfold Qlt. simpl. lia.
  - apply Qle_shift_div_r; [exact Hpos|]. rewrite Qmult_1_l.
    rewrite <- Zle_Qle. lia.
Qed.

(** ** The cached masks and sums of [match_and_merge] *)

Lemma dict_of_list_nodup (V : Type) (kvs : list (ObjectInfo * V)) :
  NoDup (map id (dict_keys (dict_of_list obj_eqb kvs))).
Proof.
  unfold dict_of_list.
  assert (H : forall d : dict ObjectInfo V,
            NoDup (map id (dict_keys d)) ->
            NoDup (map id (dict_keys
                     (fold_left (fun d kv => dict_set obj_eqb d (fst kv) (snd kv))
                                kvs d)))).
  { induction kvs as [|[k v] kvs IH]; intros d Hd; simpl; [exact Hd|].
    apply IH. apply (dict_set_nodup obj_eqb id obj_eqb_proj). exact Hd. }
  apply H. constructor.
Qed.

(** Writing an entry that is already there changes nothing. *)
Lemma dict_set_present (V : Type) (d : dict ObjectInfo V) (k : ObjectInfo) (v : V) :
  NoDup (map id (dict_keys d)) -> In (k, v) d -> dict_set obj_eqb d k v = d.
Proof.
  unfold dict_keys. induction d as [|[k0 v0] d IH]; simpl; intros Hnd Hin.
  - contradiction.
  - inversion Hnd as [|x l Hx Hnd']; subst.
    destruct Hin as [Hin|Hin].
    + injection Hin as -> ->.
      replace (obj_eqb k k) with true
        by (symmetry; apply obj_eqb_proj; reflexivity).
      reflexivity.
    + destruct (obj_eqb k0 k) eqn:E.
      * apply obj_eqb_proj in E. exfalso. apply Hx. rewrite E.
        apply in_map. apply (in_map fst) in Hin. exact Hin.
      * rewrite IH by assumption. reflexivity.
Qed.

Lemma fold_set_present (V : Type) (l d : dict ObjectInfo V) :
  NoDup (map id (dict_keys d)) -> incl l d ->
  fold_left (fun d kv => dict_set obj_eqb d (fst kv) (snd kv)) l d = d.
Proof.
  intros Hnd. induction l as [|[k v] l IH]; intro Hincl; simpl.
  - reflexivity.
  - rewrite dict_set_present; [|exact Hnd | apply Hincl; left; reflexivity].
    apply IH. intros e He. apply Hincl. right. exact He.
Qed.

Lemma incl_flat_map_const (A B : Type) (l : list A) (l' : list B) :
  incl (flat_map (fun _ => l') l) l'.
Proof.
  induction l as [|a l IH]; simpl.
  - intros x [].
  - apply incl_app; [apply incl_refl | exact IH].
Qed.

(** The comprehension with the doubled [for] computes the sums of the
    plain one. *)
Lemma mask_sums_plain (masks : dict ObjectInfo (tensor bool)) :
  NoDup (map id (dict_keys masks)) ->
  mask_sums masks = map (fun kv => (fst kv, tsum (snd kv))) masks.
Proof.
  intro Hnd. unfold mask_sums, dict_of_list.
  set (sums := map (fun kv : ObjectInfo * tensor bool =>
                      (fst kv, tsum (snd kv))) masks).
  assert (Hs : NoDup (map id (dict_keys sums))).
  { unfold sums, dict_keys in *. rewrite !map_map. rewrite map_map in Hnd.
    exact Hnd. }
  destruct masks as [|kv masks]; [reflexivity|].
  cbn [flat_map]. rewrite fold_left_app.
  rewrite (fold_set_nodup sums []) by exact Hs. cbn [app].
  apply fold_set_present; [exact Hs | apply incl_flat_map_const].
Qed.

Lemma dict_get_map_value (V W : Type) (f : V -> W) (d : dict ObjectInfo V)
  (k : ObjectInfo) :
  dict_get obj_eqb (map (fun kv => (fst kv, f (snd kv))) d) k
  = option_map f (dict_get obj_eqb d k).
Proof.
  induction d as [|[k0 v0] d IH]; simpl.
  - reflexivity.
  - destruct (obj_eqb k0 k); [reflexivity | exact IH].
Qed.

Lemma mask_sums_get (masks : dict ObjectInfo (tensor bool)) (k : ObjectInfo) :
  NoDup (map id (dict_keys masks)) ->
  dict_get obj_eqb (mask_sums masks) k
  = option_map tsum (dict_get obj_eqb masks k).
Proof.
  intro Hnd. rewrite mask_sums_plain by exact Hnd.
  apply (dict_get_map_value tsum).
Qed.

(** X3. The sums that [match_and_merge] caches are the pixel counts of the
    cached masks, key by key and in the same order: the doubled [for] of the
    two comprehensions recomputes the same dictionary once per mask and
    changes nothing. *)
Theorem cached_sums_are_counts (our_mask new_mask : tensor Z)
  (object_manager : ObjectManager) (new_segments_info : list ObjectInfo) :
  mask_sums (one_hot_ours our_mask object_manager)
  = map (fun kv => (fst kv, tsum (snd kv)))
        (one_hot_ours our_mask object_manager)
  /\ mask_sums (one_hot_news new_mask new_segments_info)
     = map (fun kv => (fst kv, tsum (snd kv)))
           (one_hot_news new_mask new_segments_info).
Proof.
  split; apply mask_sums_plain; apply dict_of_list_nodup.
Qed.

(** ** A candidate matches at most one object *)

(** An IoU above 0.5 takes more than half of each mask. *)
Lemma iou_above_half (m1 m2 : tensor bool) (iou : tfloat) (inter union : Z) :
  _get_iou m1 m2 (tsum m1) (tsum m2) = Overlap iou inter union ->
  tgt iou (1 # 2) = true ->
  tsum m1 < 2 * tsum (tmul m1 m2).
Proof.
  intros E Hgt. apply get_iou_overlap_inv in E.
  destruct E as [Ei [Hi [Eu Eiou]]].
  pose proof (shared_le_second m1 m2) as Hle2.
  assert (Hu : 0 < union) by (pose proof (shared_le_first m1 m2); lia).
  rewrite Eiou in Hgt. unfold tdiv in Hgt.
  destruct (Z.eqb_spec union 0) as [E0|_]; [lia|].
  unfold tgt, Qltb in Hgt. apply negb_true_iff in Hgt.
  destruct (Z_lt_le_dec union (2 * inter)) as [Hlt|Hge]; [lia|]. exfalso.
  assert (Hle : (inject_Z inter / inject_Z union <= 1 # 2)%Q).
  { apply Qle_shift_div_r; [unfold Qlt; simpl; lia|].
    unfold Qle. simpl. destruct union; lia. }
  apply Qle_bool_iff in Hle. congruence.
Qed.

Lemma filter_disjoint_sum (A : Type) (f g h : A -> bool) (l : list A) :
  (forall x, In x l -> g x && h x = false) ->
  (List.length (filter (fun x => f x && g x) l)
   + List.length (filter (fun x => f x && h x) l)
   <= List.length (filter f l))%nat.
Proof.
  induction l as [|x l IH]; intro H; simpl.
  - lia.
  - assert (IH' := IH (fun y Hy => H y (or_intror Hy))).
    pose proof (H x (or_introl eq_refl)) as Hx.
    destruct (f x), (g x), (h x); simpl in *; try discriminate; lia.
Qed.

(** Two disjoint masks cannot both have an IoU above 0.5 with a third. *)
Lemma iou_above_half_once (m1 m2 m2' : tensor bool) (iou iou' : tfloat)
  (inter inter' union union' : Z) :
  (forall p, In p frame -> m2 p && m2' p = false) ->
  _get_iou m1 m2 (tsum m1) (tsum m2) = Overlap iou inter union ->
  tgt iou (1 # 2) = true ->
  _get_iou m1 m2' (tsum m1) (tsum m2') = Overlap iou' inter' union' ->
  tgt iou' (1 # 2) = false.
Proof.
  intros Hdis E Hgt E'.
  destruct (tgt iou' (1 # 2)) eqn:Hgt'; [|reflexivity]. exfalso.
  pose proof (@iou_above_half _ _ _ _ _ E Hgt) as H1.
  pose proof (@iou_above_half _ _ _ _ _ E' Hgt') as H2.
  pose proof (filter_disjoint_sum m1 m2 m2' frame Hdis) as H3.
  unfold tsum, tmul in H1, H2. lia.
Qed.

(** X4. Inside [match_and_merge] a candidate has an IoU above 0.5 with at
    most one object of the registry: the masks of two registered objects
    with different temporary indices are disjoint, and more than half of the
    candidate cannot lie in both.  The first match of the IoU mode is
    therefore the only possible one, whatever the order of the registry. *)
Theorem iou_match_is_unique (our_mask new_mask : tensor Z)
  (object_manager : ObjectManager) (new_segments_info : list ObjectInfo)
  (new_obj o1 o2 : ObjectInfo) (t1 t2 : Z) :
  NoDup (registered_ids (obj_to_tmp_id object_manager)) ->
  In (o1, t1) (obj_to_tmp_id object_manager) ->
  In (o2, t2) (obj_to_tmp_id object_manager) ->
  t1 <> t2 ->
  iou_exceeds_half (one_hot_ours our_mask object_manager)
                   (one_hot_news new_mask new_segments_info)
                   (mask_sums (one_hot_ours our_mask object_manager))
                   (mask_sums (one_hot_news new_mask new_segments_info))
                   new_obj o1 = true ->
  iou_exceeds_half (one_hot_ours our_mask object_manager)
                   (one_hot_news new_mask new_segments_info)
                   (mask_sums (one_hot_ours our_mask object_manager))
                   (mask_sums (one_hot_news new_mask new_segments_info))
                   new_obj o2 = false.
Proof.
  intros Hnd H1 H2 Ht. unfold iou_exceeds_half, pair_iou.
  rewrite !mask_sums_get by apply dict_of_list_nodup.
  rewrite (one_hot_ours_get our_mask object_manager o1 o1 t1 Hnd H1 eq_refl).
  rewrite (one_hot_ours_get our_mask object_manager o2 o2 t2 Hnd H2 eq_refl).
  destruct (dict_get obj_eqb (one_hot_news new_mask new_segments_info) new_obj)
    as [m1|]; [|discriminate].
  cbn [option_map].
  destruct (_get_iou m1 (teq our_mask t1) (tsum m1) (tsum (teq our_mask t1)))
    as [|iou inter union] eqn:E1; [discriminate|].
  intro Hgt.
  destruct (_get_iou m1 (teq our_mask t2) (tsum m1) (tsum (teq our_mask t2)))
    as [|iou' inter' union'] eqn:E2; [reflexivity|].
  apply (@iou_above_half_once m1 (teq our_mask t1) (teq our_mask t2) iou iou'
           inter inter' union union'); try assumption.
  intros p _. unfold teq.
  destruct (Z.eqb_spec (our_mask p) t1) as [Ea|_]; [|reflexivity].
  destruct (Z.eqb_spec (our_mask p) t2) as [Eb|_]; [|reflexivity].
  exfalso. apply Ht. congruence.
Qed.

(** ** What the matching loops keep *)

Section MatchingFacts.

Variables our_masks new_masks : dict ObjectInfo (tensor bool).
Variables our_sums new_sums : dict ObjectInfo Z.
Variable status : option bool.
Variable engulf_threshold : Q.

(** In IoU mode the step of a later candidate leaves the pairs of the
    matching as they are. *)
Lemma iou_step_keeps_pairs (ours : list ObjectInfo) (st st' : matching)
  (c o c0 : ObjectInfo) :
  iou_match_step our_masks new_masks our_sums new_sums status ours st c
  = Ok st' ->
  dict_get obj_eqb (our_to_new_matching st) o = Some c0 ->
  dict_get obj_eqb (our_to_new_matching st') o = Some c0.
Proof.
  unfold iou_match_step.
  destruct (negb (isthing_eqb (isthing c) status)); intros H Hget.
  - injection H as <-. exact Hget.
  - apply bind_ok_inv in H. destruct H as [[[o' u]|] [Hscan H]].
    + injection H as <-. simpl.
      apply iou_scan_some in Hscan. destruct Hscan as [_ [_ Hfree]].
      rewrite obj_get_set_other; [exact Hget|].
      intro E. unfold dict_mem in Hfree.
      rewrite (obj_get_congr (our_to_new_matching st) o' o E), Hget in Hfree.
      discriminate Hfree.
    + inv_lookup H. injection H as <-. exact Hget.
Qed.

(** X5. In IoU mode an object that is matched stays matched to the same
    candidate: the scans of the later candidates skip it, so the first
    candidate to reach an IoU above 0.5 with an object keeps it (in engulf
    mode the last one does). *)
Theorem iou_match_never_displaced (ours cands : list ObjectInfo)
  (st0 st : matching) (our_obj new_obj : ObjectInfo) :
  for_each (iou_match_step our_masks new_masks our_sums new_sums status ours)
           cands st0 = Ok st ->
  dict_get obj_eqb (our_to_new_matching st0) our_obj = Some new_obj ->
  dict_get obj_eqb (our_to_new_matching st) our_obj = Some new_obj.
Proof.
  intros H Hget.
  apply (for_each_invariant _
           (fun s => dict_get obj_eqb (our_to_new_matching s) our_obj
                     = Some new_obj)) in H; [exact H | | exact Hget].
  intros s x s' Hs Hx. eapply iou_step_keeps_pairs; [exact Hx | exact Hs].
Qed.

Lemma iou_step_handled_mono (ours : list ObjectInfo) (st st' : matching)
  (c c0 : ObjectInfo) :
  iou_match_step our_masks new_masks our_sums new_sums status ours st c
  = Ok st' ->
  handled c0 st -> handled c0 st'.
Proof.
  intros Hstep [[o Ho]|[Hnew Hmem]].
  - left. exists o. eapply iou_step_keeps_pairs; [exact Hstep | exact Ho].
  - right. revert Hstep. unfold iou_match_step.
    destruct (negb (isthing_eqb (isthing c) status)); intro H.
    + injection H as <-. auto.
    + apply bind_ok_inv in H. destruct H as [[[o' u]|] [_ H]].
      * injection H as <-. simpl. split; [exact Hnew|].
        rewrite key_mem_set, Hmem. apply orb_true_r.
      * inv_lookup H. injection H as <-. simpl. split.
        -- apply in_or_app. left. exact Hnew.
        -- rewrite key_mem_set, Hmem. apply orb_true_r.
Qed.

Lemma iou_step_handles (ours : list ObjectInfo) (st st' : matching)
  (c : ObjectInfo) :
  isthing c = status ->
  iou_match_step our_masks new_masks our_sums new_sums status ours st c
  = Ok st' ->
  handled c st'.
Proof.
  intro Ht. unfold iou_match_step.
  replace (isthing_eqb (isthing c) status) with true
    by (symmetry; apply isthing_eqb_eq; exact Ht).
  cbn [negb]. intro H.
  apply bind_ok_inv in H. destruct H as [[[o' u]|] [_ H]].
  - injection H as <-. left. exists o'. simpl.
    apply obj_get_set_same. reflexivity.
  - inv_lookup H. injection H as <-. right. simpl. split.
    + apply in_or_app. right. left. reflexivity.
    + rewrite key_mem_set.
      replace (key_eqb (c, true) (c, true)) with true
        by (symmetry; apply key_eqb_proj; reflexivity).
      reflexivity.
Qed.

Lemma iou_loop_handles (ours cands : list ObjectInfo) :
  forall st0 st,
    for_each (iou_match_step our_masks new_masks our_sums new_sums status ours)
             cands st0 = Ok st ->
    (forall c, handled c st0 -> handled c st)
    /\ forall c, In c cands -> isthing c = status -> handled c st.
Proof.
  induction cands as [|x cands IH]; intros st0 st H; simpl in H.
  - injection H as <-. split; [auto | intros c []].
  - apply bind_ok_inv in H. destruct H as [st1 [H1 H2]].
    destruct (IH _ _ H2) as [Hmono Hall]. split.
    + intros c Hc. apply Hmono. eapply iou_step_handled_mono; eassumption.
    + intros c [<-|Hin] Ht.
      * apply Hmono. eapply iou_step_handles; eassumption.
      * apply Hall; assumption.
Qed.

(** X6. The IoU mode loses no candidate: when the matching of a pass
    returns, every candidate of the category type of the pass is either
    paired with an object of the registry or recorded as a new object with
    an entry to render. *)
Theorem iou_no_candidate_lost (ours cands : list ObjectInfo) (st : matching)
  (new_obj : ObjectInfo) :
  iou_matching our_masks new_masks our_sums new_sums status ours cands
  = Ok st ->
  In new_obj cands -> isthing new_obj = status ->
  (exists our_obj,
     dict_get obj_eqb (our_to_new_matching st) our_obj = Some new_obj)
  \/ (In new_obj (new_objects st)
      /\ dict_mem key_eqb (matched_area st) (new_obj, true) = true).
Proof.
  unfold iou_matching. intros H Hin Ht.
  apply bind_ok_inv in H. destruct H as [st1 [H1 H2]].
  destruct (iou_loop_handles _ _ _ H1) as [_ Hall].
  destruct (Hall new_obj Hin Ht) as [[o Ho]|[Hnew Hmem]].
  - left. exists o. destruct (carry_matching _ _ _ _ H2) as [E _].
    rewrite E. exact Ho.
  - right. destruct (carry_matching _ _ _ _ H2) as [_ E]. rewrite E.
    split; [exact Hnew|]. eapply carry_mem_mono; eassumption.
Qed.

(** The loop over the registry gives an entry to every unmatched object of
    the category type. *)
Lemma carry_covers_unmatched (ours : list ObjectInfo) :
  forall st st',
    for_each (carry_step our_sums status) ours st = Ok st' ->
    forall o, In o ours -> isthing o = status ->
      dict_mem obj_eqb (our_to_new_matching st) o = false ->
      dict_mem key_eqb (matched_area st') (o, false) = true.
Proof.
  induction ours as [|o1 rest IH]; intros st st' H o Hin Ht Hm; simpl in H.
  - contradiction.
  - apply bind_ok_inv in H. destruct H as [st1 [H1 H2]].
    destruct Hin as [->|Hin].
    + eapply carry_mem_mono; [exact H2|].
      unfold carry_step in H1. rewrite Ht, Hm in H1.
      replace (isthing_eqb status status) with true in H1
        by (symmetry; apply isthing_eqb_eq; reflexivity).
      simpl in H1. inv_lookup H1. injection H1 as <-. simpl.
      rewrite key_mem_set.
      replace (key_eqb (o, false) (o, false)) with true
        by (symmetry; apply key_eqb_proj; reflexivity).
      reflexivity.
    + eapply IH; [exact H2 | exact Hin | exact Ht |].
      apply carry_step_matching in H1. destruct H1 as [E _].
      rewrite E. exact Hm.
Qed.

(** X7. In both modes no object of the registry is dropped by a pass: when
    the matching returns, every object of the category type of the pass has
    an entry to render, matched or carried over, and the entries have
    pairwise different keys, so each object is rendered exactly once. *)
Theorem every_object_has_one_entry (ours cands : list ObjectInfo)
  (st : matching) :
  iou_matching our_masks new_masks our_sums new_sums status ours cands = Ok st
  \/ engulf_matching our_masks new_masks our_sums new_sums status
                     engulf_threshold ours cands = Ok st ->
  NoDup (map key_proj (dict_keys (matched_area st)))
  /\ forall our_obj, In our_obj ours -> isthing our_obj = status ->
       dict_mem key_eqb (matched_area st) (our_obj, false) = true.
Proof.
  intro H.
  destruct (@matching_well_keyed _ _ _ _ _ _ _ _ _ H) as [Hnd Hcov].
  split; [exact Hnd|]. intros o Hin Ht.
  destruct (dict_mem obj_eqb (our_to_new_matching st) o) eqn:Hm;
    [apply Hcov; exact Hm|].
  assert (Hcarry : exists st1,
            for_each (carry_step our_sums status) ours st1 = Ok st).
  { destruct H as [H|H]; [unfold iou_matching in H | unfold engulf_matching in H];
      apply bind_ok_inv in H; destruct H as [st1 [_ H2]]; exists st1; exact H2. }
  destruct Hcarry as [st1 H2].
  eapply carry_covers_unmatched; [exact H2 | exact Hin | exact Ht |].
  destruct (carry_matching _ _ _ _ H2) as [E _]. rewrite <- E. exact Hm.
Qed.

End MatchingFacts.

(** ** Candidates and the pairs of the matching *)

Lemma dict_set_values (d : dict ObjectInfo ObjectInfo) (o c : ObjectInfo) :
  NoDup (map (fun e => id (snd e)) d) ->
  ~ In (id c) (map (fun e => id (snd e)) d) ->
  NoDup (map (fun e => id (snd e)) (dict_set obj_eqb d o c))
  /\ forall e, In e (dict_set obj_eqb d o c) -> In e d \/ snd e = c.
Proof.
  induction d as [|[k v] d IH]; simpl; intros Hnd Hc.
  - split; [repeat constructor; intros [] |].
    intros e [<-|[]]. right. reflexivity.
  - inversion Hnd as [|x l Hx Hnd']; subst.
    destruct (obj_eqb k o).
    + split.
      * simpl. constructor; [|exact Hnd']. intro H. apply Hc. right. exact H.
      * intros e [<-|He]; [right; reflexivity | left; right; exact He].
    + destruct IH as [IH1 IH2]; [exact Hnd' | intro H; apply Hc; right; exact H|].
      split.
      * simpl. constructor; [|exact IH1]. intro H.
        apply in_map_iff in H. destruct H as [e [Ee He]].
        destruct (IH2 e He) as [Hd|Hs].
        -- apply Hx. rewrite <- Ee. apply in_map_iff. exists e. auto.
        -- apply Hc. left. rewrite <- Ee, Hs. reflexivity.
      * intros e [<-|He]; [left; left; reflexivity|].
        destruct (IH2 e He) as [Hd|Hs]; [left; right; exact Hd | right; exact Hs].
Qed.

(** A loop whose steps leave the pairs as they are or pair the candidate at
    hand never pairs a candidate twice. *)
Lemma pairs_stay_distinct (body : matching -> ObjectInfo -> result matching)
  (cands : list ObjectInfo) :
  (forall st c st', body st c = Ok st' ->
     our_to_new_matching st' = our_to_new_matching st
     \/ exists o, our_to_new_matching st'
                  = dict_set obj_eqb (our_to_new_matching st) o c) ->
  NoDup (map id cands) ->
  forall st0 st,
    NoDup (map (fun e => id (snd e)) (our_to_new_matching st0)) ->
    (forall e, In e (our_to_new_matching st0) ->
       ~ In (id (snd e)) (map id cands)) ->
    for_each body cands st0 = Ok st ->
    NoDup (map (fun e => id (snd e)) (our_to_new_matching st)).
Proof.
  intro Hbody. induction cands as [|x cands IH]; intros Hnd st0 st H0 Hnew H;
    simpl in H.
  - injection H as <-. exact H0.
  - apply bind_ok_inv in H. destruct H as [st1 [H1 H2]].
    inversion Hnd as [|y l Hx Hnd']; subst.
    destruct (Hbody _ _ _ H1) as [E|[o E]].
    + apply (IH Hnd' st1 st); [rewrite E; exact H0 | | exact H2].
      intros e He Hin. rewrite E in He. apply (Hnew e He). right. exact Hin.
    + destruct (@dict_set_values (our_to_new_matching st0) o x H0) as [D1 D2].
      { intro Hin. apply in_map_iff in Hin. destruct Hin as [e [Ee He]].
        apply (Hnew e He). left. symmetry. exact Ee. }
      apply (IH Hnd' st1 st); [rewrite E; exact D1 | | exact H2].
      intros e He Hin. rewrite E in He. destruct (D2 e He) as [Hd|Hs].
      * apply (Hnew e Hd). right. exact Hin.
      * apply Hx. rewrite <- Hs. exact Hin.
Qed.

Section CandidateFacts.

Variables our_masks new_masks : dict ObjectInfo (tensor bool).
Variables our_sums new_sums : dict ObjectInfo Z.
Variable status : option bool.
Variable engulf_threshold : Q.

Lemma iou_step_pairs (ours : list ObjectInfo) (st st' : matching)
  (c : ObjectInfo) :
  iou_match_step our_masks new_masks our_sums new_sums status ours st c
  = Ok st' ->
  our_to_new_matching st' = our_to_new_matching st
  \/ exists o, our_to_new_matching st'
               = dict_set obj_eqb (our_to_new_matching st) o c.
Proof.
  unfold iou_match_step.
  destruct (negb (isthing_eqb (isthing c) status)); intro H.
  - injection H as <-. left. reflexivity.
  - apply bind_ok_inv in H. destruct H as [[[o u]|] [_ H]].
    + injection H as <-. right. exists o. reflexivity.
    + inv_lookup H. injection H as <-. left. reflexivity.
Qed.

Lemma engulf_step_pairs (ours : list ObjectInfo) (st st' : matching)
  (c : ObjectInfo) :
  engulf_match_step our_masks new_masks our_sums new_sums status
                    engulf_threshold ours st c = Ok st' ->
  our_to_new_matching st' = our_to_new_matching st
  \/ exists o, our_to_new_matching st'
               = dict_set obj_eqb (our_to_new_matching st) o c.
Proof.
  unfold engulf_match_step.
  destruct (negb (isthing_eqb (isthing c) status)); intro H.
  - injection H as <-. left. reflexivity.
  - apply bind_ok_inv in H. destruct H as [[o u| |] [_ H]].
    + injection H as <-. right. exists o. reflexivity.
    + injection H as <-. left. reflexivity.
    + inv_lookup H. injection H as <-. left. reflexivity.
Qed.

(** X8. In both modes no candidate is merged into two objects: when the
    candidates carry pairwise different identities, the candidates paired
    with objects by the matching of a pass are pairwise different. *)
Theorem no_candidate_merged_twice (ours cands : list ObjectInfo)
  (st : matching) :
  NoDup (map id cands) ->
  iou_matching our_masks new_masks our_sums new_sums status ours cands = Ok st
  \/ engulf_matching our_masks new_masks our_sums new_sums status
                     engulf_threshold ours cands = Ok st ->
  NoDup (map (fun e => id (snd e)) (our_to_new_matching st)).
Proof.
  intros Hnd [H|H]; [unfold iou_matching in H | unfold engulf_matching in H];
    apply bind_ok_inv in H; destruct H as [st1 [H1 H2]];
    destruct (carry_matching _ _ _ _ H2) as [E _]; rewrite E.
  - apply (@pairs_stay_distinct
             (iou_match_step our_masks new_masks our_sums new_sums status ours)
             cands) with (st0 := empty_matching);
      [ | exact Hnd | constructor | intros e [] | exact H1].
    intros s c s'. apply iou_step_pairs.
  - apply (@pairs_stay_distinct
             (engulf_match_step our_masks new_masks our_sums new_sums status
                                engulf_threshold ours)
             cands) with (st0 := empty_matching);
      [ | exact Hnd | constructor | intros e [] | exact H1].
    intros s c s'. apply engulf_step_pairs.
Qed.

(** X9. With an engulf threshold of 1 or more, and the sums that
    [match_and_merge] caches, the scan of the engulf mode never ends in a
    discard: the part of a candidate that an object covers is at most the
    whole candidate. *)
Theorem engulf_never_above_one (new_obj : ObjectInfo) (ours : list ObjectInfo) :
  (1 <= engulf_threshold)%Q ->
  sum_is_count new_masks new_sums new_obj ->
  engulf_scan our_masks new_masks our_sums new_sums status engulf_threshold
              new_obj ours <> Ok EEngulfed.
Proof.
  intros Hthr Hsum. induction ours as [|o rest IH]; simpl.
  - discriminate.
  - destruct (negb (isthing_eqb (isthing o) status)); [exact IH|].
    intro H. do 4 inv_lookup H.
    destruct (_get_iou v v0 v1 v2) as [|iou inter union] eqn:Eiou;
      [exact (IH H)|].
    destruct (tgt iou (1 # 2)); [discriminate H|].
    destruct (tgt iou 0); [|exact (IH H)].
    destruct (tgt (tdiv inter v1) engulf_threshold) eqn:Hgt; [|exact (IH H)].
    apply get_iou_overlap_inv in Eiou. destruct Eiou as [Ei [Hi _]].
    pose proof (Hsum v v1 E E1) as Es.
    pose proof (shared_le_first v v0) as Hle.
    unfold tdiv in Hgt.
    destruct (Z.eqb_spec v1 0) as [Ez|_]; [lia|].
    unfold tgt, Qltb in Hgt. apply negb_true_iff in Hgt.
    assert (Hq : (inject_Z inter / inject_Z v1 <= engulf_threshold)%Q).
    { apply Qle_trans with (y := 1%Q); [|exact Hthr].
      apply Qle_shift_div_r; [unfold Qlt; simpl; lia|].
      rewrite Qmult_1_l. rewrite <- Zle_Qle. lia. }
    apply Qle_bool_iff in Hq. congruence.
Qed.

(** The scans of a candidate without pixels find nothing. *)
Lemma empty_candidate_scans (m : dict ObjectInfo ObjectInfo)
  (new_obj : ObjectInfo) (mask : tensor bool) (s : Z) (ours : list ObjectInfo) :
  dict_get obj_eqb new_masks new_obj = Some mask ->
  (forall p, In p frame -> mask p = false) ->
  dict_get obj_eqb new_sums new_obj = Some s ->
  cached_ours our_masks our_sums ours ->
  iou_scan our_masks new_masks our_sums new_sums status m new_obj ours
  = Ok None
  /\ engulf_scan our_masks new_masks our_sums new_sums status engulf_threshold
                 new_obj ours = Ok ENoHit.
Proof.
  intros Hmask Hempty Hsum Hours.
  assert (Hno : forall m2 s2, _get_iou mask m2 s s2 = NoOverlap).
  { intros m2 s2. apply get_iou_no_overlap. apply tsum_zero_iff.
    intros p Hp. unfold tmul. rewrite (Hempty p Hp). reflexivity. }
  induction ours as [|o rest IH]; simpl; [split; reflexivity|].
  destruct (IH (fun x Hx => Hours x (or_intror Hx))) as [IH1 IH2].
  destruct (Hours o (or_introl eq_refl)) as [Hom Hos].
  destruct (dict_mem_lookup _ _ _ Hom) as [m2 Hm2].
  destruct (dict_mem_lookup _ _ _ Hos) as [s2 Hs2].
  unfold dict_lookup. rewrite Hmask, Hsum, Hm2, Hs2. cbn [bind].
  rewrite Hno.
  destruct (negb (isthing_eqb (isthing o) status)); cbn [orb]; [auto|].
  destruct (dict_mem obj_eqb m o); auto.
Qed.

(** X10. A candidate without a pixel in the frame is never matched and never
    discarded: in both modes its step records it as a new object, with the
    cached sum as its area, so that the rendering registers an identity for
    it although it writes no pixel. *)
Theorem empty_candidate_is_new (ours : list ObjectInfo) (st : matching)
  (new_obj : ObjectInfo) (mask : tensor bool) (s : Z) :
  isthing new_obj = status ->
  dict_get obj_eqb new_masks new_obj = Some mask ->
  (forall p, In p frame -> mask p = false) ->
  dict_get obj_eqb new_sums new_obj = Some s ->
  cached_ours our_masks our_sums ours ->
  iou_match_step our_masks new_masks our_sums new_sums status ours st new_obj
  = Ok (mkMatching (our_to_new_matching st)
                   (dict_set key_eqb (matched_area st) (new_obj, true) s)
                   (new_objects st ++ [new_obj]))
  /\ engulf_match_step our_masks new_masks our_sums new_sums status
                       engulf_threshold ours st new_obj
     = Ok (mkMatching (our_to_new_matching st)
                      (dict_set key_eqb (matched_area st) (new_obj, true) s)
                      (new_objects st ++ [new_obj])).
Proof.
  intros Ht Hmask Hempty Hsum Hours.
  destruct (@empty_candidate_scans (our_to_new_matching st) new_obj mask s ours
              Hmask Hempty Hsum Hours) as [H1 H2].
  unfold iou_match_step, engulf_match_step.
  replace (isthing_eqb (isthing new_obj) status) with true
    by (symmetry; apply isthing_eqb_eq; exact Ht).
  cbn [negb]. rewrite H1, H2. cbn [bind].
  unfold dict_lookup. rewrite Hsum. cbn [bind]. split; reflexivity.
Qed.

End CandidateFacts.

(** ** The identities a call creates *)

Lemma count_new_set (d : dict area_key Z) (o : ObjectInfo) (b : bool) (v : Z) :
  (count_new (dict_set key_eqb d (o, b) v)
   <= count_new d + (if b then 1 else 0))%nat.
Proof.
  unfold count_new. induction d as [|[[o' b'] v'] d IH]; simpl.
  - destruct b; simpl; lia.
  - destruct (key_eqb (o', b') (o, b)); simpl.
    + destruct b'; simpl; lia.
    + destruct b'; simpl; lia.
Qed.

Lemma filter_length_perm (A : Type) (f : A -> bool) (l l' : list A) :
  Permutation l l' ->
  List.length (filter f l) = List.length (filter f l').
Proof.
  intro H. induction H as [|x l l' H IH|x y l|l l' l'' H1 IH1 H2 IH2]; simpl.
  - reflexivity.
  - destruct (f x); simpl; lia.
  - destruct (f x), (f y); reflexivity.
  - lia.
Qed.

Lemma count_category_total (cands : list ObjectInfo) :
  (count_category None cands + count_category (Some false) cands
   + count_category (Some true) cands = List.length cands)%nat.
Proof.
  unfold count_category. induction cands as [|c cands IH]; simpl.
  - reflexivity.
  - destruct (isthing c) as [[]|]; simpl; lia.
Qed.

Section CreatedFacts.

Variables our_masks new_masks : dict ObjectInfo (tensor bool).
Variables our_sums new_sums : dict ObjectInfo Z.
Variable status : option bool.
Variable engulf_threshold : Q.

(** A loop over candidates whose steps add at most one new-object entry,
    and none for a candidate of another category type. *)
Lemma new_entries_bounded (body : matching -> ObjectInfo -> result matching)
  (cands : list ObjectInfo) :
  (forall st c st', body st c = Ok st' ->
     (count_new (matched_area st')
      <= count_new (matched_area st)
         + (if isthing_eqb (isthing c) status then 1 else 0))%nat) ->
  forall st0 st,
    for_each body cands st0 = Ok st ->
    (count_new (matched_area st)
     <= count_new (matched_area st0) + count_category status cands)%nat.
Proof.
  intro Hbody. unfold count_category.
  induction cands as [|c cands IH]; intros st0 st H; simpl in H.
  - injection H as <-. simpl. lia.
  - apply bind_ok_inv in H. destruct H as [st1 [H1 H2]].
    pose proof (Hbody _ _ _ H1) as B1. pose proof (IH _ _ H2) as B2.
    simpl. destruct (isthing_eqb (isthing c) status); simpl; lia.
Qed.

Lemma iou_step_new_entries (ours : list ObjectInfo) (st st' : matching)
  (c : ObjectInfo) :
  iou_match_step our_masks new_masks our_sums new_sums status ours st c
  = Ok st' ->
  (count_new (matched_area st')
   <= count_new (matched_area st)
      + (if isthing_eqb (isthing c) status then 1 else 0))%nat.
Proof.
  unfold iou_match_step.
  destruct (isthing_eqb (isthing c) status); cbn [negb]; intro H.
  - apply bind_ok_inv in H. destruct H as [[[o u]|] [_ H]].
    + injection H as <-. simpl.
      pose proof (count_new_set (matched_area st) o false u). simpl in *. lia.
    + inv_lookup H. injection H as <-. simpl.
      apply (count_new_set (matched_area st) c true v).
  - injection H as <-. lia.
Qed.

Lemma engulf_step_new_entries (ours : list ObjectInfo) (st st' : matching)
  (c : ObjectInfo) :
  engulf_match_step our_masks new_masks our_sums new_sums status
                    engulf_threshold ours st c = Ok st' ->
  (count_new (matched_area st')
   <= count_new (matched_area st)
      + (if isthing_eqb (isthing c) status then 1 else 0))%nat.
Proof.
  unfold engulf_match_step.
  destruct (isthing_eqb (isthing c) status); cbn [negb]; intro H.
  - apply bind_ok_inv in H. destruct H as [[o u| |] [_ H]].
    + injection H as <-. simpl.
      pose proof (count_new_set (matched_area st) o false u). simpl in *. lia.
    + injection H as <-. lia.
    + inv_lookup H. injection H as <-. simpl.
      apply (count_new_set (matched_area st) c true v).
  - injection H as <-. lia.
Qed.

Lemma carry_new_entries (ours : list ObjectInfo) (st st' : matching) :
  for_each (carry_step our_sums status) ours st = Ok st' ->
  (count_new (matched_area st') <= count_new (matched_area st))%nat.
Proof.
  intro H.
  apply (for_each_invariant _
           (fun s => (count_new (matched_area s)
                      <= count_new (matched_area st))%nat)) in H;
    [exact H | | lia].
  intros s o s' Hs. unfold carry_step.
  destruct (negb (isthing_eqb (isthing o) status)
            || dict_mem obj_eqb (our_to_new_matching s) o); intro Hx.
  - injection Hx as <-. exact Hs.
  - inv_lookup Hx. injection Hx as <-. simpl.
    pose proof (count_new_set (matched_area s) o false v). simpl in *. lia.
Qed.

Lemma matching_new_entries (ours cands : list ObjectInfo) (st : matching) :
  iou_matching our_masks new_masks our_sums new_sums status ours cands = Ok st
  \/ engulf_matching our_masks new_masks our_sums new_sums status
                     engulf_threshold ours cands = Ok st ->
  (count_new (matched_area st) <= count_category status cands)%nat.
Proof.
  intros [H|H]; [unfold iou_matching in H | unfold engulf_matching in H];
    apply bind_ok_inv in H; destruct H as [st1 [H1 H2]];
    pose proof (carry_new_entries _ _ H2) as B2.
  - pose proof (@new_entries_bounded
                  (iou_match_step our_masks new_masks our_sums new_sums status
                                  ours) cands
                  (fun s c s' => @iou_step_new_entries ours s s' c)
                  _ _ H1) as B1.
    simpl in B1. lia.
  - pose proof (@new_entries_bounded
                  (engulf_match_step our_masks new_masks our_sums new_sums
                                     status engulf_threshold ours) cands
                  (fun s c s' => @engulf_step_new_entries ours s s' c)
                  _ _ H1) as B1.
    simpl in B1. lia.
Qed.

(** The rendering appends one identity to the history for each new-object
    entry and leaves the rest of the history alone. *)
Lemma render_step_history (m : dict ObjectInfo ObjectInfo)
  (s s' : ObjectManager * tensor Z) (e : area_key * Z) :
  render_step our_masks new_masks m s e = Ok s' ->
  exists created,
    all_historical_object_ids (fst s')
    = all_historical_object_ids (fst s) ++ created
    /\ List.length created = if snd (fst e) then 1%nat else 0%nat.
Proof.
  destruct s as [om mask]. destruct e as [[obj is_new] area].
  unfold render_step. destruct is_new.
  - unfold add_new_objects. cbn [index0 bind]. intro H. inv_lookup H.
    injection H as <-. simpl. eexists. split; reflexivity.
  - destruct (dict_get obj_eqb m obj) as [c|]; intro H.
    + do 2 inv_lookup H. apply bind_ok_inv in H. destruct H as [o [_ H]].
      injection H as <-. simpl. exists []. rewrite app_nil_r. auto.
    + inv_lookup H. apply bind_ok_inv in H. destruct H as [o [_ H]].
      injection H as <-. simpl. exists []. rewrite app_nil_r. auto.
Qed.

Lemma render_history (m : dict ObjectInfo ObjectInfo)
  (es : list (area_key * Z)) :
  forall s s', for_each (render_step our_masks new_masks m) es s = Ok s' ->
  exists created,
    all_historical_object_ids (fst s')
    = all_historical_object_ids (fst s) ++ created
    /\ List.length created = count_new es.
Proof.
  unfold count_new. induction es as [|e es IH]; intros s s' H; simpl in H.
  - injection H as <-. exists []. rewrite app_nil_r. auto.
  - apply bind_ok_inv in H. destruct H as [s1 [H1 H2]].
    destruct (render_step_history _ _ _ H1) as [c1 [E1 L1]].
    destruct (IH _ _ H2) as [c2 [E2 L2]].
    exists (c1 ++ c2). split.
    + rewrite E2, E1, app_assoc. reflexivity.
    + rewrite length_app, L1, L2. destruct e as [[obj b] area].
      cbn [filter fst snd]. destruct b; simpl; lia.
Qed.

(** One pass creates at most as many identities as there are candidates of
    its category type. *)
Lemma merge_pass_history (mode : string) (cands : list ObjectInfo)
  (s s' : ObjectManager * tensor Z) :
  merge_pass mode our_masks new_masks our_sums new_sums cands
             engulf_threshold s status = Ok s' ->
  exists created,
    all_historical_object_ids (fst s')
    = all_historical_object_ids (fst s) ++ created
    /\ (List.length created <= count_category status cands)%nat.
Proof.
  destruct s as [om mask]. unfold merge_pass.
  assert (Hrender : forall st,
            iou_matching our_masks new_masks our_sums new_sums status
                         (dict_keys (obj_to_tmp_id om)) cands = Ok st
            \/ engulf_matching our_masks new_masks our_sums new_sums status
                               engulf_threshold
                               (dict_keys (obj_to_tmp_id om)) cands = Ok st ->
            render our_masks new_masks st om mask = Ok s' ->
            exists created,
              all_historical_object_ids (fst s')
              = all_historical_object_ids om ++ created
              /\ (List.length created <= count_category status cands)%nat).
  { intros st Hst Hr. unfold render in Hr.
    destruct (render_history _ _ _ Hr) as [created [E L]].
    exists created. split; [exact E|].
    pose proof (matching_new_entries _ _ Hst) as B.
    unfold count_new in L, B.
    rewrite (filter_length_perm _ (sorted_by_area_perm (matched_area st))) in L.
    rewrite L. exact B. }
  destruct (String.eqb mode "iou").
  - unfold merge_by_iou. intro H. apply bind_ok_inv in H.
    destruct H as [st [Hst Hr]]. apply (Hrender st); auto.
  - destruct (String.eqb mode "engulf").
    + unfold merge_by_engulf. intro H. apply bind_ok_inv in H.
      destruct H as [st [Hst Hr]]. apply (Hrender st); auto.
    + intro H. injection H as <-. exists []. rewrite app_nil_r.
      split; [reflexivity | simpl; lia].
Qed.

End CreatedFacts.

Lemma merge_passes_history (mode : string)
  (our_masks new_masks : dict ObjectInfo (tensor bool)) (cands : list ObjectInfo)
  (engulf_threshold : Q) (om : ObjectManager) (mask : tensor Z)
  (s' : ObjectManager * tensor Z) :
  merge_passes mode our_masks new_masks cands engulf_threshold om mask = Ok s' ->
  exists created,
    all_historical_object_ids (fst s') = all_historical_object_ids om ++ created
    /\ (List.length created <= List.length cands)%nat.
Proof.
  unfold merge_passes, match_isthing. cbn [for_each]. intro H.
  apply bind_ok_inv in H. destruct H as [s1 [H1 H]].
  apply bind_ok_inv in H. destruct H as [s2 [H2 H]].
  apply bind_ok_inv in H. destruct H as [s3 [H3 H]].
  injection H as <-.
  destruct (@merge_pass_history _ _ _ _ _ _ _ _ _ _ H1) as [c1 [E1 L1]].
  destruct (@merge_pass_history _ _ _ _ _ _ _ _ _ _ H2) as [c2 [E2 L2]].
  destruct (@merge_pass_history _ _ _ _ _ _ _ _ _ _ H3) as [c3 [E3 L3]].
  exists (c1 ++ c2 ++ c3). split.
  - rewrite E3, E2, E1. simpl. rewrite <- !app_assoc. reflexivity.
  - rewrite !length_app. pose proof (count_category_total cands). lia.
Qed.

(** X11. Every call returns, and the history of identities only grows at
    its end: the identities created are at most as many as the candidates,
    none when the cap discards them.  So a positive [max_num_objects] that
    the history respects before a call is respected after it: the cap is an
    invariant of [match_and_merge], in every mode. *)
Theorem population_cap_is_kept (our_mask new_mask : tensor Z)
  (object_manager : ObjectManager) (new_segments_info : list ObjectInfo)
  (mode : string) (max_num_objects : Z) (engulf_threshold : Q) :
  exists out created,
    match_and_merge our_mask new_mask object_manager new_segments_info mode
                    max_num_objects engulf_threshold = Ok out
    /\ all_historical_object_ids (out_manager out)
       = all_historical_object_ids object_manager ++ created
    /\ (List.length created <= List.length new_segments_info)%nat
    /\ (0 < max_num_objects ->
        Z.of_nat (List.length (all_historical_object_ids object_manager))
        <= max_num_objects ->
        Z.of_nat (List.length (all_historical_object_ids (out_manager out)))
        <= max_num_objects).
Proof.
  destruct (match_and_merge_total our_mask new_mask object_manager
              new_segments_info mode max_num_objects engulf_threshold)
    as [out Hout].
  exists out. pose proof Hout as H. unfold match_and_merge in H.
  apply bind_ok_inv in H. destruct H as [s1 [H1 H]].
  apply bind_ok_inv in H. destruct H as [s2 [H2 H]].
  injection H as <-. cbn [out_manager].
  assert (Hhist : all_historical_object_ids (fst s2)
                  = all_historical_object_ids (fst s1)).
  { unfold make_one_hot in H2. apply bind_ok_inv in H2.
    destruct H2 as [d [_ H2]]. injection H2 as <-. reflexivity. }
  destruct (@merge_passes_history _ _ _ _ _ _ _ _ H1) as [created [E L]].
  exists created. split; [exact Hout|]. rewrite Hhist, E.
  split; [reflexivity|].
  destruct ((0 <? max_num_objects)
            && (max_num_objects <?
                Z.of_nat (List.length (all_historical_object_ids object_manager))
                + Z.of_nat (List.length new_segments_info))) eqn:Hcap.
  - simpl in L. split; [lia|]. intros _ Hle.
    destruct created; [rewrite app_nil_r; exact Hle | simpl in L; lia].
  - split; [exact L|]. intros Hpos Hle. rewrite length_app.
    apply andb_false_iff in Hcap. destruct Hcap as [Hc|Hc].
    + apply Z.ltb_ge in Hc. lia.
    + apply Z.ltb_ge in Hc. lia.
Qed.

(** ** Pixels that nothing claims *)

Lemma fold_set_values (V : Type) (kvs d : dict ObjectInfo V) (k : ObjectInfo)
  (v : V) :
  In (k, v) (fold_left (fun d kv => dict_set obj_eqb d (fst kv) (snd kv)) kvs d) ->
  In v (map snd d) \/ In v (map snd kvs).
Proof.
  revert d. induction kvs as [|[k0 v0] kvs IH]; intros d H; simpl in H.
  - left. apply in_map_iff. exists (k, v). auto.
  - destruct (IH _ H) as [Hd|Hk]; [|right; right; exact Hk].
    apply in_map_iff in Hd. destruct Hd as [[k1 v1] [E Hin]]. simpl in E.
    subst v1. apply in_dict_set in Hin.
    destruct Hin as [Hin|[-> _]].
    + left. apply in_map_iff. exists (k1, v). auto.
    + right. left. reflexivity.
Qed.

Lemma dict_of_list_value (V : Type) (kvs : dict ObjectInfo V) (k : ObjectInfo)
  (v : V) :
  dict_get obj_eqb (dict_of_list obj_eqb kvs) k = Some v -> In v (map snd kvs).
Proof.
  intro H. apply dict_get_in in H. destruct H as [k' [Hin _]].
  unfold dict_of_list in Hin. apply fold_set_values in Hin.
  destruct Hin as [[]|Hin]. exact Hin.
Qed.

(** A pixel of a cached mask of the registry carries a registered temporary
    index; a pixel of a cached mask of a candidate carries the identity of a
    candidate. *)
Lemma our_mask_at (our_mask : tensor Z) (om : ObjectManager) (obj : ObjectInfo)
  (p : pixel) :
  mask_at (one_hot_ours our_mask om) obj p = true ->
  In (our_mask p) (map snd (obj_to_tmp_id om)).
Proof.
  unfold mask_at.
  destruct (dict_get obj_eqb (one_hot_ours our_mask om) obj) as [m|] eqn:E;
    [|discriminate].
  intro Hp. unfold one_hot_ours in E. apply dict_of_list_value in E.
  rewrite map_map in E. apply in_map_iff in E. destruct E as [[o t] [Em Hin]].
  simpl in Em. subst m. unfold teq in Hp. apply Z.eqb_eq in Hp.
  rewrite Hp. apply in_map_iff. exists (o, t). auto.
Qed.

Lemma new_mask_at (new_mask : tensor Z) (cands : list ObjectInfo)
  (obj : ObjectInfo) (p : pixel) :
  mask_at (one_hot_news new_mask cands) obj p = true ->
  In (new_mask p) (map id cands).
Proof.
  unfold mask_at.
  destruct (dict_get obj_eqb (one_hot_news new_mask cands) obj) as [m|] eqn:E;
    [|discriminate].
  intro Hp. unfold one_hot_news in E. apply dict_of_list_value in E.
  rewrite map_map in E. apply in_map_iff in E. destruct E as [c [Em Hin]].
  simpl in Em. subst m. unfold teq in Hp. apply Z.eqb_eq in Hp.
  rewrite Hp. apply in_map. exact Hin.
Qed.

Section UnclaimedFacts.

Variables our_masks new_masks : dict ObjectInfo (tensor bool).
Variables our_sums new_sums : dict ObjectInfo Z.
Variable engulf_threshold : Q.
Variable p : pixel.

Hypothesis ours_free : forall obj, mask_at our_masks obj p = false.
Hypothesis news_free : forall obj, mask_at new_masks obj p = false.

Lemma nothing_claims (m : dict ObjectInfo ObjectInfo) (e : area_key * Z) :
  claims our_masks new_masks m e p = false.
Proof.
  destruct e as [[obj is_new] area]. unfold claims.
  destruct is_new; [apply news_free|].
  destruct (dict_get obj_eqb m obj) as [c|]; [|apply ours_free].
  rewrite ours_free, news_free. reflexivity.
Qed.

Lemma merge_pass_unclaimed (mode : string) (cands : list ObjectInfo)
  (s s' : ObjectManager * tensor Z) (status : option bool) :
  merge_pass mode our_masks new_masks our_sums new_sums cands
             engulf_threshold s status = Ok s' ->
  snd s' p = snd s p.
Proof.
  destruct s as [om mask]. unfold merge_pass.
  assert (Hrender : forall st,
            render our_masks new_masks st om mask = Ok s' ->
            snd s' p = mask p).
  { intros st Hr. unfold render in Hr.
    rewrite (@render_unclaimed our_masks new_masks (our_to_new_matching st) p
               (sorted_by_area (matched_area st))
               (fun e _ => nothing_claims (our_to_new_matching st) e)
               (om, mask) s' Hr).
    reflexivity. }
  destruct (String.eqb mode "iou").
  - unfold merge_by_iou. intro H. apply bind_ok_inv in H.
    destruct H as [st [_ Hr]]. exact (Hrender st Hr).
  - destruct (String.eqb mode "engulf").
    + unfold merge_by_engulf. intro H. apply bind_ok_inv in H.
      destruct H as [st [_ Hr]]. exact (Hrender st Hr).
    + intro H. injection H as <-. reflexivity.
Qed.

End UnclaimedFacts.

Lemma rebuild_ids (old : dict ObjectInfo Z) (ids : list Z) :
  forall k d, rebuild old ids k = Ok d -> registered_ids d = ids.
Proof.
  induction ids as [|i ids IH]; intros k d H; simpl in H.
  - injection H as <-. reflexivity.
  - destruct (find_entry old i) as [o|] eqn:Ho; [|discriminate H].
    apply bind_ok_inv in H. destruct H as [d' [Hd' H]]. injection H as <-.
    simpl. rewrite (IH _ _ Hd'). destruct (find_entry_id _ _ Ho) as [E _].
    rewrite E. reflexivity.
Qed.

(** X12. [match_and_merge] never labels a pixel that nothing claims: a pixel
    whose label in the previous mask is not the temporary index of a
    registered object, and whose label in the new mask is not the identity
    of a candidate, is background in the output, in every mode. *)
Theorem unclaimed_pixel_stays_background (our_mask new_mask : tensor Z)
  (object_manager : ObjectManager) (new_segments_info : list ObjectInfo)
  (mode : string) (max_num_objects : Z) (engulf_threshold : Q) (p : pixel) :
  ~ In (our_mask p) (map snd (obj_to_tmp_id object_manager)) ->
  ~ In (new_mask p) (map id new_segments_info) ->
  exists out,
    match_and_merge our_mask new_mask object_manager new_segments_info mode
                    max_num_objects engulf_threshold = Ok out
    /\ out_mask out p = 0.
Proof.
  intros Hours Hnews.
  destruct (match_and_merge_total our_mask new_mask object_manager
              new_segments_info mode max_num_objects engulf_threshold)
    as [out Hout].
  exists out. split; [exact Hout|]. unfold match_and_merge in Hout.
  apply bind_ok_inv in Hout. destruct Hout as [s1 [H1 H]].
  apply bind_ok_inv in H. destruct H as [s2 [H2 H]]. injection H as <-.
  cbn [out_mask].
  set (new_masks := if (0 <? max_num_objects)
                       && (max_num_objects <?
                           Z.of_nat (List.length
                                       (all_historical_object_ids object_manager))
                           + Z.of_nat (List.length new_segments_info))
                    then [] else one_hot_news new_mask new_segments_info) in H1.
  assert (Ho : forall obj,
            mask_at (one_hot_ours our_mask object_manager) obj p = false).
  { intro obj.
    destruct (mask_at (one_hot_ours our_mask object_manager) obj p) eqn:E;
      [|reflexivity].
    exfalso. apply Hours. eapply our_mask_at. exact E. }
  assert (Hn : forall obj, mask_at new_masks obj p = false).
  { intro obj. unfold new_masks.
    destruct ((0 <? max_num_objects) && _); [reflexivity|].
    destruct (mask_at (one_hot_news new_mask new_segments_info) obj p) eqn:E;
      [|reflexivity].
    exfalso. apply Hnews. eapply new_mask_at. exact E. }
  assert (Hmerged : snd s1 p = 0).
  { unfold merge_passes, match_isthing in H1. cbn [for_each] in H1.
    apply bind_ok_inv in H1. destruct H1 as [a [Ha H1]].
    apply bind_ok_inv in H1. destruct H1 as [b [Hb H1]].
    apply bind_ok_inv in H1. destruct H1 as [c [Hc H1]]. injection H1 as <-.
    rewrite (@merge_pass_unclaimed _ _ _ _ _ p Ho Hn _ _ _ _ _ Hc).
    rewrite (@merge_pass_unclaimed _ _ _ _ _ p Ho Hn _ _ _ _ _ Hb).
    rewrite (@merge_pass_unclaimed _ _ _ _ _ p Ho Hn _ _ _ _ _ Ha).
    reflexivity. }
  unfold make_one_hot in H2. apply bind_ok_inv in H2.
  destruct H2 as [d [Hd H2]]. injection H2 as <-. cbn [snd].
  rewrite Hmerged. apply tmp_of_id_none.
  rewrite (rebuild_ids _ _ _ Hd). unfold present_ids. intro Hin.
  apply first_occurrences_in in Hin. apply (proj2 Hin). left. reflexivity.
Qed.

(** ** A registry without objects *)

Section NoObjectOfCategory.

Variables our_masks new_masks : dict ObjectInfo (tensor bool).
Variables our_sums new_sums : dict ObjectInfo Z.
Variable status : option bool.
Variable engulf_threshold : Q.

(** When the registry holds no object of the category type of the pass, the
    scans of both modes look nothing up and find nothing. *)
Lemma scans_without_objects (m : dict ObjectInfo ObjectInfo) (c : ObjectInfo)
  (ours : list ObjectInfo) :
  (forall o, In o ours -> isthing o <> status) ->
  iou_scan our_masks new_masks our_sums new_sums status m c ours = Ok None
  /\ engulf_scan our_masks new_masks our_sums new_sums status engulf_threshold
                 c ours = Ok ENoHit.
Proof.
  induction ours as [|o rest IH]; intro H; simpl; [split; reflexivity|].
  assert (Ho : isthing_eqb (isthing o) status = false).
  { destruct (isthing_eqb (isthing o) status) eqn:E; [|reflexivity].
    apply isthing_eqb_eq in E. exfalso. exact (H o (or_introl eq_refl) E). }
  rewrite Ho. cbn [negb orb].
  apply IH. intros x Hx. apply H. right. exact Hx.
Qed.

Lemma matchings_agree (ours cands : list ObjectInfo) :
  (forall o, In o ours -> isthing o <> status) ->
  iou_matching our_masks new_masks our_sums new_sums status ours cands
  = engulf_matching our_masks new_masks our_sums new_sums status
                    engulf_threshold ours cands.
Proof.
  intro H. unfold iou_matching, engulf_matching. f_equal.
  apply for_each_ext_in. intros s c _.
  unfold iou_match_step, engulf_match_step.
  destruct (scans_without_objects (our_to_new_matching s) c ours H) as [E1 E2].
  rewrite E1, E2. reflexivity.
Qed.

Lemma merge_passes_agree (cands : list ObjectInfo) (om : ObjectManager)
  (mask : tensor Z) :
  (forall o, In o (dict_keys (obj_to_tmp_id om)) -> isthing o <> status) ->
  merge_pass "iou" our_masks new_masks our_sums new_sums cands
             engulf_threshold (om, mask) status
  = merge_pass "engulf" our_masks new_masks our_sums new_sums cands
               engulf_threshold (om, mask) status.
Proof.
  intro H. unfold merge_pass. cbn [String.eqb Ascii.eqb Bool.eqb].
  unfold merge_by_iou, merge_by_engulf. rewrite (matchings_agree _ cands H).
  reflexivity.
Qed.

End NoObjectOfCategory.

Lemma passes_agree (our_masks new_masks : dict ObjectInfo (tensor bool))
  (our_sums new_sums : dict ObjectInfo Z) (engulf_threshold : Q)
  (om0 : ObjectManager) (cands : list ObjectInfo) :
  obj_to_tmp_id om0 = [] ->
  (forall c, In c cands ->
     dict_mem obj_eqb new_masks c = true /\ dict_mem obj_eqb new_sums c = true) ->
  forall statuses, NoDup statuses ->
  forall s, passes_inv om0 statuses s ->
    for_each (merge_pass "iou" our_masks new_masks our_sums new_sums cands
                         engulf_threshold) statuses s
    = for_each (merge_pass "engulf" our_masks new_masks our_sums new_sums
                           cands engulf_threshold) statuses s.
Proof.
  intros Hempty Hnews statuses. induction statuses as [|status rest IH];
    intros Hnd s Hs; [reflexivity|].
  inversion Hnd as [|x l Hfresh Hnd' E]. subst x l. cbn [for_each].
  assert (Hours : forall k,
            In (id k) (registered_ids (obj_to_tmp_id om0)) ->
            dict_mem obj_eqb our_masks k = true
            /\ dict_mem obj_eqb our_sums k = true).
  { intros k Hk. rewrite Hempty in Hk. contradiction. }
  destruct (@merge_pass_total our_masks new_masks our_sums new_sums
              engulf_threshold om0 cands status rest Hours Hnews Hfresh
              "iou"%string s Hs) as [s1 [H1 Hs1]].
  assert (Hagree : merge_pass "engulf" our_masks new_masks our_sums new_sums
                              cands engulf_threshold s status = Ok s1).
  { rewrite <- H1. destruct s as [om mask]. symmetry.
    apply merge_passes_agree. intros o Ho Ht.
    destruct Hs as [Hold _]. simpl in Hold.
    assert (Hin : In (id o) (registered_ids (obj_to_tmp_id om0))).
    { apply (Hold o Ho). left. symmetry. exact Ht. }
    rewrite Hempty in Hin. contradiction. }
  rewrite H1, Hagree. cbn [bind]. apply IH; assumption.
Qed.

(** X13. On a registry without objects the two modes do the same: with
    nothing to match or to be engulfed by, every candidate of a frame
    becomes a new object in the IoU mode and in the engulf mode alike, and
    the calls return the same registry, the same mask and the same
    warnings. *)
Theorem modes_agree_on_empty_registry (our_mask new_mask : tensor Z)
  (object_manager : ObjectManager) (new_segments_info : list ObjectInfo)
  (max_num_objects : Z) (engulf_threshold : Q) :
  obj_to_tmp_id object_manager = [] ->
  match_and_merge our_mask new_mask object_manager new_segments_info "iou"
                  max_num_objects engulf_threshold
  = match_and_merge our_mask new_mask object_manager new_segments_info "engulf"
                    max_num_objects engulf_threshold.
Proof.
  intro Hempty. unfold match_and_merge, merge_passes.
  change (lower "iou") with "iou"%string.
  change (lower "engulf") with "engulf"%string.
  set (too_many := (0 <? max_num_objects)
                   && (max_num_objects <?
                       Z.of_nat (List.length
                                   (all_historical_object_ids object_manager))
                       + Z.of_nat (List.length new_segments_info))).
  set (new_masks := if too_many then []
                    else one_hot_news new_mask new_segments_info).
  set (cands := if too_many then [] else new_segments_info).
  rewrite (@passes_agree (one_hot_ours our_mask object_manager) new_masks
             (mask_sums (one_hot_ours our_mask object_manager))
             (mask_sums new_masks) engulf_threshold object_manager cands
             Hempty) with (statuses := match_isthing);
    [reflexivity | | | ].
  - intros c Hc. rewrite mask_sums_mem. unfold new_masks, cands in *.
    destruct too_many; [contradiction|].
    split; apply new_masks_mem; exact Hc.
  - unfold match_isthing. repeat constructor; simpl; intuition discriminate.
  - split; simpl.
    + intros o Ho _. apply in_registered_ids. exact Ho.
    + intro p. left. reflexivity.
Qed.

(** ** Staleness after a pass with candidates *)

Section StalenessFacts.

Variables our_masks new_masks : dict ObjectInfo (tensor bool).
Variables our_sums new_sums : dict ObjectInfo Z.
Variable status : option bool.
Variable engulf_threshold : Q.

(** X14. A pass touches the records of its category type only, and pokes
    the unmatched ones exactly once, whatever candidates the frame brings:
    after the rendering a registered object of another category type has the
    record it had, and an object of the category type of the pass that the
    matching left unmatched has its record with the staleness incremented
    by one. *)
Theorem pass_pokes_unmatched_only (cands : list ObjectInfo) (st : matching)
  (om om' : ObjectManager) (mask mask' : tensor Z) (r : ObjectInfo) :
  NoDup (registered_ids (obj_to_tmp_id om)) ->
  iou_matching our_masks new_masks our_sums new_sums status
               (dict_keys (obj_to_tmp_id om)) cands = Ok st
  \/ engulf_matching our_masks new_masks our_sums new_sums status
                     engulf_threshold (dict_keys (obj_to_tmp_id om)) cands
     = Ok st ->
  render our_masks new_masks st om mask = Ok (om', mask') ->
  In r (dict_keys (obj_to_tmp_id om)) ->
  (isthing r <> status -> find_object_by_id om' (id r) = Ok r)
  /\ (isthing r = status ->
      dict_mem obj_eqb (our_to_new_matching st) r = false ->
      find_object_by_id om' (id r) = Ok (poke r)).
Proof.
  intros Hids Hst Hr Hin.
  set (ours := dict_keys (obj_to_tmp_id om)) in *.
  assert (Hcat : in_category status ours cands st).
  { destruct Hst as [H|H];
      [eapply iou_matching_category | eapply engulf_matching_category];
      exact H. }
  pose proof (@matching_well_keyed _ _ _ _ _ _ _ _ _ Hst) as Hkeyed.
  pose proof (sorted_keys_nodup Hkeyed) as Hsorted.
  assert (Hfind : find_entry (obj_to_tmp_id om) (id r) = Some r).
  { apply in_dict_keys in Hin. destruct Hin as [t Ht].
    exact (find_entry_nodup _ _ t Hids Ht). }
  assert (Hsame : forall o, In o ours -> id o = id r -> o = r).
  { intros o Ho E. unfold ours, dict_keys in Ho, Hin.
    apply in_map_iff in Ho. destruct Ho as [[o1 t1] [E1 H1]].
    apply in_map_iff in Hin. destruct Hin as [[o2 t2] [E2 H2]].
    simpl in E1, E2. subst o1 o2.
    assert (Heq : (o, t1) = (r, t2)).
    { apply (NoDup_map_eq (fun e : ObjectInfo * Z => id (fst e)) _ _ _ Hids
               H1 H2). exact E. }
    congruence. }
  assert (Hentry : forall e, In e (sorted_by_area (matched_area st)) ->
            key_proj (fst e) = (id r, false) ->
            fst e = (r, false) /\ isthing r = status).
  { intros [[o b] a] He Hk. apply -> in_sorted_by_area in He.
    destruct Hcat as [_ Hkeys]. destruct (Hkeys _ _ _ He) as [Ht Ho].
    unfold key_proj in Hk. simpl in Hk. injection Hk as Hid ->.
    pose proof (Hsame o Ho Hid) as ->. auto. }
  unfold render in Hr. split.
  - intro Ht. unfold find_object_by_id.
    assert (Hf : find_entry (obj_to_tmp_id (fst (om', mask'))) (id r) = Some r).
    { apply (@render_others our_masks new_masks (our_to_new_matching st)
               (id r) r (sorted_by_area (matched_area st))) with
        (s := (om, mask)); [ | exact Hr | exact Hfind].
      intros e He Hk. apply Ht. exact (proj2 (Hentry e He Hk)). }
    simpl in Hf. rewrite Hf. reflexivity.
  - intros Ht Hm.
    assert (Hmem : dict_mem key_eqb (matched_area st) (r, false) = true).
    { assert (Hcarry : exists st1,
                for_each (carry_step our_sums status) ours st1 = Ok st).
      { destruct Hst as [H|H];
          [unfold iou_matching in H | unfold engulf_matching in H];
          apply bind_ok_inv in H; destruct H as [st1 [_ H2]];
          exists st1; exact H2. }
      destruct Hcarry as [st1 H2].
      eapply carry_covers_unmatched; [exact H2 | exact Hin | exact Ht |].
      destruct (carry_matching _ _ _ _ H2) as [E _]. rewrite <- E. exact Hm. }
    apply dict_mem_in_keys in Hmem. destruct Hmem as [[o b] [Hk Ek]].
    apply in_dict_keys in Hk. destruct Hk as [area Hk].
    apply in_sorted_by_area in Hk.
    apply key_eqb_proj in Ek.
    destruct (Hentry _ Hk Ek) as [Efst _]. simpl in Efst.
    injection Efst as -> ->.
    destruct (in_split _ _ Hk) as [pre [post E]].
    pose proof (@nodup_split_keys _ _ _ _ Hsorted E) as Hothers.
    rewrite E, for_each_app in Hr.
    apply bind_ok_inv in Hr. destruct Hr as [[om1 mask1] [H1 H2]].
    cbn [for_each] in H2.
    apply bind_ok_inv in H2. destruct H2 as [[om2 mask2] [H2 H3]].
    assert (Hf1 : find_entry (obj_to_tmp_id om1) (id r) = Some r).
    { apply (@render_others our_masks new_masks (our_to_new_matching st)
               (id r) r pre) with (s := (om, mask)) (s' := (om1, mask1));
        [ | exact H1 | exact Hfind].
      intros e He. apply (Hothers e). apply in_or_app. left. exact He. }
    assert (Hnone : dict_get obj_eqb (our_to_new_matching st) r = None).
    { unfold dict_mem in Hm.
      destruct (dict_get obj_eqb (our_to_new_matching st) r);
        [discriminate Hm | reflexivity]. }
    destruct (@render_step_carried _ _ _ _ _ _ _ _ _ H2 Hnone) as [r0 [Hr0 Hr2]].
    rewrite Hf1 in Hr0. injection Hr0 as <-.
    unfold find_object_by_id.
    assert (Hf : find_entry (obj_to_tmp_id (fst (om', mask'))) (id r)
                 = Some (poke r)).
    { apply (@render_others our_masks new_masks (our_to_new_matching st)
               (id r) (poke r) post) with (s := (om2, mask2));
        [ | exact H3 | exact Hr2].
      intros e He. apply (Hothers e). apply in_or_app. right. exact He. }
    simpl in Hf. rewrite Hf. reflexivity.
Qed.

End StalenessFacts.

(** * Properties of the automatic segmentation *)

Lemma argmax_from_bounds (vals : list Q) :
  forall best_i best i,
    0 <= best_i < i ->
    0 <= argmax_from best_i best i vals < i + Z.of_nat (List.length vals).
Proof.
  induction vals as [|v vals IH]; intros best_i best i H; simpl argmax_from.
  - simpl. lia.
  - cbn [List.length]. rewrite Nat2Z.inj_succ.
    destruct (Qltb best v).
    + pose proof (@IH i v (i + 1)). lia.
    + pose proof (@IH best_i best (i + 1)). lia.
Qed.

(** The index mask of an argmax over a background and [n] channels has its
    labels in 0..n. *)
Lemma hard_argmax_bounds (background : Q) (channels : list (tensor Q)) (p : pixel) :
  0 <= hard_argmax background channels p <= Z.of_nat (List.length channels).
Proof.
  unfold hard_argmax, argmax. cbv iota.
  pose proof (@argmax_from_bounds (map (fun m : tensor Q => m p) channels)
                0 background 1) as H.
  rewrite length_map in H. unfold tensor in *. lia.
Qed.

Lemma tsum_pos_exists (m : tensor bool) :
  0 < tsum m -> exists p, In p frame /\ m p = true.
Proof.
  unfold tsum. intro H.
  destruct (filter m frame) as [|p l] eqn:E; [simpl in H; lia|].
  assert (Hin : In p (filter m frame)) by (rewrite E; left; reflexivity).
  apply filter_In in Hin. exists p. exact Hin.
Qed.

Lemma ids_from_one_succ (n : nat) :
  ids_from_one (S n) = ids_from_one n ++ [Z.of_nat n + 1].
Proof. unfold ids_from_one. rewrite seq_S, map_app. reflexivity. Qed.

Lemma in_ids_from_one (n : nat) (z : Z) :
  In z (ids_from_one n) <-> 1 <= z <= Z.of_nat n.
Proof.
  unfold ids_from_one. rewrite in_map_iff. split.
  - intros [j [<- Hj]]. apply in_seq in Hj. lia.
  - intro H. exists (Z.to_nat (z - 1)). split; [lia|]. apply in_seq. lia.
Qed.

Lemma number_segments_ids (ks : list nat) (predicted_iou : list Q) :
  forall curr_id,
    map id (number_segments curr_id ks predicted_iou)
    = map (fun j => Z.of_nat j + curr_id) (seq 0 (List.length ks)).
Proof.
  induction ks as [|k ks IH]; intro curr_id; simpl.
  - reflexivity.
  - rewrite IH. f_equal. rewrite <- seq_shift, map_map.
    apply map_ext. intro j. lia.
Qed.

Lemma number_segments_nth (ks : list nat) (predicted_iou : list Q) :
  forall curr_id j k,
    nth_error ks j = Some k ->
    nth_error (number_segments curr_id ks predicted_iou) j
    = Some (new_segment (curr_id + Z.of_nat j) (nth k predicted_iou 0%Q)).
Proof.
  induction ks as [|k0 ks IH]; intros curr_id j k H.
  - destruct j; discriminate H.
  - destruct j as [|j]; simpl in *.
    + injection H as ->. rewrite Z.add_0_r. reflexivity.
    + rewrite (IH (curr_id + 1) j k H). f_equal. f_equal. lia.
Qed.

(** The position of a channel among the channels that pass a test. *)
Lemma nth_error_filter_seq (f : nat -> bool) (n : nat) :
  forall a j k,
    nth_error (filter f (seq a n)) j = Some k ->
    f k = true /\ (a + j <= k)%nat /\ (k < a + n)%nat
    /\ ((a + j)%nat = k <-> forall i, (a <= i < k)%nat -> f i = true).
Proof.
  induction n as [|n IH]; intros a j k H; simpl in H.
  - destruct j; discriminate H.
  - destruct (f a) eqn:Ea.
    + destruct j as [|j]; simpl in H.
      * injection H as <-. split; [exact Ea|]. split; [lia|]. split; [lia|].
        split; [intros _ i Hi; lia | intros _; lia].
      * destruct (IH (S a) j k H) as [Hk [Hle [Hlt Hiff]]].
        split; [exact Hk|]. split; [lia|]. split; [lia|]. split.
        -- intros E i Hi. destruct (Nat.eq_dec i a) as [->|N]; [exact Ea|].
           apply (proj1 Hiff); lia.
        -- intro Hall. assert (S a + j = k)%nat; [|lia].
           apply (proj2 Hiff). intros i Hi. apply Hall. lia.
    + destruct (IH (S a) j k H) as [Hk [Hle [Hlt Hiff]]].
      split; [exact Hk|]. split; [lia|]. split; [lia|]. split.
      * intro E. lia.
      * intro Hall. rewrite (Hall a) in Ea; [discriminate Ea | lia].
Qed.

Section AutoSegmentFacts.

Variable fsum : tensor Q -> Q.
Variable fmul : Q -> Q -> Q.
Variable fdiv : Z -> Z -> Q.
Variable fround : Q -> Q.
Variable tenth : Q.

(** The loop of the branch without suppression, in closed form: the
    channels that own a pixel get the next identities, in order. *)
Lemma plain_loop (output_mask : tensor Z) (predicted_iou : list Q)
  (ks : list nat) :
  (forall k, In k ks ->
     (0 <? tsum (teq output_mask (Z.of_nat k + 1))) = true ->
     (k < List.length predicted_iou)%nat) ->
  forall segments_info curr_id,
    for_each (plain_step output_mask predicted_iou) ks (segments_info, curr_id)
    = Ok (segments_info
          ++ number_segments curr_id
               (filter (fun k => 0 <? tsum (teq output_mask (Z.of_nat k + 1))) ks)
               predicted_iou,
          curr_id
          + Z.of_nat (List.length
               (filter (fun k => 0 <? tsum (teq output_mask (Z.of_nat k + 1)))
                       ks))).
Proof.
  induction ks as [|k ks IH]; intros Hks segments_info curr_id.
  - simpl. rewrite app_nil_r, Z.add_0_r. reflexivity.
  - cbn [for_each filter]. unfold plain_step at 1.
    destruct (0 <? tsum (teq output_mask (Z.of_nat k + 1))) eqn:Ek.
    + assert (Hk : (k < List.length predicted_iou)%nat)
        by (apply Hks; [left; reflexivity | exact Ek]).
      unfold index_at. destruct (nth_error predicted_iou k) as [x|] eqn:Ex.
      * cbn [bind]. rewrite IH by (intros k' Hk'; apply Hks; right; exact Hk').
        cbn [number_segments List.length]. rewrite <- app_assoc.
        rewrite (nth_error_nth _ _ 0%Q Ex). cbn [app].
        f_equal. f_equal. lia.
      * apply nth_error_None in Ex. lia.
    + cbn [bind]. apply IH. intros k' Hk'. apply Hks. right. exact Hk'.
Qed.

(** X15. In the branch without suppression [auto_segment] returns and never
    reads [predicted_iou] out of range, although its loop runs over one
    index more than there are masks: the last index owns no pixel of the
    argmax.  The segments returned are those of the channels that own a
    pixel, numbered from 1 in increasing order of channel. *)
Theorem plain_segments_of_owning_channels (config : dict string Q)
  (pred_masks : list (tensor Q)) (predicted_iou : list Q) :
  (List.length pred_masks <= List.length predicted_iou)%nat ->
  auto_segment fsum fmul fdiv fround tenth config pred_masks predicted_iou false
  = Ok (hard_argmax (1 # 2) pred_masks,
        number_segments 1
          (owning_channels (hard_argmax (1 # 2) pred_masks)
                           (List.length pred_masks))
          predicted_iou).
Proof.
  intro Hlen. unfold auto_segment.
  set (output_mask := hard_argmax (1 # 2) pred_masks).
  assert (Hlast : (0 <? tsum (teq output_mask
                                  (Z.of_nat (List.length pred_masks) + 1)))
                  = false).
  { apply Z.ltb_ge.
    assert (E : tsum (teq output_mask (Z.of_nat (List.length pred_masks) + 1))
                = 0); [|lia].
    apply tsum_zero_iff. intros p _. unfold teq. apply Z.eqb_neq.
    pose proof (hard_argmax_bounds (1 # 2) pred_masks p). fold output_mask in H.
    lia. }
  rewrite plain_loop.
  - cbn [bind fst]. rewrite seq_S, filter_app. cbn [filter plus].
    rewrite Hlast, app_nil_r. reflexivity.
  - intros k Hk Hown. apply in_seq in Hk.
    destruct (Nat.eq_dec k (List.length pred_masks)) as [->|N];
      [rewrite Hlast in Hown; discriminate Hown | lia].
Qed.

(** X16. In the branch without suppression the identities lag behind the
    labels: the segment at position [j] has the identity [j + 1], while its
    pixels carry in the output mask the label [k + 1] of its channel, with
    [j <= k]; the two agree exactly when every earlier channel owns a pixel
    of the argmax.  A mask that has lost all its pixels shifts the
    identities of all the later segments away from their labels. *)
Theorem plain_identities_lag_labels (config : dict string Q)
  (pred_masks : list (tensor Q)) (predicted_iou : list Q)
  (output_mask : tensor Z) (segments_info : list ObjectInfo) (j k : nat) :
  (List.length pred_masks <= List.length predicted_iou)%nat ->
  auto_segment fsum fmul fdiv fround tenth config pred_masks predicted_iou false
  = Ok (output_mask, segments_info) ->
  nth_error (owning_channels output_mask (List.length pred_masks)) j = Some k ->
  nth_error segments_info j
  = Some (new_segment (Z.of_nat j + 1) (nth k predicted_iou 0%Q))
  /\ (exists p, In p frame /\ output_mask p = Z.of_nat k + 1)
  /\ (j <= k)%nat
  /\ (j = k <->
      forall i, (i < k)%nat ->
        exists p, In p frame /\ output_mask p = Z.of_nat i + 1).
Proof.
  intros Hlen H Hj.
  rewrite (plain_segments_of_owning_channels config pred_masks predicted_iou
             Hlen) in H.
  injection H as <- <-.
  set (output_mask := hard_argmax (1 # 2) pred_masks) in *.
  assert (Hown : forall i,
            (0 <? tsum (teq output_mask (Z.of_nat i + 1))) = true
            <-> exists p, In p frame /\ output_mask p = Z.of_nat i + 1).
  { intro i. split.
    - intro Hi. apply Z.ltb_lt in Hi. apply tsum_pos_exists in Hi.
      destruct Hi as [p [Hp Ep]]. exists p. split; [exact Hp|].
      unfold teq in Ep. apply Z.eqb_eq. exact Ep.
    - intros [p [Hp Ep]]. apply Z.ltb_lt.
      destruct (Z_lt_le_dec 0 (tsum (teq output_mask (Z.of_nat i + 1))))
        as [Hpos|Hle]; [exact Hpos|].
      pose proof (tsum_nonneg (teq output_mask (Z.of_nat i + 1))).
      assert (E : tsum (teq output_mask (Z.of_nat i + 1)) = 0) by lia.
      pose proof (proj1 (tsum_zero_iff _) E p Hp) as Hz.
      unfold teq in Hz. apply Z.eqb_neq in Hz. contradiction. }
  unfold owning_channels in Hj.
  destruct (nth_error_filter_seq _ _ _ _ Hj) as [Hk [Hle [_ Hiff]]].
  split; [|split; [|split]].
  - unfold owning_channels.
    rewrite (number_segments_nth _ predicted_iou 1 _ Hj).
    f_equal. f_equal. lia.
  - apply Hown. exact Hk.
  - lia.
  - simpl in Hiff. rewrite Hiff. split.
    + intros Hall i Hi. apply Hown. apply Hall. lia.
    + intros Hall i Hi. apply Hown. apply Hall. lia.
Qed.

(** One step of the loop that suppresses small masks keeps the state. *)
Lemma suppress_step_inv (config : dict string Q) (hard_mask : tensor Z)
  (predicted_iou : list Q) (k : nat) (pred : tensor Q)
  (s s' : tensor Z * list ObjectInfo * Z) :
  suppress_inv hard_mask k s ->
  suppress_step fdiv fround config hard_mask predicted_iou s (k, pred) = Ok s' ->
  suppress_inv hard_mask (S k) s'.
Proof.
  destruct s as [[output_mask segments_info] curr_id].
  intros [Hcur [Hids [Hlab Hown]]].
  assert (Hkeep : suppress_inv hard_mask (S k)
                    (output_mask, segments_info, curr_id)).
  { split; [exact Hcur|]. split; [exact Hids|]. split; [|exact Hown].
    intro p. destruct (Hlab p) as [H0|[H1 H2]]; [left; exact H0|].
    right. split; [exact H1 | lia]. }
  unfold suppress_step.
  set (mask := fun p => teq hard_mask (Z.of_nat k + 1) p
                        && Qle_bool (1 # 2) (pred p)).
  destruct ((0 <? tsum (teq hard_mask (Z.of_nat k + 1)))
            && (0 <? tsum (fun p => Qltb (1 # 2) (pred p)))
            && (0 <? tsum mask)) eqn:Hcond;
    [|intro H; injection H as <-; exact Hkeep].
  intro H. apply bind_ok_inv in H. destruct H as [threshold [_ H]].
  destruct (Qltb (fdiv (tsum (teq hard_mask (Z.of_nat k + 1)))
                       (tsum (fun p => Qltb (1 # 2) (pred p))))
                 (fround threshold));
    [injection H as <-; exact Hkeep|].
  apply bind_ok_inv in H. destruct H as [iou [_ H]]. injection H as <-.
  apply andb_true_iff in Hcond. destruct Hcond as [_ Hmask].
  apply Z.ltb_lt in Hmask. apply tsum_pos_exists in Hmask.
  destruct Hmask as [q [Hq Eq]].
  split; [|split; [|split]].
  - rewrite length_app. cbn [List.length]. rewrite Nat2Z.inj_add.
    change (Z.of_nat 1) with 1. lia.
  - rewrite length_app, map_app. cbn [List.length map].
    rewrite Nat.add_1_r, ids_from_one_succ, Hids.
    f_equal. f_equal. unfold new_segment. cbn [id]. lia.
  - intro p. unfold tset. destruct (mask p) eqn:Ep.
    + right. unfold mask in Ep. apply andb_true_iff in Ep.
      destruct Ep as [Ep _]. unfold teq in Ep. apply Z.eqb_eq in Ep. lia.
    + destruct (Hlab p) as [H0|[H1 H2]]; [left; exact H0|].
      right. lia.
  - intros seg Hseg. apply in_app_or in Hseg. destruct Hseg as [Hseg|[<-|[]]].
    + destruct (Hown seg Hseg) as [p [Hp Ep]]. exists p. split; [exact Hp|].
      unfold tset. destruct (mask p) eqn:Em; [|exact Ep]. exfalso.
      unfold mask in Em. apply andb_true_iff in Em. destruct Em as [Em _].
      unfold teq in Em. apply Z.eqb_eq in Em.
      assert (Hid : In (id seg) (ids_from_one (List.length segments_info))).
      { rewrite <- Hids. apply in_map. exact Hseg. }
      apply in_ids_from_one in Hid.
      destruct (Hlab p) as [H0|[_ H2]]; lia.
    + exists q. split; [exact Hq|]. unfold tset. rewrite Eq. reflexivity.
Qed.

Lemma suppress_loop_inv (config : dict string Q) (hard_mask : tensor Z)
  (predicted_iou : list Q) (masks : list (tensor Q)) :
  forall k s s',
    suppress_inv hard_mask k s ->
    for_each (suppress_step fdiv fround config hard_mask predicted_iou)
             (enumerate k masks) s = Ok s' ->
    suppress_inv hard_mask (k + List.length masks) s'.
Proof.
  induction masks as [|m masks IH]; intros k s s' Hs H; simpl in H.
  - injection H as <-. simpl. rewrite Nat.add_0_r. exact Hs.
  - apply bind_ok_inv in H. destruct H as [s1 [H1 H2]].
    simpl. rewrite <- Nat.add_succ_comm.
    apply (IH (S k) s1 s'); [|exact H2].
    eapply suppress_step_inv; [exact Hs | exact H1].
Qed.

(** What the branch that suppresses small masks returns. *)
Lemma suppressed_result (config : dict string Q)
  (pred_masks : list (tensor Q)) (predicted_iou : list Q)
  (output_mask : tensor Z) (segments_info : list ObjectInfo) :
  auto_segment fsum fmul fdiv fround tenth config pred_masks predicted_iou true
  = Ok (output_mask, segments_info) ->
  map id segments_info = ids_from_one (List.length segments_info)
  /\ (forall p, output_mask p = 0
                \/ 1 <= output_mask p <= Z.of_nat (List.length segments_info))
  /\ (forall seg, In seg segments_info ->
        exists p, In p frame /\ output_mask p = id seg).
Proof.
  unfold auto_segment. intro H.
  apply bind_ok_inv in H. destruct H as [[[out segs] cur] [Hloop H]].
  injection H as <- <-.
  apply suppress_loop_inv in Hloop.
  - destruct Hloop as [Hcur [Hids [Hlab Hown]]].
    split; [exact Hids|]. split; [|exact Hown].
    intro p. destruct (Hlab p) as [H0|[H1 _]]; [left; exact H0|].
    right. lia.
  - split; [reflexivity|]. split; [reflexivity|].
    split; [intro p; left; reflexivity | intros seg []].
Qed.

(** X17. When small masks are suppressed, the index mask and the list of
    segments that [auto_segment] returns fit together: the identities of the
    segments are 1, 2, ..., in order, every label of the mask is the
    background or the identity of a segment, and every segment owns at least
    one pixel of the mask. *)
Theorem suppressed_labels_are_identities (config : dict string Q)
  (pred_masks : list (tensor Q)) (predicted_iou : list Q)
  (output_mask : tensor Z) (segments_info : list ObjectInfo) :
  auto_segment fsum fmul fdiv fround tenth config pred_masks predicted_iou true
  = Ok (output_mask, segments_info) ->
  map id segments_info = ids_from_one (List.length segments_info)
  /\ (forall p, output_mask p = 0 \/ In (output_mask p) (map id segments_info))
  /\ (forall seg, In seg segments_info ->
        exists p, In p frame /\ output_mask p = id seg).
Proof.
  intro H. apply suppressed_result in H. destruct H as [Hids [Hlab Hown]].
  split; [exact Hids|]. split; [|exact Hown].
  intro p. destruct (Hlab p) as [H0|H1]; [left; exact H0|].
  right. rewrite Hids. apply in_ids_from_one. exact H1.
Qed.

Lemma ids_from_one_nodup (n : nat) : NoDup (ids_from_one n).
Proof.
  induction n as [|n IH]; [constructor|].
  rewrite ids_from_one_succ. apply NoDup_app; [exact IH | | ].
  - repeat constructor. intros [].
  - intros z Hz [<-|[]]. apply in_ids_from_one in Hz. lia.
Qed.

Lemma one_hot_news_get (new_mask : tensor Z) (cands : list ObjectInfo)
  (c : ObjectInfo) :
  NoDup (map id cands) -> In c cands ->
  dict_get obj_eqb (one_hot_news new_mask cands) c
  = Some (teq new_mask (id c)).
Proof.
  intros Hnd Hin. unfold one_hot_news, dict_of_list.
  assert (Hkeys : map id (dict_keys (map (fun obj : ObjectInfo =>
                                            (obj, teq new_mask (id obj))) cands))
                  = map id cands).
  { unfold dict_keys. rewrite !map_map. reflexivity. }
  rewrite fold_set_nodup by (simpl; rewrite Hkeys; exact Hnd).
  simpl. apply dict_get_nodup with (k0 := c).
  - rewrite Hkeys. exact Hnd.
  - apply in_map_iff. exists c. auto.
  - reflexivity.
Qed.

(** X18. The segments of the branch that suppresses small masks are sound
    candidates for [match_and_merge]: the one-hot mask it caches for a
    segment is the set of the pixels that carry the identity of the segment,
    and it is never empty. *)
Theorem suppressed_candidates_are_not_empty (config : dict string Q)
  (pred_masks : list (tensor Q)) (predicted_iou : list Q)
  (new_mask : tensor Z) (new_segments_info : list ObjectInfo)
  (new_obj : ObjectInfo) :
  auto_segment fsum fmul fdiv fround tenth config pred_masks predicted_iou true
  = Ok (new_mask, new_segments_info) ->
  In new_obj new_segments_info ->
  dict_get obj_eqb (one_hot_news new_mask new_segments_info) new_obj
  = Some (teq new_mask (id new_obj))
  /\ 0 < tsum (teq new_mask (id new_obj)).
Proof.
  intros H Hin. apply suppressed_result in H. destruct H as [Hids [_ Hown]].
  split.
  - apply one_hot_news_get; [|exact Hin]. rewrite Hids. apply ids_from_one_nodup.
  - destruct (Hown new_obj Hin) as [p [Hp Ep]].
    pose proof (tsum_nonneg (teq new_mask (id new_obj))) as Hge.
    destruct (Z.eq_dec (tsum (teq new_mask (id new_obj))) 0) as [E|N]; [|lia].
    pose proof (proj1 (tsum_zero_iff _) E p Hp) as Hz.
    unfold teq in Hz. apply Z.eqb_neq in Hz. contradiction.
Qed.

Lemma suppress_loop_returns (config : dict string Q) (hard_mask : tensor Z)
  (predicted_iou : list Q) (masks : list (tensor Q)) :
  dict_mem String.eqb config "SAM_OVERLAP_THRESHOLD"%string = true ->
  forall k s,
    (k + List.length masks <= List.length predicted_iou)%nat ->
    exists s',
      for_each (suppress_step fdiv fround config hard_mask predicted_iou)
               (enumerate k masks) s = Ok s'.
Proof.
  intro Hkey. induction masks as [|m masks IH]; intros k s Hlen.
  - exists s. reflexivity.
  - cbn [enumerate for_each].
    assert (Hstep : exists s1,
              suppress_step fdiv fround config hard_mask predicted_iou s (k, m)
              = Ok s1).
    { destruct s as [[output_mask segments_info] curr_id]. unfold suppress_step.
      destruct ((0 <? tsum (teq hard_mask (Z.of_nat k + 1)))
                && (0 <? tsum (fun p => Qltb (1 # 2) (m p)))
                && (0 <? tsum (fun p => teq hard_mask (Z.of_nat k + 1) p
                                        && Qle_bool (1 # 2) (m p))));
        [|eexists; reflexivity].
      destruct (dict_mem_lookup _ _ _ Hkey) as [threshold Ht].
      rewrite (dict_lookup_get _ _ _ Ht). cbn [bind].
      destruct (Qltb (fdiv (tsum (teq hard_mask (Z.of_nat k + 1)))
                           (tsum (fun p => Qltb (1 # 2) (m p))))
                     (fround threshold)); [eexists; reflexivity|].
      unfold index_at. destruct (nth_error predicted_iou k) as [x|] eqn:Ex.
      - cbn [bind]. eexists. reflexivity.
      - apply nth_error_None in Ex. simpl in Hlen. lia. }
    destruct Hstep as [s1 H1]. rewrite H1. cbn [bind].
    apply IH. simpl in Hlen. lia.
Qed.

(** X21. With [suppress_small_mask], [auto_segment] returns whenever the
    configuration has the key of the overlap threshold and there is a
    predicted IoU for every mask: these are the only lookups that can
    fail. *)
Theorem suppressed_call_returns (config : dict string Q)
  (pred_masks : list (tensor Q)) (predicted_iou : list Q) :
  dict_mem String.eqb config "SAM_OVERLAP_THRESHOLD"%string = true ->
  (List.length pred_masks <= List.length predicted_iou)%nat ->
  exists output_mask segments_info,
    auto_segment fsum fmul fdiv fround tenth config pred_masks predicted_iou
                 true = Ok (output_mask, segments_info).
Proof.
  intros Hkey Hlen. unfold auto_segment.
  destruct (@suppress_loop_returns config
              (hard_argmax tenth
                 (map (fun m : tensor Q => fun p => fmul (m p) (fsum m))
                      pred_masks))
              predicted_iou pred_masks Hkey 0%nat (fun _ => 0, [], 1) Hlen)
    as [s Hs].
  rewrite Hs. cbn [bind]. eexists. eexists. reflexivity.
Qed.

End AutoSegmentFacts.

(** ** A pass and what the earlier passes wrote *)

Section OverwriteFacts.

Variables our_masks new_masks : dict ObjectInfo (tensor bool).
Variables our_sums new_sums : dict ObjectInfo Z.
Variable engulf_threshold : Q.

(** What a step of the rendering does to the registry does not depend on
    the mask it writes into. *)
Lemma render_step_any_mask (m : dict ObjectInfo ObjectInfo)
  (om om' : ObjectManager) (mask mask' mask2 : tensor Z) (e : area_key * Z) :
  render_step our_masks new_masks m (om, mask) e = Ok (om', mask') ->
  exists mask2',
    render_step our_masks new_masks m (om, mask2) e = Ok (om', mask2').
Proof.
  destruct e as [[obj is_new] area]. unfold render_step. destruct is_new.
  - unfold add_new_objects. cbn [index0 bind]. intro H. inv_lookup H.
    injection H as <- _. eexists. reflexivity.
  - destruct (dict_get obj_eqb m obj) as [c|]; intro H.
    + do 2 inv_lookup H. apply bind_ok_inv in H. destruct H as [o [Ho H]].
      injection H as <- _. rewrite Ho. cbn [bind]. eexists. reflexivity.
    + inv_lookup H. apply bind_ok_inv in H. destruct H as [o [Ho H]].
      injection H as <- _. rewrite Ho. cbn [bind]. eexists. reflexivity.
Qed.

Lemma render_any_mask (m : dict ObjectInfo ObjectInfo)
  (es : list (area_key * Z)) :
  forall om om' mask mask' mask2,
    for_each (render_step our_masks new_masks m) es (om, mask)
    = Ok (om', mask') ->
    exists mask2',
      for_each (render_step our_masks new_masks m) es (om, mask2)
      = Ok (om', mask2')
      /\ forall p, mask2' p = mask' p
                   \/ (mask' p = mask p /\ mask2' p = mask2 p).
Proof.
  induction es as [|e es IH]; intros om om' mask mask' mask2 H;
    cbn [for_each] in H.
  - injection H as <- <-. exists mask2. split; [reflexivity|].
    intro p. right. auto.
  - apply bind_ok_inv in H. destruct H as [[om1 mask1] [H1 H2]].
    destruct (@render_step_any_mask m om om1 mask mask1 mask2 e H1)
      as [mask1' H1'].
    destruct (IH om1 om' mask1 mask' mask1' H2) as [mask2' [H2' Hrel]].
    exists mask2'. split.
    + cbn [for_each]. rewrite H1'. exact H2'.
    + intro p. destruct (Hrel p) as [E|[E1 E2]]; [left; exact E|].
      rewrite (@render_step_pixel our_masks new_masks m om om1 mask mask1 e p
                 H1) in E1.
      rewrite (@render_step_pixel our_masks new_masks m om om1 mask2 mask1' e
                 p H1') in E2.
      destruct (claims our_masks new_masks m e p).
      * left. congruence.
      * right. auto.
Qed.

(** X19. A pass never looks at what the earlier passes wrote: run on any
    other incoming mask it changes the registry in the same way, and at
    every pixel it either writes the same label or leaves both masks as they
    were.  The order by area holds inside a pass only; on a shared pixel the
    entry of the later pass (Thing after Stuff after Unknown) owns it,
    whatever the areas. *)
Theorem pass_overwrites_earlier_passes (mode : string)
  (cands : list ObjectInfo) (status : option bool)
  (om om' : ObjectManager) (mask mask' mask2 : tensor Z) :
  merge_pass mode our_masks new_masks our_sums new_sums cands engulf_threshold
             (om, mask) status = Ok (om', mask') ->
  exists mask2',
    merge_pass mode our_masks new_masks our_sums new_sums cands
               engulf_threshold (om, mask2) status = Ok (om', mask2')
    /\ forall p, mask2' p = mask' p
                 \/ (mask' p = mask p /\ mask2' p = mask2 p).
Proof.
  unfold merge_pass. destruct (String.eqb mode "iou").
  - unfold merge_by_iou. intro H. apply bind_ok_inv in H.
    destruct H as [st [Hst Hr]]. rewrite Hst. cbn [bind].
    unfold render in *. apply render_any_mask. exact Hr.
  - destruct (String.eqb mode "engulf").
    + unfold merge_by_engulf. intro H. apply bind_ok_inv in H.
      destruct H as [st [Hst Hr]]. rewrite Hst. cbn [bind].
      unfold render in *. apply render_any_mask. exact Hr.
    + intro H. injection H as <- <-. exists mask2. split; [reflexivity|].
      intro p. right. auto.
Qed.

End OverwriteFacts.

(** ** The cap at its limit *)

(** X20. The cap only acts when it is exceeded: with [max_num_objects] zero
    or negative, or with identities ever created and candidates that
    together do not exceed it (equality included), the call is the call
    without a cap; it warns about nothing and discards nothing. *)
Theorem cap_admits_up_to_the_limit (our_mask new_mask : tensor Z)
  (object_manager : ObjectManager) (new_segments_info : list ObjectInfo)
  (mode : string) (max_num_objects : Z) (engulf_threshold : Q) :
  max_num_objects <= 0
  \/ Z.of_nat (List.length (all_historical_object_ids object_manager))
     + Z.of_nat (List.length new_segments_info) <= max_num_objects ->
  match_and_merge our_mask new_mask object_manager new_segments_info mode
                  max_num_objects engulf_threshold
  = match_and_merge our_mask new_mask object_manager new_segments_info mode
                    (-1) engulf_threshold.
Proof.
  intro H. unfold match_and_merge.
  assert (E : (0 <? max_num_objects)
              && (max_num_objects <?
                  Z.of_nat (List.length
                              (all_historical_object_ids object_manager))
                  + Z.of_nat (List.length new_segments_info)) = false).
  { apply andb_false_iff. destruct H as [H|H].
    - left. apply Z.ltb_ge. exact H.
    - right. apply Z.ltb_ge. exact H. }
  rewrite E. reflexivity.
Qed.

End Merging.

(** * The properties on example frames *)



(** C2 on a frame: the registry has created two identities, the cap is 2
    and one candidate arrives. *)
Lemma cap_discards_all_candidates_witness :
  exists out,
    match_and_merge (numbered_frame 2) keep_latest only_b background two_things
                    [cand_big] "iou" 2 (1 # 5) = Ok out
    /\ out_warnings out = [cap_warning]
    /\ all_historical_object_ids (out_manager out)
       = all_historical_object_ids two_things
    /\ (forall o k, In (o, k) (obj_to_tmp_id (out_manager out)) ->
          In (id o) (registered_ids (obj_to_tmp_id two_things)))
    /\ (forall new_mask',
          match_and_merge (numbered_frame 2) keep_latest only_b new_mask'
                          two_things [] "iou" (-1) (1 # 5)
          = Ok (mkOutcome (out_manager out) (out_mask out) [])).
Proof.
  apply (@cap_discards_all_candidates nat (numbered_frame 2) keep_latest
           only_b background two_things [cand_big] "iou" 2 (1 # 5)).
  - reflexivity.
  - reflexivity.
Defined.

(** C3, as stated, fails: with the mode ['foo'] the call raises nothing; it
    returns a mask. *)
Lemma unknown_mode_raises_nothing :
  lower "foo" <> "iou"%string /\ lower "foo" <> "engulf"%string
  /\ exists out,
       match_and_merge (numbered_frame 2) keep_latest only_b background
                       two_things [cand_big] "foo" (-1) (1 # 5) = Ok out
       /\ forall e,
            match_and_merge (numbered_frame 2) keep_latest only_b background
                            two_things [cand_big] "foo" (-1) (1 # 5)
            <> Raise e.
Proof.
  split; [discriminate|]. split; [discriminate|].
  eexists. split; [vm_compute; reflexivity|].
  intros e. vm_compute. discriminate.
Qed.

Lemma unknown_mode_is_silent_witness :
  (forall our_masks new_masks cands' mask,
     merge_passes (numbered_frame 2) keep_latest (lower "foo") our_masks
                  new_masks cands' (1 # 5) two_things mask
     = Ok (two_things, mask))
  /\ exists out,
       match_and_merge (numbered_frame 2) keep_latest only_b background
                       two_things [cand_big] "foo" (-1) (1 # 5) = Ok out
       /\ (forall p, out_mask out p = 0)
       /\ all_historical_object_ids (out_manager out)
          = all_historical_object_ids two_things
       /\ (forall o k, In (o, k) (obj_to_tmp_id (out_manager out)) ->
             In (o, k) (obj_to_tmp_id two_things)).
Proof.
  apply (@unknown_mode_is_silent nat (numbered_frame 2) keep_latest only_b
           background two_things [cand_big] "foo" (-1) (1 # 5)).
  - vm_compute. discriminate.
  - vm_compute. discriminate.
Defined.



(** C6, as stated, fails.  The registry holds two objects with temporary
    indices 1 and 2 and no candidate arrives; the propagated mask shows the
    second object only.  Both objects are poked, and the relabelling numbers
    the objects present in the mask from 1: the pixels of the second object
    carry the index 1 in the output, not the index 2 they had. *)
Lemma carried_pixels_are_renumbered :
  exists out,
    match_and_merge (numbered_frame 2) keep_latest only_b background two_things
                    [] "iou" (-1) (1 # 5) = Ok out
    /\ obj_to_tmp_id (out_manager out) = [(poke thing_b, 1)]
    /\ forall p, In p (numbered_frame 2) ->
         only_b p = 2 /\ out_mask out p = 1 /\ out_mask out p <> only_b p.
Proof.
  eexists. split; [vm_compute; reflexivity|].
  split; [reflexivity|].
  intros p [<-|[<-|[]]]; vm_compute; repeat split; discriminate.
Qed.

(** The amended C6 on example frames: the two objects above carried over
    a mask that shows one pixel of each, for which the registry is the one a
    relabelling leaves, and the object of the ten-pixel frame matched to the
    candidate that covers the frame. *)
Lemma carried_over_poked_matched_unpoked_witness :
  (exists out,
     match_and_merge (numbered_frame 2) keep_latest one_each background
                     two_things [] "iou" (-1) (1 # 5) = Ok out
     /\ (forall o t p, In (o, t) (obj_to_tmp_id two_things) ->
           In p (numbered_frame 2) -> one_each p = t ->
           exists k, In (poke o, k) (obj_to_tmp_id (out_manager out))
                     /\ out_mask out p = k)
     /\ obj_to_tmp_id (out_manager out)
        = map poke_entry (obj_to_tmp_id two_things)
     /\ agree (numbered_frame 2) (out_mask out) one_each)
  /\ (exists r, find_object_by_id
                  (mkObjectManager
                     [(mkObjectInfo 5 (Some true) (8 # 10) 0, 1)] [5])
                  (id whole) = Ok r
                /\ poke_count r = 0).
Proof.
  destruct (@carried_over_poked_matched_unpoked nat (numbered_frame 2)
              keep_latest) as [HA _].
  destruct (@carried_over_poked_matched_unpoked nat (numbered_frame 10)
              keep_latest) as [_ HB].
  split.
  - destruct (HA one_each background two_things "iou"%string (-1) (1 # 5))
      as [merged [out [_ [_ [Hcall [Hpix Hsame]]]]]].
    + vm_compute. repeat constructor; simpl; intuition discriminate.
    + vm_compute. repeat constructor; simpl; intuition discriminate.
    + intros o t [H|[H|[]]]; injection H as <- _; discriminate.
    + left. reflexivity.
    + exists out. split; [exact Hcall|]. split; [exact Hpix|].
      apply Hsame. split; [reflexivity | simpl; auto].
  - apply (HB ten_our_masks ten_new_masks ten_our_sums ten_new_sums (Some true)
              (1 # 5) [whole] [cand_ten]
              (mkMatching [(whole, cand_ten)] [((whole, false), 10)] [])
              whole_manager
              (mkObjectManager [(mkObjectInfo 5 (Some true) (8 # 10) 0, 1)] [5])
              background
              (tset (tset background (fun _ => true) 5) (fun _ => true) 5)
              whole cand_ten).
    + left. vm_compute. reflexivity.
    + reflexivity.
    + reflexivity.
Defined.



(** C10 on the frame of ten pixels: the candidates on the pixels 0..8 and
    on the whole frame both match the object that covers the frame; the
    first one is displaced. *)
Lemma displaced_candidate_dropped_witness :
  (exists c, dict_get obj_eqb [(whole, cand_ten)] whole = Some c
             /\ In c [cand_ten])
  /\ dict_mem key_eqb [((whole, false), 10)] (cand_nine, true) = false.
Proof.
  destruct (@displaced_candidate_dropped nat (numbered_frame 10) keep_latest
              ten_our_masks ten_new_masks ten_our_sums ten_new_sums
              (Some true) (1 # 5) [whole] [] [] [] cand_nine cand_ten whole
              10 10
              (mkMatching [(whole, cand_ten)] [((whole, false), 10)] []))
    as [_ [Hlast [_ [Hnew _]]]].
  - vm_compute. repeat constructor; simpl; intuition discriminate.
  - reflexivity.
  - reflexivity.
  - vm_compute. reflexivity.
  - vm_compute. reflexivity.
  - vm_compute. reflexivity.
  - split; [exact Hlast | exact Hnew].
Defined.

(** * The further properties on example frames *)

(** X4 on a frame of two pixels: the candidate on the first pixel has IoU 1
    with the first object, hence not above 0.5 with the second. *)
Lemma iou_match_is_unique_witness :
  iou_exceeds_half (numbered_frame 2)
    (one_hot_ours one_each two_things) (one_hot_news first_is_seven [cand_big])
    (mask_sums (numbered_frame 2) (one_hot_ours one_each two_things))
    (mask_sums (numbered_frame 2) (one_hot_news first_is_seven [cand_big]))
    cand_big thing_b = false.
Proof.
  apply (@iou_match_is_unique nat (numbered_frame 2) one_each first_is_seven
           two_things [cand_big] cand_big thing_a thing_b 1 2).
  - vm_compute. repeat constructor; simpl; intuition discriminate.
  - left. reflexivity.
  - right. left. reflexivity.
  - discriminate.
  - vm_compute. reflexivity.
Defined.

(** X5 on the ten-pixel frame: the object is matched to the candidate on the
    whole frame, and the later candidate on nine pixels does not take it. *)
Lemma iou_match_never_displaced_witness :
  exists st,
    for_each (iou_match_step (numbered_frame 10) ten_our_masks ten_new_masks
                             ten_our_sums ten_new_sums (Some true) [whole])
             [cand_nine] whole_matched = Ok st
    /\ dict_get obj_eqb (our_to_new_matching st) whole = Some cand_ten.
Proof.
  eexists. split; [vm_compute; reflexivity|].
  eapply (@iou_match_never_displaced nat (numbered_frame 10) ten_our_masks
            ten_new_masks ten_our_sums ten_new_sums (Some true) [whole]
            [cand_nine] whole_matched).
  - vm_compute. reflexivity.
  - reflexivity.
Defined.

(** X6 on the ten-pixel frame: the candidate on nine pixels is matched, the
    candidate on the whole frame comes second and is a new object. *)
Lemma iou_no_candidate_lost_witness :
  exists st,
    iou_matching (numbered_frame 10) ten_our_masks ten_new_masks ten_our_sums
                 ten_new_sums (Some true) [whole] [cand_nine; cand_ten] = Ok st
    /\ ((exists our_obj,
           dict_get obj_eqb (our_to_new_matching st) our_obj = Some cand_ten)
        \/ (In cand_ten (new_objects st)
            /\ dict_mem key_eqb (matched_area st) (cand_ten, true) = true)).
Proof.
  eexists. split; [vm_compute; reflexivity|].
  eapply (@iou_no_candidate_lost nat (numbered_frame 10) ten_our_masks
            ten_new_masks ten_our_sums ten_new_sums (Some true) [whole]
            [cand_nine; cand_ten]).
  - vm_compute. reflexivity.
  - right. left. reflexivity.
  - reflexivity.
Defined.

(** X7 on the ten-pixel frame, in engulf mode. *)
Lemma every_object_has_one_entry_witness :
  exists st,
    engulf_matching (numbered_frame 10) ten_our_masks ten_new_masks
                    ten_our_sums ten_new_sums (Some true) (1 # 5) [whole]
                    [cand_three] = Ok st
    /\ dict_mem key_eqb (matched_area st) (whole, false) = true.
Proof.
  eexists. split; [vm_compute; reflexivity|].
  eapply (@every_object_has_one_entry nat (numbered_frame 10) ten_our_masks
            ten_new_masks ten_our_sums ten_new_sums (Some true) (1 # 5)
            [whole] [cand_three]).
  - right. vm_compute. reflexivity.
  - left. reflexivity.
  - reflexivity.
Defined.

(** X8 on the ten-pixel frame, in engulf mode: both candidates reach the
    object, one pair remains. *)
Lemma no_candidate_merged_twice_witness :
  exists st,
    engulf_matching (numbered_frame 10) ten_our_masks ten_new_masks
                    ten_our_sums ten_new_sums (Some true) (1 # 5) [whole]
                    [cand_nine; cand_ten] = Ok st
    /\ NoDup (map (fun e => id (snd e)) (our_to_new_matching st)).
Proof.
  eexists. split; [vm_compute; reflexivity|].
  eapply (@no_candidate_merged_twice nat (numbered_frame 10) ten_our_masks
            ten_new_masks ten_our_sums ten_new_sums (Some true) (1 # 5)
            [whole] [cand_nine; cand_ten]).
  - vm_compute. repeat constructor; simpl; intuition discriminate.
  - right. vm_compute. reflexivity.
Defined.

(** X9 on the ten-pixel frame: with the threshold 1 the candidate on three
    pixels, all of them covered by the object, is not discarded. *)
Lemma engulf_never_above_one_witness :
  engulf_scan (numbered_frame 10) ten_our_masks ten_new_masks ten_our_sums
              ten_new_sums (Some true) 1 cand_three [whole]
  <> Ok EEngulfed.
Proof.
  apply (@engulf_never_above_one nat (numbered_frame 10) ten_our_masks
           ten_new_masks ten_our_sums ten_new_sums (Some true) 1 cand_three
           [whole]).
  - vm_compute. discriminate.
  - intros m s Hm Hs. vm_compute in Hs. injection Hs as <-.
    simpl in Hm. injection Hm as <-. reflexivity.
Defined.

(** X10 on the ten-pixel frame: a candidate without pixels is a new object
    in both modes. *)
Lemma empty_candidate_is_new_witness :
  iou_match_step (numbered_frame 10) ten_our_masks none_masks ten_our_sums
                 none_sums (Some true) [whole] empty_matching cand_none
  = Ok (mkMatching [] [((cand_none, true), 0)] [cand_none])
  /\ engulf_match_step (numbered_frame 10) ten_our_masks none_masks
                       ten_our_sums none_sums (Some true) (1 # 5) [whole]
                       empty_matching cand_none
     = Ok (mkMatching [] [((cand_none, true), 0)] [cand_none]).
Proof.
  apply (@empty_candidate_is_new nat (numbered_frame 10) ten_our_masks
           none_masks ten_our_sums none_sums (Some true) (1 # 5) [whole]
           empty_matching cand_none (fun _ => false) 0).
  - reflexivity.
  - reflexivity.
  - intros p _. reflexivity.
  - reflexivity.
  - intros o [<-|[]]. split; reflexivity.
Defined.

(** X12 on a frame of two pixels: the previous mask carries the index 2,
    which the registry does not know, and the new mask is empty. *)
Lemma unclaimed_pixel_stays_background_witness :
  exists out,
    match_and_merge (numbered_frame 2) keep_latest only_b background
                    whole_manager [cand_big] "iou" (-1) (1 # 5) = Ok out
    /\ out_mask out 0%nat = 0.
Proof.
  apply (@unclaimed_pixel_stays_background nat (numbered_frame 2) keep_latest
           only_b background whole_manager [cand_big] "iou"%string (-1)
           (1 # 5) 0%nat).
  - vm_compute. intuition discriminate.
  - vm_compute. intuition discriminate.
Defined.

(** X13 on a frame of two pixels with one candidate. *)
Lemma modes_agree_on_empty_registry_witness :
  match_and_merge (numbered_frame 2) keep_latest background first_is_seven
                  empty_manager [cand_big] "iou" (-1) (1 # 5)
  = match_and_merge (numbered_frame 2) keep_latest background first_is_seven
                    empty_manager [cand_big] "engulf" (-1) (1 # 5).
Proof.
  apply (@modes_agree_on_empty_registry nat (numbered_frame 2) keep_latest
           background first_is_seven empty_manager [cand_big] (-1) (1 # 5)).
  reflexivity.
Defined.

(** X14 on the ten-pixel frame: the candidate on three pixels does not
    reach the object, which is carried over and poked. *)
Lemma pass_pokes_unmatched_only_witness :
  exists st om' mask',
    iou_matching (numbered_frame 10) ten_our_masks ten_new_masks ten_our_sums
                 ten_new_sums (Some true)
                 (dict_keys (obj_to_tmp_id whole_manager)) [cand_three] = Ok st
    /\ render keep_latest ten_our_masks ten_new_masks st whole_manager
              background = Ok (om', mask')
    /\ find_object_by_id om' (id whole) = Ok (poke whole).
Proof.
  eexists. eexists. eexists. split; [vm_compute; reflexivity|].
  split; [reflexivity|].
  eapply (@pass_pokes_unmatched_only nat (numbered_frame 10) keep_latest
            ten_our_masks ten_new_masks ten_our_sums ten_new_sums (Some true)
            (1 # 5) [cand_three] _ whole_manager _ background _ whole).
  - vm_compute. repeat constructor; simpl; intuition discriminate.
  - left. vm_compute. reflexivity.
  - reflexivity.
  - left. reflexivity.
  - reflexivity.
  - reflexivity.
Defined.

(** X15 on two pixels: the first mask is empty, the second covers the
    frame. *)
Lemma plain_segments_of_owning_channels_witness :
  auto_segment (numbered_frame 2) exact_fsum Qmult exact_fdiv exact_fround
               (1 # 10) sam_config sam_masks_lost sam_ious false
  = Ok (hard_argmax (1 # 2) sam_masks_lost,
        number_segments 1
          (owning_channels (numbered_frame 2)
                           (hard_argmax (1 # 2) sam_masks_lost)
                           (List.length sam_masks_lost))
          sam_ious).
Proof.
  apply (@plain_segments_of_owning_channels nat (numbered_frame 2) exact_fsum
           Qmult exact_fdiv exact_fround (1 # 10) sam_config sam_masks_lost
           sam_ious).
  simpl. lia.
Defined.

(** X16 on the same masks: the only segment has the identity 1 and its
    pixels carry the label 2. *)
Lemma plain_identities_lag_labels_witness :
  nth_error [new_segment 1 (7 # 10)] 0
  = Some (new_segment (Z.of_nat 0 + 1) (nth 1 sam_ious 0%Q))
  /\ (exists p, In p (numbered_frame 2)
                /\ hard_argmax (1 # 2) sam_masks_lost p = Z.of_nat 1 + 1)
  /\ (0 <= 1)%nat
  /\ (0%nat = 1%nat <->
      forall i, (i < 1)%nat ->
        exists p, In p (numbered_frame 2)
                  /\ hard_argmax (1 # 2) sam_masks_lost p = Z.of_nat i + 1).
Proof.
  apply (@plain_identities_lag_labels nat (numbered_frame 2) exact_fsum Qmult
           exact_fdiv exact_fround (1 # 10) sam_config sam_masks_lost sam_ious
           (hard_argmax (1 # 2) sam_masks_lost) [new_segment 1 (7 # 10)] 0 1).
  - simpl. lia.
  - reflexivity.
  - reflexivity.
Defined.

(** X17 on two pixels with one mask on each. *)
Lemma suppressed_labels_are_identities_witness :
  exists output_mask segments_info,
    auto_segment (numbered_frame 2) exact_fsum Qmult exact_fdiv exact_fround
                 (1 # 10) sam_config sam_masks sam_ious true
    = Ok (output_mask, segments_info)
    /\ map id segments_info = [1; 2]
    /\ (forall p, output_mask p = 0
                  \/ In (output_mask p) (map id segments_info))
    /\ (forall seg, In seg segments_info ->
          exists p, In p (numbered_frame 2) /\ output_mask p = id seg).
Proof.
  eexists. eexists. split; [vm_compute; reflexivity|].
  apply (@suppressed_labels_are_identities nat (numbered_frame 2) exact_fsum
           Qmult exact_fdiv exact_fround (1 # 10) sam_config sam_masks
           sam_ious).
  vm_compute. reflexivity.
Defined.

(** X18 on two pixels with one mask on each: the first segment. *)
Lemma suppressed_candidates_are_not_empty_witness :
  exists new_mask new_segments_info,
    auto_segment (numbered_frame 2) exact_fsum Qmult exact_fdiv exact_fround
                 (1 # 10) sam_config sam_masks sam_ious true
    = Ok (new_mask, new_segments_info)
    /\ dict_get obj_eqb (one_hot_news new_mask new_segments_info)
                (new_segment 1 (8 # 10))
       = Some (teq new_mask (id (new_segment 1 (8 # 10))))
    /\ 0 < tsum (numbered_frame 2) (teq new_mask (id (new_segment 1 (8 # 10)))).
Proof.
  eexists. eexists. split; [vm_compute; reflexivity|].
  apply (@suppressed_candidates_are_not_empty nat (numbered_frame 2)
           exact_fsum Qmult exact_fdiv exact_fround (1 # 10) sam_config
           sam_masks sam_ious).
  - vm_compute. reflexivity.
  - left. reflexivity.
Defined.

(** X19 on the ten-pixel frame: the Thing pass run on an empty mask and on
    a mask that an earlier pass has filled with the label 2. *)
Lemma pass_overwrites_earlier_passes_witness :
  exists om' mask',
    merge_pass (numbered_frame 10) keep_latest "iou" ten_our_masks
               ten_new_masks ten_our_sums ten_new_sums [cand_three] (1 # 5)
               (whole_manager, background) (Some true) = Ok (om', mask')
    /\ exists mask2',
         merge_pass (numbered_frame 10) keep_latest "iou" ten_our_masks
                    ten_new_masks ten_our_sums ten_new_sums [cand_three]
                    (1 # 5) (whole_manager, only_b) (Some true)
         = Ok (om', mask2')
         /\ forall p, mask2' p = mask' p
                      \/ (mask' p = background p /\ mask2' p = only_b p).
Proof.
  eexists. eexists. split; [reflexivity|].
  apply (@pass_overwrites_earlier_passes nat (numbered_frame 10) keep_latest
           ten_our_masks ten_new_masks ten_our_sums ten_new_sums (1 # 5)
           "iou"%string [cand_three] (Some true) whole_manager).
  reflexivity.
Defined.

(** X20 on a frame of two pixels: two identities, one candidate and the cap
    3. *)
Lemma cap_admits_up_to_the_limit_witness :
  match_and_merge (numbered_frame 2) keep_latest one_each first_is_seven
                  two_things [cand_big] "iou" 3 (1 # 5)
  = match_and_merge (numbered_frame 2) keep_latest one_each first_is_seven
                    two_things [cand_big] "iou" (-1) (1 # 5).
Proof.
  apply (@cap_admits_up_to_the_limit nat (numbered_frame 2) keep_latest
           one_each first_is_seven two_things [cand_big] "iou"%string 3
           (1 # 5)).
  right. simpl. lia.
Defined.

(** X21 on two pixels with one mask on each. *)
Lemma suppressed_call_returns_witness :
  exists output_mask segments_info,
    auto_segment (numbered_frame 2) exact_fsum Qmult exact_fdiv exact_fround
                 (1 # 10) sam_config sam_masks sam_ious true
    = Ok (output_mask, segments_info).
Proof.
  apply (@suppressed_call_returns nat (numbered_frame 2) exact_fsum Qmult
           exact_fdiv exact_fround (1 # 10) sam_config sam_masks sam_ious).
  - reflexivity.
  - simpl. lia.
Defined.
